(** * sphinx-relay: payment transport core

    A shallow embedding of [src/grpc/lightning.ts] (backend client cache,
    wallet lock, keysend, message weaving, signing, paginated history) and
    of [src/utils/ldat.ts] (the LDAT access-token codec), followed by the
    properties of the specification that are stated about them.

    Conventions of the embedding.
    - A JavaScript string is a [string]: a sequence of code units in the
      Latin-1 range (one Rocq [ascii] per code unit).
    - A Node [Buffer] is a list of octets, again [ascii].
    - A JavaScript number that the code uses as an integer is a [Z];
      [NaN] is an absent value.
    - An optional argument ([x?: T], [T | null]) is an [option].
    - Calls to the logger and to [console.log] are not modelled. *)

From Stdlib Require Import ZArith NArith Lia List Ascii String Bool.
From stdpp Require Import gmap strings list fin_maps sorting.

Local Open Scope N_scope.

(** ** JavaScript and Node primitives the code relies on *)
Module JS.

Definition Buffer := list ascii.

Definition code (c : ascii) : N := N_of_ascii c.
Definition chr (n : N) : ascii := ascii_of_N (n mod 256).

Definition dquote : ascii := chr 34.
Definition backslash : ascii := chr 92.

(** *** Number.prototype.toString(radix) and parseInt *)

Definition digit_char (d : N) : ascii :=
  if d <? 10 then chr (48 + d) else chr (87 + d).

Fixpoint digits_go (fuel : nat) (radix n : N) (acc : string) : string :=
  match fuel with
  | O => acc
  | S fuel' =>
      let acc' := String (digit_char (n mod radix)) acc in
      if n / radix =? 0 then acc' else digits_go fuel' radix (n / radix) acc'
  end.

(** A natural number has at most as many digits, in any radix from 2 up,
    as it has bits. *)
Definition N_toString (radix n : N) : string :=
  digits_go (S (N.to_nat (N.log2 n))) radix n "".

Definition Number_toString (radix : N) (z : Z) : string :=
  match z with
  | Zneg p => String "-" (N_toString radix (Npos p))
  | _ => N_toString radix (Z.to_N z)
  end.

Definition digit_val (c : ascii) : option N :=
  let n := code c in
  if (48 <=? n) && (n <=? 57) then Some (n - 48)
  else if (97 <=? n) && (n <=? 122) then Some (n - 87)
  else if (65 <=? n) && (n <=? 90) then Some (n - 55)
  else None.

Definition digit_in (radix : N) (c : ascii) : option N :=
  match digit_val c with
  | Some d => if d <? radix then Some d else None
  | None => None
  end.

(** The longest prefix of digits, read most significant first; [None] when
    there is no digit at all. *)
Fixpoint scan_digits (radix : N) (s : string) (acc : option N) : option N :=
  match s with
  | EmptyString => acc
  | String c s' =>
      match digit_in radix c with
      | Some d =>
          scan_digits radix s'
            (Some (match acc with Some a => a * radix + d | None => d end))
      | None => acc
      end
  end.

(** White space of [parseInt] in the Latin-1 range: TAB, LF, VT, FF, CR, SP
    and NBSP. *)
Definition is_whitespace (c : ascii) : bool :=
  let n := code c in
  ((9 <=? n) && (n <=? 13)) || (n =? 32) || (n =? 160).

Fixpoint trim_start (s : string) : string :=
  match s with
  | String c s' => if is_whitespace c then trim_start s' else s
  | EmptyString => s
  end.

(** [parseInt(s)] without a radix argument; [None] is [NaN]. The result is
    exact, as it is in JavaScript below 2^53. *)
Definition parseInt (s : string) : option Z :=
  let s1 := trim_start s in
  let '(neg, s2) :=
    match s1 with
    | String "-" r => (true, r)
    | String "+" r => (false, r)
    | _ => (false, s1)
    end in
  let '(radix, s3) :=
    match s2 with
    | String "0" (String x r) =>
        if (code x =? 120) || (code x =? 88) then (16, r) else (10, s2)
    | _ => (10, s2)
    end in
  match scan_digits radix s3 None with
  | None => None
  | Some n => Some (if neg : bool then (- Z.of_N n)%Z else Z.of_N n)
  end.

(** *** String.prototype.substring, split, replace, join *)

(** [s.substring(from, to)] for [0 <= from <= to]. *)
Definition substring (from to : nat) (s : string) : string :=
  String.substring from (to - from) s.

(** [s.split(sep)] for a non-empty separator: [skip] counts the characters
    of a separator occurrence still to be dropped, [cur] is the piece being
    read. *)
Fixpoint split_go (sep : string) (skip : nat) (cur : string) (s : string)
  : list string :=
  match s with
  | EmptyString => [cur]
  | String c s' =>
      match skip with
      | S k => split_go sep k cur s'
      | O =>
          if String.prefix sep s
          then cur :: split_go sep (String.length sep - 1) "" s'
          else split_go sep 0 (cur +:+ String c "") s'
      end
  end.

Definition split (sep s : string) : list string := split_go sep 0 "" s.

(** [s.includes(c)] for a one-character needle. *)
Fixpoint includes (c : ascii) (s : string) : bool :=
  match s with
  | EmptyString => false
  | String x s' => if Ascii.eqb x c then true else includes c s'
  end.

(** [s.replace(/c/g, by)]. *)
Fixpoint replace_all (c : ascii) (by_ : string) (s : string) : string :=
  match s with
  | EmptyString => ""
  | String x s' =>
      if Ascii.eqb x c then by_ +:+ replace_all c by_ s'
      else String x (replace_all c by_ s')
  end.

(** [arr.join(sep)]. *)
Fixpoint join (sep : string) (l : list string) : string :=
  match l with
  | [] => ""
  | [x] => x
  | x :: rest => x +:+ sep +:+ join sep rest
  end.

(** *** Buffer encodings *)

(** [Buffer.from(s, 'ascii')]: the low eight bits of each code unit. *)
Definition Buffer_from_ascii (s : string) : Buffer := list_ascii_of_string s.

(** [buf.toString('ascii')]: the high bit of each octet is cleared. *)
Definition Buffer_toString_ascii (b : Buffer) : string :=
  string_of_list_ascii (map (fun c => chr (N.land (code c) 127)) b).

(** [Buffer.from(s, 'utf-8')] on Latin-1 code units. *)
Definition utf8_char (c : ascii) : Buffer :=
  if code c <? 128 then [c]
  else [chr (192 + code c / 64); chr (128 + code c mod 64)].

Definition Buffer_from_utf8 (s : string) : Buffer :=
  flat_map utf8_char (list_ascii_of_string s).

Definition hex2 (b : ascii) : string :=
  String (digit_char (code b / 16)) (String (digit_char (code b mod 16)) "").

(** [buf.toString('hex')]: two lower-case digits per octet. *)
Fixpoint Buffer_toString_hex (b : Buffer) : string :=
  match b with
  | [] => ""
  | x :: rest => hex2 x +:+ Buffer_toString_hex rest
  end.

(** [Buffer.from(s, 'hex')]: decoding stops at the first pair that is not
    two hex digits; a trailing single character is dropped. *)
Fixpoint Buffer_from_hex (s : string) : Buffer :=
  match s with
  | String h (String l s') =>
      match digit_in 16 h, digit_in 16 l with
      | Some a, Some b => chr (a * 16 + b) :: Buffer_from_hex s'
      | _, _ => []
      end
  | _ => []
  end.

Definition b64_alphabet : string :=
  "ABCDEFGHIJKLMNOPQRSTUVWXYZabcdefghijklmnopqrstuvwxyz0123456789+/".

Definition b64_char (n : N) : ascii :=
  match String.get (N.to_nat n) b64_alphabet with
  | Some c => c
  | None => "="%char
  end.

(** [buf.toString('base64')]: standard alphabet, padded. *)
Fixpoint Buffer_toString_base64 (b : Buffer) : string :=
  match b with
  | [] => ""
  | [x] =>
      String (b64_char (code x / 4))
        (String (b64_char (code x mod 4 * 16)) "==")
  | [x; y] =>
      String (b64_char (code x / 4))
        (String (b64_char (code x mod 4 * 16 + code y / 16))
           (String (b64_char (code y mod 16 * 4)) "="))
  | x :: y :: z :: rest =>
      String (b64_char (code x / 4))
        (String (b64_char (code x mod 4 * 16 + code y / 16))
           (String (b64_char (code y mod 16 * 4 + code z / 64))
              (String (b64_char (code z mod 64))
                 (Buffer_toString_base64 rest))))
  end.

(** Node's decoding table: both the standard and the URL-safe alphabet. *)
Definition unbase64 (c : ascii) : option N :=
  let n := code c in
  if (65 <=? n) && (n <=? 90) then Some (n - 65)
  else if (97 <=? n) && (n <=? 122) then Some (n - 71)
  else if (48 <=? n) && (n <=? 57) then Some (n + 4)
  else if (n =? 43) || (n =? 45) then Some 62
  else if (n =? 47) || (n =? 95) then Some 63
  else None.

(** The sextets of the legal characters before the first [=]; characters
    outside the table are skipped. *)
Fixpoint b64_sextets (s : string) : list N :=
  match s with
  | EmptyString => []
  | String c s' =>
      if Ascii.eqb c "=" then []
      else match unbase64 c with
           | Some v => v :: b64_sextets s'
           | None => b64_sextets s'
           end
  end.

Fixpoint b64_bytes (l : list N) : Buffer :=
  match l with
  | a :: b :: c :: d :: rest =>
      chr (a * 4 + b / 16) :: chr (b mod 16 * 16 + c / 4)
        :: chr (c mod 4 * 64 + d) :: b64_bytes rest
  | [a; b; c] => [chr (a * 4 + b / 16); chr (b mod 16 * 16 + c / 4)]
  | [a; b] => [chr (a * 4 + b / 16)]
  | _ => []
  end.

(** [Buffer.from(s, 'base64')]. *)
Definition Buffer_from_base64 (s : string) : Buffer :=
  b64_bytes (b64_sextets s).

(** [Buffer.concat(list, totalLength)]: the concatenation cut or
    zero-filled to [totalLength] octets. *)
Definition Buffer_concat (l : list Buffer) (totalLength : nat) : Buffer :=
  let all := List.concat l in
  firstn totalLength all ++ repeat (chr 0) (totalLength - List.length all).

(** *** encodeURIComponent and decodeURIComponent *)

(** The characters [encodeURIComponent] leaves alone: letters, digits and
    [- _ . ! ~ * ' ( )]. *)
Definition uri_unreserved (c : ascii) : bool :=
  let n := code c in
  ((65 <=? n) && (n <=? 90)) || ((97 <=? n) && (n <=? 122))
  || ((48 <=? n) && (n <=? 57))
  || (n =? 45) || (n =? 95) || (n =? 46) || (n =? 33) || (n =? 126)
  || (n =? 42) || (n =? 39) || (n =? 40) || (n =? 41).

Definition upper_digit_char (d : N) : ascii :=
  if d <? 10 then chr (48 + d) else chr (55 + d).

Definition percent (b : ascii) : string :=
  String "%" (String (upper_digit_char (code b / 16))
                (String (upper_digit_char (code b mod 16)) "")).

Definition encodeURIComponent_char (c : ascii) : string :=
  if uri_unreserved c then String c ""
  else fold_right (fun b acc => percent b +:+ acc) "" (utf8_char c).

Fixpoint encodeURIComponent (s : string) : string :=
  match s with
  | EmptyString => ""
  | String c s' => encodeURIComponent_char c +:+ encodeURIComponent s'
  end.

(** [decodeURIComponent(s)]; [None] when it throws a URIError (a [%] that
    is not followed by two hex digits, a malformed UTF-8 sequence) and
    when the decoded character lies outside the Latin-1 range of this
    model. *)
Fixpoint decodeURIComponent (s : string) : option string :=
  match s with
  | EmptyString => Some ""
  | String c s1 =>
      if negb (Ascii.eqb c "%") then String c <$> decodeURIComponent s1
      else
        match s1 with
        | String h (String l s2) =>
            match digit_in 16 h, digit_in 16 l with
            | Some a, Some b =>
                let b1 := a * 16 + b in
                if b1 <? 128 then String (chr b1) <$> decodeURIComponent s2
                else if (b1 =? 194) || (b1 =? 195) then
                  match s2 with
                  | String "%" (String h2 (String l2 s3)) =>
                      match digit_in 16 h2, digit_in 16 l2 with
                      | Some a2, Some b2 =>
                          let b2' := a2 * 16 + b2 in
                          if (128 <=? b2') && (b2' <? 192)
                          then String (chr ((b1 - 192) * 64 + (b2' - 128)))
                                 <$> decodeURIComponent s3
                          else None
                      | _, _ => None
                      end
                  | _ => None
                  end
                else None
            | _, _ => None
            end
        | _ => None
        end
  end.

(** *** JSON.parse on the texts that [deserializeMeta] builds *)

(** The reader covers objects whose members are all strings without escape
    sequences, written without white space: [{"k":"v","k":"v"}]. *)
Inductive JsonState :=
| JKey (k : string)
| JColon (k : string)
| JValOpen (k : string)
| JVal (k v : string)
| JNext
| JKeyOpen
| JEnd.

Definition json_plain (c : ascii) : bool :=
  negb (Ascii.eqb c dquote) && negb (Ascii.eqb c backslash)
  && (32 <=? code c).

Fixpoint json_run (st : JsonState) (acc : list (string * string))
    (s : string) : option (list (string * string)) :=
  match s with
  | EmptyString => match st with JEnd => Some acc | _ => None end
  | String c s' =>
      match st with
      | JKey k =>
          if Ascii.eqb c dquote then json_run (JColon k) acc s'
          else if json_plain c then json_run (JKey (k +:+ String c "")) acc s'
          else None
      | JColon k =>
          if Ascii.eqb c ":" then json_run (JValOpen k) acc s' else None
      | JValOpen k =>
          if Ascii.eqb c dquote then json_run (JVal k "") acc s' else None
      | JVal k v =>
          if Ascii.eqb c dquote then json_run JNext (acc ++ [(k, v)]) s'
          else if json_plain c then json_run (JVal k (v +:+ String c "")) acc s'
          else None
      | JNext =>
          if Ascii.eqb c "," then json_run JKeyOpen acc s'
          else if Ascii.eqb c "}" then json_run JEnd acc s'
          else None
      | JKeyOpen =>
          if Ascii.eqb c dquote then json_run (JKey "") acc s' else None
      | JEnd => None
      end
  end.

(** The members in source order; [None] for a SyntaxError and for a text
    outside the fragment above (escapes, white space between tokens,
    members that are not strings). *)
Definition JSON_parse_members (text : string)
  : option (list (string * string)) :=
  match text with
  | String "{" (String q rest) =>
      if Ascii.eqb q dquote then json_run (JKey "") [] rest else None
  | _ => None
  end.

(** The object itself: of two members with one key the later one stays. *)
Definition JSON_parse (text : string) : option (gmap string string) :=
  (fun kvs => fold_left (fun o kv => <[kv.1 := kv.2]> o) kvs ∅)
    <$> JSON_parse_members text.

(** *** Array.prototype.sort with the comparator [(a, b) => a > b ? 1 : -1] *)

Fixpoint sort_insert (x : string) (l : list string) : list string :=
  match l with
  | [] => [x]
  | y :: rest =>
      if String.leb x y then x :: l else y :: sort_insert x rest
  end.

(** Strings are compared code unit by code unit; any sort that follows the
    comparator ends in the ascending arrangement. *)
Definition sort_ascending (l : list string) : list string :=
  fold_right sort_insert [] l.

End JS.

(** ** src/grpc/lightning.ts *)
Module Lightning.
Import JS.

(** *** Values exchanged with the nodes *)

Inductive Credentials :=
| SslCredentials (cert : Buffer) (key chain : option Buffer)
| CombinedCredentials (ssl : Credentials) (macaroon : string).

(** What [loadLightning] and [loadRouter] hand out. *)
Inductive Client :=
| LndClient (target : string) (credentials : Credentials)
| GreenlightNode (target : string) (credentials : Credentials)
| RouterClient (target : string) (credentials : Credentials)
| ProxyClient (owner : string) (macaroon : string).

Record Payment := {
  payment_error : string;
  status : string;
  state : string;
  failure_reason : string;
  payment_preimage : Buffer;
}.

Record Invoice := {
  add_index : Z;
  payment_request : string;
}.

(** The reply objects of the RPCs used below; a field that a reply does
    not carry reads as [undefined]. *)
Inductive Response :=
| RPayment (p : Payment)
| RInvoices (first_index_offset : string) (invoices : option (list Invoice))
| RSignature (signature : string)
| RVerify (valid : bool) (pubkey : string).

Definition r_payment_error (r : Response) : string :=
  match r with RPayment p => payment_error p | _ => "" end.
Definition r_status (r : Response) : string :=
  match r with RPayment p => status p | _ => "" end.
Definition r_state (r : Response) : string :=
  match r with RPayment p => state p | _ => "" end.
Definition r_failure_reason (r : Response) : string :=
  match r with RPayment p => failure_reason p | _ => "" end.
Definition r_invoices (r : Response) : option (list Invoice) :=
  match r with RInvoices _ l => l | _ => None end.
Definition r_first_index_offset (r : Response) : string :=
  match r with RInvoices o _ => o | _ => "" end.
Definition r_signature (r : Response) : string :=
  match r with RSignature s => s | _ => "" end.
Definition r_pubkey (r : Response) : string :=
  match r with RVerify _ k => k | _ => "" end.

(** Values that are thrown or passed to [reject]. *)
Inductive Err :=
| EString (s : string)
| EError (message : string)
| EService (code : Z) (details : string)
| EObject (r : Response)
| ENull.

Inductive StreamEvent :=
| OnData (payment : Response)
| OnError (err : Err).

(** What a node answers to a request: the arguments of the callback of a
    unary call, or the events of a streaming call. *)
Inductive Reply :=
| Callback (err : option Err) (response : option Response)
| Stream (events : list StreamEvent).

Record HopHint := { node_id : string; chan_id : string }.

Record KeysendOpts := {
  amt : Z;
  dest : string;
  data : option string;
  route_hint : option string;
  extra_tlv : gmap string string;
}.

Record KeysendRequest := {
  kr_amt : Z;
  kr_final_cltv_delta : Z;
  kr_dest : Buffer;
  kr_dest_custom_records : gmap string Buffer;
  kr_payment_hash : Buffer;
  kr_dest_features : list Z;
  kr_route_hints : option (list (list HopHint));
  kr_fee_limit : option Z;
  kr_fee_limit_sat : option Z;
  kr_timeout_seconds : option Z;
}.

(** Calls that reach a node. The greenlight keysend carries the options
    that [interfaces.keysendRequest] is applied to. *)
Inductive Request :=
| SendPaymentSync (c : Client) (options : KeysendRequest)
| GreenlightKeysend (c : Client) (options : KeysendRequest)
| SendPaymentV2 (router : Client) (options : KeysendRequest)
| ListInvoices (c : Client) (num_max_invoices index_offset : Z)
    (reversed : bool)
| SignMessage (c : Client) (msg : Buffer)
| VerifyMessage (c : Client) (msg : Buffer) (signature : string).

(** *** Configuration and collaborators outside this file *)

Record Config := {
  lnd_ip : string;
  lnd_port : string;
  lightning_provider : string;
  tls_location : string;
  tls_key_location : string;
  tls_chain_location : string;
  media_host : string;
}.

Record Constants := {
  min_sat_amount : Z;
  final_cltv_delta : Z;
}.

Record Env := {
  config : Config;
  constants : Constants;
  (** utils/proxy *)
  isProxy : bool;
  loadProxyLightning : string -> option Client;
  (** fs and utils/macaroon; [inl]: the call throws *)
  readFileSync : string -> Err + Buffer;
  getMacaroon : option string -> Err + string;
  (** ./greenlight and ./libhsmd *)
  get_greenlight_grpc_uri : string;
  greenlightSignMessagePayload : Buffer -> Buffer;
  libhsmd_Handle : Z -> Buffer -> Err + string;
  (** ./interfaces *)
  keysendResponse : Response -> Response;
  (** crypto, js-sha256, secp256k1, utils/zbase32 *)
  randomBytes : nat -> Buffer;
  sha256 : Buffer -> Buffer;
  zbase32_encode : Buffer -> string;
  zbase32_decode : string -> Err + Buffer;
  secp256k1_recover : Buffer -> Buffer -> Z -> bool -> Err + Buffer;
}.

Definition LND_KEYSEND_KEY : Z := 5482373484.
Definition SPHINX_CUSTOM_RECORD_KEY : Z := 133773310.
Definition FEE_LIMIT_SAT : Z := 10000.
Definition MAX_MSG_LENGTH : nat := 972.

(** *** The state the module works on *)

(** The module-level variables ([lightningClient], [routerClient],
    [isLocked], [lockTimeout]), the timeouts pending in the event loop, the
    clock, the number of random draws made so far, the requests sent and
    the replies the nodes are going to give, in order. *)
Record World := {
  lightningClient : option Client;
  routerClient : option Client;
  isLocked : bool;
  lockTimeout : option nat;
  timers : gmap nat Z;
  next_timer : nat;
  now : Z;
  rng : nat;
  outbox : list Request;
  inbox : list Reply;
}.

Definition set_lightningClient (c : option Client) (w : World) : World :=
  {| lightningClient := c; routerClient := routerClient w;
     isLocked := isLocked w; lockTimeout := lockTimeout w;
     timers := timers w; next_timer := next_timer w; now := now w;
     rng := rng w; outbox := outbox w; inbox := inbox w |}.

Definition set_routerClient (c : option Client) (w : World) : World :=
  {| lightningClient := lightningClient w; routerClient := c;
     isLocked := isLocked w; lockTimeout := lockTimeout w;
     timers := timers w; next_timer := next_timer w; now := now w;
     rng := rng w; outbox := outbox w; inbox := inbox w |}.

Definition set_lock (b : bool) (h : option nat) (t : gmap nat Z) (n : nat)
    (w : World) : World :=
  {| lightningClient := lightningClient w; routerClient := routerClient w;
     isLocked := b; lockTimeout := h; timers := t; next_timer := n;
     now := now w; rng := rng w; outbox := outbox w; inbox := inbox w |}.

Definition set_now (t : Z) (w : World) : World :=
  {| lightningClient := lightningClient w; routerClient := routerClient w;
     isLocked := isLocked w; lockTimeout := lockTimeout w;
     timers := timers w; next_timer := next_timer w; now := t;
     rng := rng w; outbox := outbox w; inbox := inbox w |}.

Definition set_rng (n : nat) (w : World) : World :=
  {| lightningClient := lightningClient w; routerClient := routerClient w;
     isLocked := isLocked w; lockTimeout := lockTimeout w;
     timers := timers w; next_timer := next_timer w; now := now w;
     rng := n; outbox := outbox w; inbox := inbox w |}.

Definition set_net (o : list Request) (i : list Reply) (w : World) : World :=
  {| lightningClient := lightningClient w; routerClient := routerClient w;
     isLocked := isLocked w; lockTimeout := lockTimeout w;
     timers := timers w; next_timer := next_timer w; now := now w;
     rng := rng w; outbox := o; inbox := i |}.

(** *** Promises *)

(** How a promise ends: fulfilled, rejected, or never settled. *)
Inductive Outcome (A : Type) :=
| Resolved (a : A)
| Rejected (e : Err)
| Pending.
Arguments Resolved {A} a.
Arguments Rejected {A} e.
Arguments Pending {A}.

Definition Async (A : Type) : Type := World -> Outcome A * World.

Definition resolve {A} (a : A) : Async A := fun w => (Resolved a, w).
Definition reject {A} (e : Err) : Async A := fun w => (Rejected e, w).
Definition never {A} : Async A := fun w => (Pending, w).

(** [await m] followed by [k]. *)
Definition bind {A B} (m : Async A) (k : A -> Async B) : Async B :=
  fun w =>
    match m w with
    | (Resolved a, w') => k a w'
    | (Rejected e, w') => (Rejected e, w')
    | (Pending, w') => (Pending, w')
    end.

(** [try { m } catch (e) { h(e) }]. *)
Definition try_catch {A} (m : Async A) (h : Err -> Async A) : Async A :=
  fun w =>
    match m w with
    | (Rejected e, w') => h e w'
    | r => r
    end.

Definition lift {A} (r : Err + A) : Async A :=
  match r with inl e => reject e | inr a => resolve a end.

Definition or_null (err : option Err) : Err :=
  match err with Some e => e | None => ENull end.

Notation "'await' x ':=' m 'in' k" := (bind m (fun x => k))
  (at level 10, x name, m at level 100, k at level 200).

(** A unary call: the request goes out and the next reply comes in. When
    no reply is left, or the reply is not a callback, the callback is never
    run. *)
Definition call (req : Request) : Async (option Err * option Response) :=
  fun w =>
    match inbox w with
    | Callback err response :: rest =>
        (Resolved (err, response), set_net (outbox w ++ [req]) rest w)
    | _ :: rest => (Pending, set_net (outbox w ++ [req]) rest w)
    | [] => (Pending, set_net (outbox w ++ [req]) [] w)
    end.

(** A streaming call: the events the stream is going to emit. *)
Definition call_stream (req : Request) : Async (list StreamEvent) :=
  fun w =>
    match inbox w with
    | Stream events :: rest =>
        (Resolved events, set_net (outbox w ++ [req]) rest w)
    | _ :: rest => (Pending, set_net (outbox w ++ [req]) rest w)
    | [] => (Pending, set_net (outbox w ++ [req]) [] w)
    end.

(** [await m] inside [new Promise(async (resolve, reject) => { ... })]
    outside of any [try]: an exception of [m] rejects only the promise of
    the executor, and the promise under construction is never settled. *)
Definition uncaught {A} (m : Async A) : Async A :=
  try_catch m (fun _ => never).

Section WithEnv.
Variable env : Env.

Definition LND_IP : string :=
  match lnd_ip (config env) with
  | EmptyString => "localhost"
  | ip => ip
  end.
Definition IS_LND : bool :=
  String.eqb (lightning_provider (config env)) "LND".
Definition IS_GREENLIGHT : bool :=
  String.eqb (lightning_provider (config env)) "GREENLIGHT".

(** [isLND(client)] and [isGL(client)] ignore their argument. *)
Definition isLND (client : Client) : bool := IS_LND.
Definition isGL (client : Client) : bool := IS_GREENLIGHT.

(** A string argument that is present and not empty. *)
Definition truthy (s : option string) : bool :=
  match s with
  | Some (String _ _) => true
  | _ => false
  end.

(** *** Credentials and clients *)

Definition loadCredentials (macName : option string) : Err + Credentials :=
  match readFileSync env (tls_location (config env)) with
  | inr lndCert =>
      match getMacaroon env macName with
      | inr macaroon =>
          inr (CombinedCredentials (SslCredentials lndCert None None) macaroon)
      | inl _ => inl (EString "cannot read LND macaroon or cert")
      end
  | inl _ => inl (EString "cannot read LND macaroon or cert")
  end.

Definition loadGreenlightCredentials : Err + Credentials :=
  match readFileSync env (tls_location (config env)) with
  | inl e => inl e
  | inr glCert =>
      match readFileSync env (tls_key_location (config env)) with
      | inl e => inl e
      | inr glPriv =>
          match readFileSync env (tls_chain_location (config env)) with
          | inl e => inl e
          | inr glChain =>
              inr (SslCredentials glCert (Some glPriv) (Some glChain))
          end
      end
  end.

Definition loadLightning (tryProxy : bool) (ownerPubkey : option string)
    (noCache : bool) : Async Client :=
  fun w =>
    if tryProxy && isProxy env && truthy ownerPubkey then
      let client := loadProxyLightning env (default "" ownerPubkey) in
      let w' := set_lightningClient client w in
      match client with
      | None => (Rejected (EError "no lightning client"), w')
      | Some c => (Resolved c, w')
      end
    else
      match lightningClient w, noCache with
      | Some c, false => (Resolved c, w)
      | _, _ =>
          if IS_GREENLIGHT then
            match loadGreenlightCredentials with
            | inl e => (Rejected e, w)
            | inr credentials =>
                let uri := split "//" (get_greenlight_grpc_uri env) in
                match uri !! 1%nat with
                | Some (String _ _ as target) =>
                    let c := GreenlightNode target credentials in
                    (Resolved c, set_lightningClient (Some c) w)
                | _ => (Rejected (EError "no lightning client"), w)
                end
            end
          else
            match loadCredentials None with
            | inl e => (Rejected e, w)
            | inr credentials =>
                let c :=
                  LndClient (LND_IP +:+ ":" +:+ lnd_port (config env))
                    credentials in
                (Resolved c, set_lightningClient (Some c) w)
            end
      end.

Definition loadRouter : Async Client :=
  fun w =>
    match routerClient w with
    | Some r => (Resolved r, w)
    | None =>
        match loadCredentials (Some "router.macaroon") with
        | inl e => (Rejected e, w)
        | inr credentials =>
            let r :=
              RouterClient (LND_IP +:+ ":" +:+ lnd_port (config env))
                credentials in
            (Resolved r, set_routerClient (Some r) w)
        end
    end.

(** *** The wallet lock *)

Definition getLock (w : World) : bool := isLocked w.

(** [clearTimeout] of the previous handle, then a new timeout two minutes
    from now. *)
Definition setLock (value : bool) (w : World) : World :=
  let pending :=
    match lockTimeout w with
    | Some h => delete h (timers w)
    | None => timers w
    end in
  set_lock value (Some (next_timer w))
    (<[next_timer w := (now w + 1000 * 60 * 2)%Z]> pending)
    (S (next_timer w)) w.

(** The event loop: the timeouts that are due run their callback, which
    sets [isLocked] to [false], and leave the queue. *)
Definition run_timers (w : World) : World :=
  let due := filter (fun ht => (ht.2 <= now w)%Z) (timers w) in
  if decide (due = ∅) then w
  else
    set_lock false (lockTimeout w)
      (filter (fun ht => (now w < ht.2)%Z) (timers w)) (next_timer w) w.

(** [ms] milliseconds go by. *)
Definition elapse (ms : Z) (w : World) : World :=
  run_timers (set_now (now w + ms)%Z w).

(** [sleep(ms)] of ../helpers. *)
Definition sleep (ms : Z) : Async unit :=
  fun w => (Resolved tt, elapse ms w).

(** *** keysend *)

(** [dest_custom_records]: the object literal with the preimage, then one
    assignment [dest_custom_records[k] = Buffer.from(v, 'utf-8')] for each
    entry of [extra_tlv], then the message. The assignment to the key
    [__proto__] sets the prototype of the object and leaves no property
    behind, so that entry of [extra_tlv] gives no record. *)
Definition keysend_records (opts : KeysendOpts) (preimage : Buffer)
  : gmap string Buffer :=
  let with_extra :=
    (Buffer_from_utf8 <$> delete "__proto__" (extra_tlv opts))
      ∪ {[ Number_toString 10 LND_KEYSEND_KEY := preimage ]} in
  match data opts with
  | Some (String _ _ as d) =>
      <[ Number_toString 10 SPHINX_CUSTOM_RECORD_KEY := Buffer_from_utf8 d ]>
        with_extra
  | _ => with_extra
  end.

Definition keysend_route_hints (opts : KeysendOpts)
  : option (list (list HopHint)) :=
  match route_hint opts with
  | Some (String _ _ as hint) =>
      if includes ":" hint then
        let arr := split ":" hint in
        Some [[ {| node_id := nth 0 arr ""; chan_id := nth 1 arr "" |} ]]
      else None
  | _ => None
  end.

Definition keysend_options (opts : KeysendOpts) (preimage : Buffer)
  : KeysendRequest :=
  {| kr_amt :=
       Z.max (amt opts)
         (if (min_sat_amount (constants env) =? 0)%Z then 3%Z
          else min_sat_amount (constants env));
     kr_final_cltv_delta := final_cltv_delta (constants env);
     kr_dest := Buffer_from_hex (dest opts);
     kr_dest_custom_records := keysend_records opts preimage;
     kr_payment_hash := sha256 env preimage;
     kr_dest_features := [9%Z];
     kr_route_hints := keysend_route_hints opts;
     kr_fee_limit := None;
     kr_fee_limit_sat := None;
     kr_timeout_seconds := None |}.

Definition with_fee_limit (o : KeysendRequest) : KeysendRequest :=
  {| kr_amt := kr_amt o; kr_final_cltv_delta := kr_final_cltv_delta o;
     kr_dest := kr_dest o;
     kr_dest_custom_records := kr_dest_custom_records o;
     kr_payment_hash := kr_payment_hash o;
     kr_dest_features := kr_dest_features o;
     kr_route_hints := kr_route_hints o;
     kr_fee_limit := Some FEE_LIMIT_SAT;
     kr_fee_limit_sat := kr_fee_limit_sat o;
     kr_timeout_seconds := kr_timeout_seconds o |}.

Definition with_router_limits (o : KeysendRequest) : KeysendRequest :=
  {| kr_amt := kr_amt o; kr_final_cltv_delta := kr_final_cltv_delta o;
     kr_dest := kr_dest o;
     kr_dest_custom_records := kr_dest_custom_records o;
     kr_payment_hash := kr_payment_hash o;
     kr_dest_features := kr_dest_features o;
     kr_route_hints := kr_route_hints o;
     kr_fee_limit := kr_fee_limit o;
     kr_fee_limit_sat := Some FEE_LIMIT_SAT;
     kr_timeout_seconds := Some 16%Z |}.

(** The handlers of the [sendPaymentV2] stream: the first event that
    settles the promise decides; later ones change nothing. *)
Fixpoint sendPaymentV2_events (events : list StreamEvent)
  : Outcome Response :=
  match events with
  | [] => Pending
  | OnError err :: _ => Rejected err
  | OnData payment :: rest =>
      let st :=
        match r_status payment with
        | EmptyString => r_state payment
        | s => s
        end in
      if negb (String.eqb (r_payment_error payment) "")
      then Rejected (EString (r_payment_error payment))
      else if String.eqb st "IN_FLIGHT" then sendPaymentV2_events rest
      else if String.eqb st "FAILED_NO_ROUTE" || String.eqb st "FAILED"
      then Rejected (match r_failure_reason payment with
                     | EmptyString => EObject payment
                     | reason => EString reason
                     end)
      else if String.eqb st "SUCCEEDED" then Resolved payment
      else sendPaymentV2_events rest
  end.

(** The [try] block of [keysend]. *)
Definition keysend_send (opts : KeysendOpts) (ownerPubkey : option string)
  : Async Response :=
  fun w =>
    let preimage := randomBytes env (rng w) in
    let options := keysend_options opts preimage in
    (await lightning := loadLightning true ownerPubkey false in
     if isProxy env then
       await cb :=
         call (SendPaymentSync lightning (with_fee_limit options)) in
       match cb with
       | (None, Some r) =>
           if negb (String.eqb (r_payment_error r) "")
           then reject (EString (r_payment_error r))
           else resolve r
       | (err, _) => reject (or_null err)
       end
     else
       await lightning := loadLightning false ownerPubkey false in
       if isGL lightning then
         await cb := call (GreenlightKeysend lightning options) in
         match cb with
         | (None, Some r) => resolve (keysendResponse env r)
         | (err, _) => reject (or_null err)
         end
       else
         await router := loadRouter in
         await events :=
           call_stream (SendPaymentV2 router (with_router_limits options)) in
         (fun w' => (sendPaymentV2_events events, w')))
      (set_rng (S (rng w)) w).

Definition keysend (opts : KeysendOpts) (ownerPubkey : option string)
  : Async Response :=
  fun w =>
    if negb (String.length (dest opts) =? 66)%nat
    then (Rejected (EString "keysend: invalid pubkey"), w)
    else try_catch (keysend_send opts ownerPubkey) (fun e => reject e) w.

(** *** keysendMessage *)

(** [Math.ceil(a / b)] on lengths. *)
Definition ceil_div (a b : nat) : nat :=
  if (a mod b =? 0)%nat then (a / b)%nat else S (a / b).

(** The template [`${ts}_${i}_${n}_${m}`]. *)
Definition weave_data (ts : Z) (i n : nat) (m : string) : string :=
  Number_toString 10 ts +:+ "_" +:+ Number_toString 10 (Z.of_nat i)
    +:+ "_" +:+ Number_toString 10 (Z.of_nat n) +:+ "_" +:+ m.

(** The options of the [i]-th of [n] keysends of a woven message. *)
Definition weave_chunk (opts : KeysendOpts) (ts : Z) (n i : nat)
  : KeysendOpts :=
  let d := default "" (data opts) in
  let spliti := ceil_div (String.length d) n in
  let m := substring (i * spliti) (i * spliti + spliti) d in
  let isLastThread := (i =? n - 1)%nat in
  {| amt := if isLastThread then amt opts else min_sat_amount (constants env);
     dest := dest opts;
     data := Some (weave_data ts i n m);
     route_hint := route_hint opts;
     extra_tlv := extra_tlv opts |}.

(** The variables [success], [fail] and [res] of the loop; [res] starts as
    [null]. *)
Record Weave := {
  success : bool;
  fail : bool;
  res : option Response;
}.

(** The body of the [for] loop, for the indices [todo] still to go. *)
Fixpoint weave_loop (opts : KeysendOpts) (ownerPubkey : option string)
    (ts : Z) (n : nat) (todo : list nat) (v : Weave) : Async Weave :=
  match todo with
  | [] => resolve v
  | i :: rest =>
      fun w =>
        match keysend (weave_chunk opts ts n i) ownerPubkey w with
        | (Resolved r, w1) =>
            (await _ := sleep 432 in
             weave_loop opts ownerPubkey ts n rest
               {| success := true; fail := fail v; res := Some r |}) w1
        | (Rejected e, w1) =>
            weave_loop opts ownerPubkey ts n rest
              {| success := success v; fail := true; res := res v |} w1
        | (Pending, w1) => (Pending, w1)
        end
  end.

(** Before the loop: [success = false], [fail = false], [res = null]. *)
Definition weave_start : Weave :=
  {| success := false; fail := false; res := None |}.

(** After the loop: [success && !fail ? resolve(res) : reject(Error)]. *)
Definition weave_end (v : Weave) : Async (option Response) :=
  if success v && negb (fail v) then resolve (res v)
  else reject (EError "fail").

(** The promise is fulfilled with [res], which is [null] ([None]) until a
    keysend of the loop has succeeded. *)
Definition keysendMessage (opts : KeysendOpts) (ownerPubkey : option string)
  : Async (option Response) :=
  match data opts with
  | Some (String _ _ as d) =>
      if (String.length d <? MAX_MSG_LENGTH)%nat then
        try_catch
          (await r := keysend opts ownerPubkey in resolve (Some r))
          (fun e => reject e)
      else
        let n := ceil_div (String.length d) MAX_MSG_LENGTH in
        fun w =>
          let ts := now w in
          (await v := weave_loop opts ownerPubkey ts n (seq 0 n) weave_start in
           weave_end v) w
  | _ => reject (EString "string plz")
  end.

(** *** Signing and verifying *)

Definition ascii_to_hexa (str : string) : string :=
  join ""
    (map (fun c => Number_toString 16 (Z.of_N (code c)))
       (list_ascii_of_string str)).

(** [buf.subarray(from, to)] and [buf.slice(from, to)]. *)
Definition subarray (from to : nat) (b : Buffer) : Buffer :=
  firstn (to - from) (skipn from b).

(** [buf.readUIntBE(0, 1)]; it throws on an empty buffer. *)
Definition readUInt8 (b : Buffer) : Err + Z :=
  match b with
  | x :: _ => inr (Z.of_N (code x))
  | [] => inl (EError "ERR_OUT_OF_RANGE")
  end.

(** [buf.writeUInt8(v, 0)] on a one-octet buffer; it throws when [v] is
    not an octet. *)
Definition writeUInt8 (v : Z) : Err + Buffer :=
  if ((0 <=? v) && (v <=? 255))%Z then inr [chr (Z.to_N v)]
  else inl (EError "ERR_OUT_OF_RANGE").

Definition signBuffer (msg : Buffer) (ownerPubkey : option string)
  : Async string :=
  try_catch
    (await lightning := loadLightning true ownerPubkey false in
     if IS_GREENLIGHT then
       let pld := greenlightSignMessagePayload env msg in
       await sig := lift (libhsmd_Handle env 1024 pld) in
       let sigBuf := Buffer_from_hex sig in
       let sigBytes := subarray 2 66 sigBuf in
       let recidBytes := subarray 66 67 sigBuf in
       await recid := lift (readUInt8 recidBytes) in
       let ecRecid := (recid + 31)%Z in
       await finalRecid := lift (writeUInt8 ecRecid) in
       let finalSig := Buffer_concat [finalRecid; sigBytes] 65 in
       resolve (zbase32_encode env finalSig)
     else if isLND lightning then
       await cb := call (SignMessage lightning msg) in
       match cb with
       | (None, Some r) =>
           match r_signature r with
           | EmptyString => reject ENull
           | signature => resolve signature
           end
       | (err, _) => reject (or_null err)
       end
     else never)
    (fun e => reject e).

(** [msg] is hex. *)
Definition signMessage (msg : string) (ownerPubkey : option string)
  : Async string :=
  signBuffer (Buffer_from_hex msg) ownerPubkey.

Definition signAscii (ascii : string) (ownerPubkey : option string)
  : Async string :=
  await sig := signMessage (ascii_to_hexa ascii) ownerPubkey in
  resolve sig.

(** "Lightning Signed Message:" *)
Definition prefixBytes : Buffer :=
  Buffer_from_hex "4c696768746e696e67205369676e6564204d6573736167653a".

(** [msg] is hex, [sig] is zbase32. *)
Definition verifyMessage (msg sig : string) (ownerPubkey : option string)
  : Async Response :=
  try_catch
    (await lightning := loadLightning true ownerPubkey false in
     if IS_GREENLIGHT then
       await fullBytes := lift (zbase32_decode env sig) in
       let sigBytes := skipn 1 fullBytes in
       let recidBytes := subarray 0 1 fullBytes in
       await byte0 := lift (readUInt8 recidBytes) in
       let recid := (byte0 - 31)%Z in
       let msgBytes := Buffer_from_hex msg in
       let hash :=
         sha256 env
           (sha256 env
              (Buffer_concat [prefixBytes; msgBytes]
                 (List.length msgBytes + List.length prefixBytes))) in
       await recoveredPubkey :=
         lift (secp256k1_recover env hash sigBytes recid true) in
       resolve (RVerify true (Buffer_toString_hex recoveredPubkey))
     else if isLND lightning then
       await cb :=
         call (VerifyMessage lightning (Buffer_from_hex msg) sig) in
       match cb with
       | (None, Some r) =>
           match r_pubkey r with
           | EmptyString => reject ENull
           | _ => resolve r
           end
       | (err, _) => reject (or_null err)
       end
     else never)
    (fun e => reject e).

Definition verifyBytes (msg : Buffer) (sig : string) : Async Response :=
  await r := verifyMessage (Buffer_toString_hex msg) sig None in
  resolve r.

Definition verifyAscii (ascii sig : string) (ownerPubkey : option string)
  : Async Response :=
  await r := verifyMessage (ascii_to_hexa ascii) sig ownerPubkey in
  resolve r.

(** *** Paginated invoice history *)

Definition listInvoicesPaginated (limit offset : Z) : Async Response :=
  await lightning := uncaught (loadLightning false None false) in
  await cb := call (ListInvoices lightning limit offset true) in
  match cb with
  | (None, Some r) =>
      match r_invoices r with
      | Some _ => resolve r
      | None => reject ENull
      end
  | (err, _) => reject (or_null err)
  end.

(** Every level of the recursion takes one reply from the node, so the
    recursion is at most one deeper than there are replies. *)
Fixpoint paginateInvoices_rec (depth : nat) (limit i : Z)
  : Async (list Invoice) :=
  match depth with
  | O => never
  | S depth' =>
      try_catch
        (await r := listInvoicesPaginated limit i in
         let invoices := default [] (r_invoices r) in
         match parseInt (r_first_index_offset r) with
         | Some lastOffset =>
             if (0 <? lastOffset)%Z then
               await more := paginateInvoices_rec depth' limit lastOffset in
               resolve (invoices ++ more)
             else resolve invoices
         | None => resolve invoices
         end)
        (fun _ => resolve [])
  end.

Definition paginateInvoices (limit i : Z) : Async (list Invoice) :=
  fun w => paginateInvoices_rec (S (List.length (inbox w))) limit i w.

Definition listAllInvoices : Async (list Invoice) :=
  paginateInvoices 40 0.

End WithEnv.

End Lightning.

(** ** src/utils/ldat.ts: the Lightning Data Access Token *)
Module Ldat.
Import JS Lightning.

(** A value of the metadata object: a number or a string. *)
Inductive MetaVal :=
| MNum (n : Z)
| MStr (s : string).

(** The metadata object as the list of its own enumerable properties, in
    enumeration order. *)
Definition Meta := list (string * MetaVal).

Record LdatTerms := {
  host : string;
  ttl : option Z;
  muid : string;
  pubkey : option string;
  meta : Meta;
  ownerPubkey : option string;
}.

(** What a decoder of [termKeys] returns; [TNumber None] is [NaN]. *)
Inductive TermValue :=
| TString (s : string)
| TNumber (n : option Z)
| TMeta (m : gmap string MetaVal).

Definition urlBase64 (buf : Buffer) : string :=
  replace_all "+" "-" (replace_all "/" "_" (Buffer_toString_base64 buf)).

Definition urlBase64FromBytes (buf : Buffer) : string :=
  replace_all "+" "-" (replace_all "/" "_" (Buffer_toString_base64 buf)).

(** String(v), as [encodeURIComponent] applies it to its argument. *)
Definition MetaVal_toString (v : MetaVal) : string :=
  match v with
  | MNum n => Number_toString 10 n
  | MStr s => s
  end.

Definition serializeMeta (obj : Meta) : string :=
  join "&"
    (sort_ascending
       (map (fun p => encodeURIComponent p.1 +:+ "="
                        +:+ encodeURIComponent (MetaVal_toString p.2))
          obj)).

(** The reviver of [deserializeMeta],
    [key === '' ? value : decodeURIComponent(value)]: every member but the
    one with the empty key is replaced by its [decodeURIComponent]; [None]
    when one of them throws. *)
Definition revive (o : gmap string string) : option (gmap string string) :=
  let others := delete "" o in
  if decide (map_Forall (fun _ v => is_Some (decodeURIComponent v)) others)
  then
    let decoded := (fun v => default "" (decodeURIComponent v)) <$> others in
    Some (match o !! "" with
          | Some v => <["" := v]> decoded
          | None => decoded
          end)
  else None.

(** [(typeof v === 'string' && parseInt(v)) || v]. *)
Definition coerce (v : string) : MetaVal :=
  match parseInt v with
  | Some n => if (n =? 0)%Z then MStr v else MNum n
  | None => MStr v
  end.

(** The text handed to [JSON.parse]. *)
Definition meta_json (str : string) : string :=
  String "{" (String dquote
    (replace_all "=" (String dquote (String ":" (String dquote "")))
       (replace_all "&" (String dquote (String "," (String dquote ""))) str)
     +:+ String dquote "}")).

(** [None] when [JSON.parse] or the reviver throws. An assignment to the
    key [__proto__] of the result [ret] leaves no property behind. *)
Definition deserializeMeta (str : string) : option (gmap string MetaVal) :=
  let json : option (gmap string string) :=
    if (2 <? String.length str)%nat
    then match JSON_parse (meta_json str) with
         | Some o => revive o
         | None => None
         end
    else Some ∅ in
  match json with
  | Some o => Some (delete "__proto__" (coerce <$> o))
  | None => None
  end.

Definition startLDAT (host muid pk : string) (exp : Z) (meta : Meta)
  : string * Buffer :=
  let hostBuf := Buffer_from_ascii host in
  let muidBuf := Buffer_from_base64 muid in
  let pkBuf := match pk with EmptyString => [] | _ => Buffer_from_base64 pk end in
  let expBuf :=
    if (exp =? 0)%Z then []
    else Buffer_from_hex (Number_toString 16 exp) in
  let metaBuf := Buffer_from_ascii (serializeMeta meta) in
  let totalLength :=
    (List.length hostBuf + List.length muidBuf + List.length pkBuf
     + List.length expBuf + List.length metaBuf)%nat in
  let buf :=
    Buffer_concat [hostBuf; muidBuf; pkBuf; expBuf; metaBuf] totalLength in
  let terms :=
    urlBase64 hostBuf +:+ "." +:+ urlBase64 muidBuf +:+ "."
      +:+ urlBase64 pkBuf +:+ "." +:+ urlBase64 expBuf +:+ "."
      +:+ urlBase64 metaBuf in
  (terms, buf).

(** [ttl ? now + 60 * 60 * 24 * 365 : 0], with [now] in seconds. *)
Definition expiry (now_seconds : Z) (ttl : option Z) : Z :=
  match ttl with
  | None => 0
  | Some t => if (t =? 0)%Z then 0 else now_seconds + 60 * 60 * 24 * 365
  end%Z.

Section WithEnv.
Variable env : Env.

Definition tokenFromTerms (t : LdatTerms) : Async string :=
  fun w =>
    let theHost :=
      match host t with
      | EmptyString => media_host (config env)
      | h => h
      end in
    match pubkey t with
    | None => (Rejected (EError "ERR_INVALID_ARG_TYPE"), w)
    | Some pk =>
        let pubkeyBytes := Buffer_from_hex pk in
        let pubkey64 := urlBase64FromBytes pubkeyBytes in
        let now_seconds := (now w / 1000)%Z in
        let exp := expiry now_seconds (ttl t) in
        let ldat := startLDAT theHost (muid t) pubkey64 exp (meta t) in
        match pk with
        | EmptyString => (Resolved ldat.1, w)
        | _ =>
            (await sig := signBuffer env ldat.2 (ownerPubkey t) in
             await sigBytes := lift (zbase32_decode env sig) in
             resolve (ldat.1 +:+ "." +:+ urlBase64FromBytes sigBytes)) w
        end
    end.

End WithEnv.

(** The decoders of [termKeys]; [None] when the decoder throws. *)
Definition termKeys : list (string * (Buffer -> option TermValue)) :=
  [ ("host", fun buf => Some (TString (Buffer_toString_ascii buf)));
    ("muid", fun buf => Some (TString (urlBase64 buf)));
    ("pubkey", fun buf => Some (TString (Buffer_toString_hex buf)));
    ("ts", fun buf =>
             Some (TNumber (parseInt ("0x" +:+ Buffer_toString_hex buf))));
    ("meta", fun buf =>
               match Buffer_toString_ascii buf with
               | EmptyString => Some (TMeta ∅)
               | ascii => TMeta <$> deserializeMeta ascii
               end);
    ("sig", fun buf => Some (TString (urlBase64 buf))) ].

(** [termKeys.forEach((t, i) => { if (a[i]) o[t.key] = t.func(...) })]:
    [a] holds the fields from index [i] on. *)
Fixpoint parse_terms (keys : list (string * (Buffer -> option TermValue)))
    (a : list string) (o : gmap string TermValue)
  : option (gmap string TermValue) :=
  match keys with
  | [] => Some o
  | (key, func) :: keys' =>
      match a with
      | (String _ _ as ai) :: a' =>
          match func (Buffer_from_base64 ai) with
          | Some v => parse_terms keys' a' (<[key := v]> o)
          | None => None
          end
      | _ :: a' => parse_terms keys' a' o
      | [] => parse_terms keys' [] o
      end
  end.

(** The object [o]; [None] when a decoder throws. *)
Definition parseLDAT (ldat : string) : option (gmap string TermValue) :=
  parse_terms termKeys (split "." ldat) ∅.

End Ldat.


(** ** Notions used in the statements, and sample data *)

Import JS Lightning Ldat.
Local Open Scope Z_scope.

(** A computation that keeps the count of random draws. *)
Definition keeps_rng {A} (m : Async A) : Prop :=
  forall w, rng (m w).2 = rng w.

(** Time going by in several steps. *)
Definition elapse_all (steps : list Z) (w : World) : World :=
  fold_left (fun w' ms => elapse ms w') steps w.

Definition total (steps : list Z) : Z := fold_right Z.add 0 steps.

(** Every character of a string passes a test. *)
Fixpoint string_forall (P : ascii -> bool) (s : string) : bool :=
  match s with
  | EmptyString => true
  | String c s' => P c && string_forall P s'
  end.

(** A string of code units below 128. *)
Definition seven_bit (s : string) : bool :=
  string_forall (fun c => (code c <? 128)%N) s.

(** A digit or a lower-case letter from [a] to [f]. *)
Definition lower_hex (c : ascii) : bool :=
  (((48 <=? code c) && (code c <=? 57))
   || ((97 <=? code c) && (code c <=? 102)))%N.

Definition is_decimal (c : ascii) : bool :=
  ((48 <=? code c) && (code c <=? 57))%N.

(** A string of pairs of lower-case hex digits: what [toString('hex')]
    produces. *)
Fixpoint hex_pairs (s : string) : bool :=
  match s with
  | EmptyString => true
  | String h (String l s') => lower_hex h && lower_hex l && hex_pairs s'
  | String _ EmptyString => false
  end.

(** A string that [encodeURIComponent] leaves as it is. *)
Definition unreserved (s : string) : bool := string_forall uri_unreserved s.

(** A character that [encodeURIComponent] can produce: plain inside a JSON
    string, below 128, and neither [&] nor [=]. *)
Definition meta_safe (c : ascii) : bool :=
  json_plain c && (code c <? 128)%N
  && negb (Ascii.eqb c "&") && negb (Ascii.eqb c "=").

(** A string that [deserializeMeta] leaves a string: [parseInt] makes
    [NaN] or zero of it. *)
Definition stays_string (s : string) : bool :=
  match parseInt s with
  | Some n => n =? 0
  | None => true
  end.

(** A metadata value that [deserializeMeta] gives back: a non-zero integer
    that JavaScript holds exactly, or a non-empty string that stays a
    string. *)
Definition canonical_value (v : MetaVal) : bool :=
  match v with
  | MNum n => negb (n =? 0) && (Z.abs n <? 2 ^ 53)
  | MStr s => negb (String.eqb s "") && stays_string s
  end.

(** A metadata entry whose key is not empty, needs no escaping and is not
    [__proto__], and whose value is canonical. *)
Definition canonical_entry (kv : string * MetaVal) : bool :=
  negb (String.eqb kv.1 "") && unreserved kv.1
  && negb (String.eqb kv.1 "__proto__") && canonical_value kv.2.

Definition canonical_meta (m : Meta) : Prop :=
  m <> [] /\ NoDup (map fst m) /\ forallb canonical_entry m = true.

(** The two replacements of [meta_json]. *)
Definition quoted (str : string) : string :=
  replace_all "=" (String dquote (String ":" (String dquote "")))
    (replace_all "&" (String dquote (String "," (String dquote ""))) str).

(** The text of one entry, as [serializeMeta] writes it. *)
Definition entry_text (kv : string * string) : string :=
  kv.1 +:+ "=" +:+ kv.2.

Definition safe_entry (kv : string * string) : Prop :=
  string_forall meta_safe kv.1 = true /\ string_forall meta_safe kv.2 = true.

(** What [serializeMeta] makes of an entry, in two parts. *)
Definition encoded_entry (p : string * MetaVal) : string * string :=
  (encodeURIComponent p.1, encodeURIComponent (MetaVal_toString p.2)).

(** Term sets that the token codec carries unchanged: a non-empty host of
    seven-bit characters, a media id that is the padded URL-safe base64 of
    some octets [mb], a requester key [pk] in pairs of lower-case hex
    digits, and canonical metadata. *)
Definition canonical_terms (t : LdatTerms) (pk : string) (mb : Buffer)
  : Prop :=
  host t <> "" /\ seven_bit (host t) = true
  /\ mb <> [] /\ muid t = urlBase64 mb
  /\ pubkey t = Some pk /\ hex_pairs pk = true
  /\ canonical_meta (meta t).

(** An expiry that [startLDAT] encodes in full: zero, or positive with an
    even number of hex digits. *)
Definition expiry_encodable (exp : Z) : Prop :=
  exp = 0
  \/ (0 < exp /\ Nat.even (String.length (Number_toString 16 exp)) = true).

(** The signer signs whatever it is given, and the signature decodes. *)
Definition signer_answers (env : Env) (owner : option string) (w : World)
  : Prop :=
  forall bytes, exists sig sigBytes w1,
    signBuffer env bytes owner w = (Resolved sig, w1)
    /\ zbase32_decode env sig = inr sigBytes.

(** The term set [t] with another [ttl]. *)
Definition set_ttl (v : option Z) (t : LdatTerms) : LdatTerms :=
  {| host := host t; ttl := v; muid := muid t; pubkey := pubkey t;
     meta := meta t; ownerPubkey := ownerPubkey t |}.

(** The reply of the node that carries a page of invoices. *)
Definition page_reply (first_index_offset : string) (items : list Invoice)
  : Reply :=
  Callback None (Some (RInvoices first_index_offset (Some items))).

(** The offset of a page asks for another page. *)
Definition offset_positive (first_index_offset : string) : bool :=
  match parseInt first_index_offset with
  | Some o => 0 <? o
  | None => false
  end.

(** A reply that makes [listInvoicesPaginated] reject: an error, no
    response, or a response without invoices. *)
Definition failed_reply (r : Reply) : Prop :=
  match r with
  | Callback (Some _) _ => True
  | Callback None None => True
  | Callback None (Some resp) => r_invoices resp = None
  | Stream _ => False
  end.

(** The requests of a walk that starts at offset [i] and receives the
    pages [pages]: each one asks for 40 invoices from the offset that the
    page before returned. *)
Fixpoint page_requests (c : Client) (i : Z)
    (pages : list (string * list Invoice)) : list Request :=
  match pages with
  | [] => []
  | (offset, _) :: rest =>
      ListInvoices c 40 i true
        :: page_requests c (default 0 (parseInt offset)) rest
  end.

(** The outcomes of the keysends that the loop of [keysendMessage] makes
    for the chunk indices [todo], in order: after a success the loop sleeps
    432 ms, after a failure it goes on at once, and a keysend that never
    settles is the last one made. *)
Fixpoint chunk_outcomes (env : Env) (opts : KeysendOpts)
    (ownerPubkey : option string) (ts : Z) (n : nat) (todo : list nat)
    (w : World) : list (Outcome Response) :=
  match todo with
  | [] => []
  | i :: rest =>
      match keysend env (weave_chunk env opts ts n i) ownerPubkey w with
      | (Resolved r, w1) =>
          Resolved r
            :: chunk_outcomes env opts ownerPubkey ts n rest (elapse 432 w1)
      | (Rejected e, w1) =>
          Rejected e :: chunk_outcomes env opts ownerPubkey ts n rest w1
      | (Pending, w1) => [Pending]
      end
  end.

Definition succeeded {A} (o : Outcome A) : bool :=
  match o with Resolved _ => true | _ => false end.
Definition failed {A} (o : Outcome A) : bool :=
  match o with Rejected _ => true | _ => false end.
Definition settled {A} (o : Outcome A) : bool :=
  match o with Pending => false | _ => true end.

(** The response of the last keysend that succeeded. *)
Definition last_response (outs : list (Outcome Response))
    (before : option Response) : option Response :=
  fold_left (fun acc o => match o with Resolved r => Some r | _ => acc end)
    outs before.


Module Sample.

Definition sample_config : Config :=
  {| lnd_ip := ""; lnd_port := "10009"; lightning_provider := "LND";
     tls_location := "tls.cert"; tls_key_location := "tls.key";
     tls_chain_location := "tls.chain";
     media_host := "memes.sphinx.chat" |}.

Definition greenlight_config : Config :=
  {| lnd_ip := ""; lnd_port := "10009"; lightning_provider := "GREENLIGHT";
     tls_location := "tls.cert"; tls_key_location := "tls.key";
     tls_chain_location := "tls.chain";
     media_host := "memes.sphinx.chat" |}.

(** Collaborators that always answer; the cryptographic ones are
    stand-ins without cryptographic content. *)
Definition sample_env_with (cfg : Config) (proxy : bool) : Env :=
  {| config := cfg;
     constants := {| min_sat_amount := 3; final_cltv_delta := 141 |};
     isProxy := proxy;
     loadProxyLightning := fun owner => Some (ProxyClient owner "macaroon");
     readFileSync := fun _ => inr [];
     getMacaroon := fun _ => inr "macaroon";
     get_greenlight_grpc_uri := "https://greenlight.example:2601";
     greenlightSignMessagePayload := fun b => b;
     libhsmd_Handle := fun _ _ => inl ENull;
     keysendResponse := fun r => r;
     randomBytes := fun k => repeat (chr (N.of_nat k)) 32;
     sha256 := fun b => b;
     zbase32_encode := fun b => Buffer_toString_hex b;
     zbase32_decode := fun s => inr (Buffer_from_hex s);
     secp256k1_recover := fun _ sig _ _ => inr (firstn 33 sig) |}.

Definition sample_env : Env := sample_env_with sample_config false.
Definition proxy_env : Env := sample_env_with sample_config true.
Definition greenlight_env : Env := sample_env_with greenlight_config false.

(** The state of a process that has just started, at some time, facing
    nodes that are going to give the replies [replies]. *)
Definition start (time : Z) (replies : list Reply) : World :=
  {| lightningClient := None; routerClient := None; isLocked := false;
     lockTimeout := None; timers := ∅; next_timer := 0; now := time;
     rng := 0; outbox := []; inbox := replies |}.

Definition sample_pubkey : string :=
  "0373ca36a331d8fd847f190908715a34997b15dc3c5d560ca032cf3412fcf494e4".

Definition sample_opts (payload : option string) : KeysendOpts :=
  {| amt := 10; dest := sample_pubkey; data := payload;
     route_hint := None; extra_tlv := ∅ |}.

(** A payload of [k] characters. *)
Definition sample_payload (k : nat) : string :=
  string_of_list_ascii (repeat "x"%char k).

Definition payment (st : string) : Response :=
  RPayment {| payment_error := ""; status := st; state := "";
              failure_reason := ""; payment_preimage := [] |}.

(** The stream of a payment that goes through, and of one that finds no
    route. *)
Definition stream_succeeded : Reply :=
  Stream [OnData (payment "IN_FLIGHT"); OnData (payment "SUCCEEDED")].
Definition stream_no_route : Reply :=
  Stream [OnData (payment "IN_FLIGHT"); OnData (payment "FAILED_NO_ROUTE")].

(** The first term set of [testLDAT]. *)
Definition testLDAT_terms : LdatTerms :=
  {| host := "";
     ttl := Some 31536000;
     muid := "qFSOa50yWeGSG8oelsMvctLYdejPRD090dsypBSx_xg=";
     pubkey := Some sample_pubkey;
     meta := [("amt", MNum 100); ("ttl", MNum 31536000);
              ("dim", MStr "1500x1300")];
     ownerPubkey := Some sample_pubkey |}.

(** The same with a host, and without the [dim] entry. *)
Definition sample_terms : LdatTerms :=
  {| host := "memes.sphinx.chat";
     ttl := Some 31536000;
     muid := "qFSOa50yWeGSG8oelsMvctLYdejPRD090dsypBSx_xg=";
     pubkey := Some sample_pubkey;
     meta := [("amt", MNum 100); ("ttl", MNum 31536000)];
     ownerPubkey := Some sample_pubkey |}.

(** [count] invoices, numbered from [from]. *)
Definition sample_invoices (from count : nat) : list Invoice :=
  map (fun k => {| add_index := Z.of_nat k; payment_request := "lnbc" |})
    (seq from count).

(** The reply of a node that signs. *)
Definition signature_reply : Reply :=
  Callback None (Some (RSignature "20aabbcc")).

End Sample.


(** ** src/grpc/lightning.ts: the other calls to the node *)
Module Calls.
Import JS Lightning.

(** *** What is exchanged with the node *)

(** A channel as [interfaces.listChannelsResponse] returns it; of its
    fields the code reads these two. *)
Record Channel := {
  local_balance : string;
  local_chan_reserve_sat : string;
}.

(** The reply objects of the calls below. A reply that the code passes on
    without looking into it is kept as a text; a field that a reply does
    not carry reads as [undefined]. *)
Inductive Answer :=
| ARaw (payload : string)
| ARoutes (success_prob : Z) (routes : list string)
| AAddress (address : string)
| APayment (r : Response)
| APayments (first_index_offset : string) (payments : option (list Payment))
| AChannels (channels : list Channel)
| ABalance (balance pending_open_balance : string)
| APending (total_limbo_balance : string)
    (pending_open_channels pending_closing_channels
     pending_force_closing_channels waiting_close_channels : list string).

Definition a_address (a : Answer) : string :=
  match a with AAddress s => s | _ => "" end.
Definition a_payment_error (a : Answer) : string :=
  match a with APayment r => r_payment_error r | _ => "" end.
Definition a_payments (a : Answer) : option (list Payment) :=
  match a with APayments _ l => l | _ => None end.
Definition a_first_index_offset (a : Answer) : string :=
  match a with APayments o _ => o | _ => "" end.
Definition a_balance (a : Answer) : string :=
  match a with ABalance b _ => b | _ => "" end.
Definition a_pending_open_balance (a : Answer) : string :=
  match a with ABalance _ p => p | _ => "" end.

(** What [loadWalletUnlocker] hands out. *)
Inductive Unlocker :=
| WalletUnlockerClient (target : string) (credentials : Credentials).

Record OpenChannelArgs := {
  node_pubkey : string;
  local_funding_amount : Z;
  push_sat : Z;
  sat_per_byte : Z;
}.

(** The calls, with the options they are made with. An option that the
    code leaves out is absent. *)
Inductive Call :=
| QueryRoutes (c : Client) (pub_key : string) (amt : Z)
    (final_cltv_delta : Z) (route_hints : option (list (list HopHint)))
| NewAddress (c : Client) (type : Z)
| PaySync (c : Client) (payment_request : string) (fee_limit_fixed : Z)
| GreenlightPay (c : Client) (bolt11 : string) (timeout : Z)
| SendPaymentWrite (c : Client) (payment_request : string)
| ListInvoicesAll (c : Client) (num_max_invoices : Z) (reversed : bool)
| ListPayments (c : Client) (max_payments index_offset : option Z)
    (reversed : option bool)
| GetInfo (c : Client)
| AddInvoice (c : Client) (cmd : string) (req : string)
| ListPeers (c : Client) (opts : string)
| ListChannels (c : Client) (opts : string)
| PendingChannels (c : Client)
| ConnectPeer (c : Client) (args : string)
| OpenChannelSync (c : Client) (opts : option OpenChannelArgs)
| ChannelBalance (c : Client)
| GetChanInfo (c : Client) (chan_id : Z)
| UnlockWallet (wu : Unlocker) (wallet_password : Buffer).

(** What the node answers to a call: the arguments of the callback, or
    the events of the stream of [sendPayment]. *)
Inductive Answered :=
| Unary (err : option Err) (response : option Answer)
| Events (events : list StreamEvent).

(** The conversions of ./interfaces, which are outside this file. *)
Record Interfaces := {
  keysendResponse : Answer -> Answer;
  listChannelsRequest : string -> string;
  listChannelsResponse : Answer -> list Channel;
  listPeersRequest : option string -> string;
  listPeersResponse : Answer -> Answer;
  getInfoResponse : option Answer -> Answer;
  addInvoiceCommand : string;
  addInvoiceRequest : string -> string;
  addInvoiceResponse : option Answer -> Answer;
  connectPeerRequest : string -> string;
}.

Definition WITNESS_PUBKEY_HASH : Z := 0.
Definition NESTED_PUBKEY_HASH : Z := 1.
Definition UNUSED_WITNESS_PUBKEY_HASH : Z := 2.
Definition UNUSED_NESTED_PUBKEY_HASH : Z := 3.

(** *** State and promises *)

(** The state of the module (with its variable [walletUnlocker]), the
    calls made so far and the answers the node is going to give, in
    order. *)
Record Node := {
  world : World;
  walletUnlocker : option Unlocker;
  calls : list Call;
  answers : list Answered;
}.

Definition set_world (w : World) (n : Node) : Node :=
  {| world := w; walletUnlocker := walletUnlocker n; calls := calls n;
     answers := answers n |}.

Definition set_walletUnlocker (wu : option Unlocker) (n : Node) : Node :=
  {| world := world n; walletUnlocker := wu; calls := calls n;
     answers := answers n |}.

(** The call [req] has gone out and the answers [rest] are left. *)
Definition called (req : Call) (rest : list Answered) (n : Node) : Node :=
  {| world := world n; walletUnlocker := walletUnlocker n;
     calls := calls n ++ [req]; answers := rest |}.

Definition Task (A : Type) : Type := Node -> Outcome A * Node.

Definition resolved {A} (a : A) : Task A := fun n => (Resolved a, n).
Definition rejected {A} (e : Err) : Task A := fun n => (Rejected e, n).
Definition unsettled {A} : Task A := fun n => (Pending, n).

(** [await m] followed by [k]. *)
Definition and_then {A B} (m : Task A) (k : A -> Task B) : Task B :=
  fun n =>
    match m n with
    | (Resolved a, n') => k a n'
    | (Rejected e, n') => (Rejected e, n')
    | (Pending, n') => (Pending, n')
    end.

(** [try { m } catch (e) { h(e) }]. *)
Definition catching {A} (m : Task A) (h : Err -> Task A) : Task A :=
  fun n =>
    match m n with
    | (Rejected e, n') => h e n'
    | r => r
    end.

(** [await m] in the body of [new Promise(async (resolve, reject) => ...)]
    outside of any [try]: an exception of [m] leaves the promise under
    construction unsettled. *)
Definition escaping {A} (m : Task A) : Task A :=
  catching m (fun _ => unsettled).

Notation "'wait' x ':=' m 'in' k" := (and_then m (fun x => k))
  (at level 10, x name, m at level 100, k at level 200).

(** A computation of the functions above, on the module state. *)
Definition on_world {A} (m : Async A) : Task A :=
  fun n => ((m (world n)).1, set_world (m (world n)).2 n).

(** A unary call: the call goes out and the next answer comes in; when no
    answer is left, or the answer is not a callback, the callback is never
    run. *)
Definition rpc (req : Call) : Task (option Err * option Answer) :=
  fun n =>
    match answers n with
    | Unary err response :: rest =>
        (Resolved (err, response), called req rest n)
    | _ :: rest => (Pending, called req rest n)
    | [] => (Pending, called req [] n)
    end.

(** The stream of [sendPayment]: the events it is going to emit. *)
Definition rpc_stream (req : Call) : Task (list StreamEvent) :=
  fun n =>
    match answers n with
    | Events events :: rest => (Resolved events, called req rest n)
    | _ :: rest => (Pending, called req rest n)
    | [] => (Pending, called req [] n)
    end.

(** JavaScript numbers that may be [NaN] ([None]). *)
Definition nan_add (a b : option Z) : option Z :=
  match a, b with Some x, Some y => Some (x + y) | _, _ => None end.
Definition nan_sub (a b : option Z) : option Z :=
  match a, b with Some x, Some y => Some (x - y) | _, _ => None end.
(** [Math.max(0, a)]. *)
Definition nan_max0 (a : option Z) : option Z :=
  match a with Some x => Some (Z.max 0 x) | None => None end.

Section WithEnv.
Variable env : Env.
Variable interfaces : Interfaces.

(** The callback [(err, response) => err == null && response ?
    resolve(response) : reject(err)]. *)
Definition passed_on (cb : option Err * option Answer) : Task Answer :=
  match cb with
  | (None, Some response) => resolved response
  | (err, _) => rejected (or_null err)
  end.

(** *** The wallet unlocker *)

(** The function returns its client or throws. *)
Definition loadWalletUnlocker : Task Unlocker :=
  fun n =>
    match walletUnlocker n with
    | Some wu => (Resolved wu, n)
    | None =>
        match loadCredentials env None with
        | inl e => (Rejected e, n)
        | inr credentials =>
            let wu :=
              WalletUnlockerClient
                (LND_IP env +:+ ":" +:+ lnd_port (config env)) credentials in
            (Resolved wu, set_walletUnlocker (Some wu) n)
        end
    end.

(** The executor is not [async]: what it throws rejects the promise. *)
Definition unlockWallet (pwd : string) : Task unit :=
  wait wu := loadWalletUnlocker in
  wait cb := rpc (UnlockWallet wu (Buffer_from_utf8 pwd)) in
  match cb with
  | (Some err, _) => rejected err
  | (None, _) => resolved tt
  end.

(** *** Routes and addresses *)

Definition route_hints_of (route_hint : option string)
  : option (list (list HopHint)) :=
  match route_hint with
  | Some (String _ _ as hint) =>
      if includes ":" hint then
        let arr := split ":" hint in
        Some [[ {| node_id := nth 0 arr ""; chan_id := nth 1 arr "" |} ]]
      else None
  | _ => None
  end.

Definition queryRoute (pub_key : string) (amt : Z)
    (route_hint ownerPubkey : option string) : Task (option Answer) :=
  wait lightning := on_world (loadLightning env true ownerPubkey false) in
  if isGL env lightning then resolved (Some (ARoutes 1 []))
  else
    let final_cltv_delta := final_cltv_delta (constants env) + 3 in
    wait cb := rpc (QueryRoutes lightning pub_key amt final_cltv_delta
                      (route_hints_of route_hint)) in
    match cb with
    | (Some err, _) => rejected err
    | (None, response) => resolved response
    end.

(** [type] defaults to [NESTED_PUBKEY_HASH]. *)
Definition newAddress (type : option Z) : Task string :=
  wait lightning := on_world (loadLightning env false None false) in
  wait cb := rpc (NewAddress lightning (default NESTED_PUBKEY_HASH type)) in
  match cb with
  | (Some err, _) => rejected err
  | (None, Some response) =>
      match a_address response with
      | EmptyString => rejected (EString "no address")
      | address => resolved address
      end
  | (None, None) => rejected (EString "no address")
  end.

(** *** Paying an invoice *)

(** The handlers of the stream of [sendPayment]: the first event settles
    the promise. *)
Definition sendPayment_events (events : list StreamEvent) : Outcome Answer :=
  match events with
  | [] => Pending
  | OnError err :: _ => Rejected err
  | OnData response :: _ =>
      if negb (String.eqb (r_payment_error response) "")
      then Rejected (EString (r_payment_error response))
      else Resolved (APayment response)
  end.

Definition sendPayment (payment_request : string)
    (ownerPubkey : option string) : Task Answer :=
  wait lightning := on_world (loadLightning env true ownerPubkey false) in
  if isProxy env then
    wait cb := rpc (PaySync lightning payment_request FEE_LIMIT_SAT) in
    match cb with
    | (None, Some response) =>
        if negb (String.eqb (a_payment_error response) "")
        then rejected (EString (a_payment_error response))
        else resolved response
    | (err, _) => rejected (or_null err)
    end
  else if isGL env lightning then
    wait cb := rpc (GreenlightPay lightning payment_request 12) in
    match cb with
    | (None, Some response) => resolved (keysendResponse interfaces response)
    | (err, _) => rejected (or_null err)
    end
  else
    wait events := rpc_stream (SendPaymentWrite lightning payment_request) in
    (fun n => (sendPayment_events events, n)).

(** *** Invoices and payments *)

Definition listInvoices : Task (option Answer) :=
  wait lightning :=
    escaping (on_world (loadLightning env false None false)) in
  wait cb := rpc (ListInvoicesAll lightning 100000 true) in
  match cb with
  | (None, response) => resolved response
  | (Some err, _) => rejected err
  end.

Definition listPaymentsPaginated (limit offset : Z) : Task Answer :=
  wait lightning :=
    escaping (on_world (loadLightning env false None false)) in
  wait cb := rpc (ListPayments lightning (Some limit) (Some offset)
                    (Some true)) in
  match cb with
  | (None, Some r) =>
      match a_payments r with
      | Some _ => resolved r
      | None => rejected ENull
      end
  | (err, _) => rejected (or_null err)
  end.

(** Every level of the recursion takes one answer from the node, so the
    recursion is at most one deeper than there are answers. *)
Fixpoint paginatePayments_rec (depth : nat) (limit i : Z)
  : Task (list Payment) :=
  match depth with
  | O => unsettled
  | S depth' =>
      catching
        (wait r := listPaymentsPaginated limit i in
         let payments := default [] (a_payments r) in
         match parseInt (a_first_index_offset r) with
         | Some lastOffset =>
             if 0 <? lastOffset then
               wait more := paginatePayments_rec depth' limit lastOffset in
               resolved (payments ++ more)
             else resolved payments
         | None => resolved payments
         end)
        (fun _ => resolved [])
  end.

Definition paginatePayments (limit i : Z) : Task (list Payment) :=
  fun n => paginatePayments_rec (S (List.length (answers n))) limit i n.

Definition listAllPayments : Task (list Payment) :=
  wait pays := paginatePayments 40 0 in
  resolved pays.

Definition listAllPaymentsFull : Task (list Payment) :=
  wait lightning :=
    escaping (on_world (loadLightning env false None false)) in
  wait cb := rpc (ListPayments lightning None None None) in
  match cb with
  | (None, Some r) =>
      match a_payments r with
      | Some payments => resolved payments
      | None => rejected ENull
      end
  | (err, _) => rejected (or_null err)
  end.

(** *** Node information, invoices, peers *)

(** [tryProxy === false ? false : true]. *)
Definition unless_false (tryProxy : option bool) : bool :=
  match tryProxy with
  | Some false => false
  | _ => true
  end.

Definition getInfo (tryProxy : option bool) (noCache : bool) : Task Answer :=
  catching
    (wait lightning :=
       on_world (loadLightning env (unless_false tryProxy) None noCache) in
     wait cb := rpc (GetInfo lightning) in
     match cb with
     | (None, response) => resolved (getInfoResponse interfaces response)
     | (Some err, _) => rejected err
     end)
    (fun e => rejected e).

Definition addInvoice (request : string) (ownerPubkey : option string)
  : Task Answer :=
  wait lightning :=
    escaping (on_world (loadLightning env true ownerPubkey false)) in
  let cmd := addInvoiceCommand interfaces in
  let req := addInvoiceRequest interfaces request in
  wait cb := rpc (AddInvoice lightning cmd req) in
  match cb with
  | (None, response) => resolved (addInvoiceResponse interfaces response)
  | (Some err, _) => rejected err
  end.

Definition listPeers (args ownerPubkey : option string) : Task Answer :=
  wait lightning :=
    escaping (on_world (loadLightning env true ownerPubkey false)) in
  let opts := listPeersRequest interfaces args in
  wait cb := rpc (ListPeers lightning opts) in
  match cb with
  | (None, Some response) => resolved (listPeersResponse interfaces response)
  | (err, _) => rejected (or_null err)
  end.

(** *** Channels and balances *)

Definition listChannels (args : string) (ownerPubkey : option string)
  : Task (list Channel) :=
  wait lightning :=
    escaping (on_world (loadLightning env true ownerPubkey false)) in
  let opts := listChannelsRequest interfaces args in
  if isGL env lightning then
    wait cb := rpc (ListPeers lightning opts) in
    match cb with
    | (None, Some response) =>
        resolved (listChannelsResponse interfaces response)
    | (err, _) => rejected (or_null err)
    end
  else if isLND env lightning then
    wait cb := rpc (ListChannels lightning opts) in
    match cb with
    | (None, Some response) =>
        resolved (listChannelsResponse interfaces response)
    | (err, _) => rejected (or_null err)
    end
  else unsettled.

Definition pendingChannels (ownerPubkey : option string) : Task Answer :=
  wait lightning := on_world (loadLightning env true ownerPubkey false) in
  if isGL env lightning then resolved (APending "0" [] [] [] [])
  else
    wait cb := rpc (PendingChannels lightning) in
    passed_on cb.

(** For LND the promise is fulfilled with nothing. *)
Definition connectPeer (args : string) : Task (option Answer) :=
  wait lightning :=
    escaping (on_world (loadLightning env false None false)) in
  if isGL env lightning then
    let req := connectPeerRequest interfaces args in
    wait cb := rpc (ConnectPeer lightning req) in
    match cb with
    | (None, Some response) => resolved (Some response)
    | (err, _) => rejected (or_null err)
    end
  else if isLND env lightning then
    wait cb := rpc (ConnectPeer lightning args) in
    match cb with
    | (None, Some _) => resolved None
    | (err, _) => rejected (or_null err)
    end
  else unsettled.

(** [None]: the function returns nothing. *)
Definition openChannel (args : option OpenChannelArgs)
  : Task (option Answer) :=
  wait lightning := on_world (loadLightning env false None false) in
  if isGL env lightning then resolved None
  else
    wait cb := rpc (OpenChannelSync lightning args) in
    match cb with
    | (None, Some response) => resolved (Some response)
    | (err, _) => rejected (or_null err)
    end.

Definition channelBalance (ownerPubkey : option string)
  : Task (option Answer) :=
  wait lightning := on_world (loadLightning env true ownerPubkey false) in
  if isGL env lightning then resolved None
  else
    wait cb := rpc (ChannelBalance lightning) in
    match cb with
    | (None, Some response) => resolved (Some response)
    | (err, _) => rejected (or_null err)
    end.

Record ComplexBalances := {
  pending_open_balance : option Z;
  balance : option Z;
  reserve : option Z;
  full_balance : option Z;
}.

(** [channels.reduce((a, chan) => a + f(chan), 0)]. *)
Definition reduce_sum (f : Channel -> option Z) (channels : list Channel)
  : option Z :=
  fold_left (fun a chan => nan_add a (f chan)) channels (Some 0).

Definition complexBalances (ownerPubkey : option string)
  : Task ComplexBalances :=
  wait channels := listChannels "{}" ownerPubkey in
  if IS_GREENLIGHT env then
    let local_balance :=
      reduce_sum (fun chan => parseInt (local_balance chan)) channels in
    resolved {| reserve := Some 0;
                full_balance := nan_max0 local_balance;
                balance := nan_max0 local_balance;
                pending_open_balance := Some 0 |}
  else
    let reserve :=
      reduce_sum (fun chan => parseInt (local_chan_reserve_sat chan))
        channels in
    let spendableBalance :=
      reduce_sum
        (fun chan =>
           nan_max0 (nan_sub (parseInt (local_balance chan))
                       (parseInt (local_chan_reserve_sat chan))))
        channels in
    wait response := channelBalance ownerPubkey in
    resolved
      {| reserve := reserve;
         full_balance :=
           match response with
           | Some r => nan_max0 (parseInt (a_balance r))
           | None => Some 0
           end;
         balance := spendableBalance;
         pending_open_balance :=
           match response with
           | Some r => parseInt (a_pending_open_balance r)
           | None => Some 0
           end |}.

(** [chan_id] is a number; zero is falsy. *)
Definition getChanInfo (chan_id : Z) (tryProxy : option bool)
  : Task (option Answer) :=
  wait lightning :=
    on_world (loadLightning env (unless_false tryProxy) None false) in
  if isGL env lightning then resolved None
  else if chan_id =? 0 then rejected (EString "no chan id")
  else
    wait cb := rpc (GetChanInfo lightning chan_id) in
    match cb with
    | (None, Some response) => resolved (Some response)
    | (err, _) => rejected (or_null err)
    end.

End WithEnv.

End Calls.


(** ** Notions used in the further properties *)

(** The requests that a computation started in [w] adds to the outbox. *)
Definition sent_by {A} (m : Async A) (w : World) : list Request :=
  drop (List.length (outbox w)) (outbox (m w).2).

(** The options that a payment request carries. *)
Definition request_options (r : Request) : option KeysendRequest :=
  match r with
  | SendPaymentSync _ o | GreenlightKeysend _ o | SendPaymentV2 _ o => Some o
  | _ => None
  end.

(** [constants.min_sat_amount || 3]. *)
Definition amount_floor (env : Env) : Z :=
  if min_sat_amount (constants env) =? 0 then 3
  else min_sat_amount (constants env).

(** An event of the payment stream that leaves the promise of [keysend]
    as it is: an update without [payment_error] whose status is none of
    [FAILED_NO_ROUTE], [FAILED] and [SUCCEEDED]. *)
Definition in_flight (e : StreamEvent) : bool :=
  match e with
  | OnError _ => false
  | OnData p =>
      let st := if String.eqb (r_status p) "" then r_state p else r_status p in
      String.eqb (r_payment_error p) ""
      && negb (String.eqb st "FAILED_NO_ROUTE")
      && negb (String.eqb st "FAILED")
      && negb (String.eqb st "SUCCEEDED")
  end.

(** A process of the sample configuration that has already loaded its
    clients. *)
Definition lnd_client : Client :=
  LndClient "localhost:10009"
    (CombinedCredentials (SslCredentials [] None None) "macaroon").
Definition router_client : Client :=
  RouterClient "localhost:10009"
    (CombinedCredentials (SslCredentials [] None None) "macaroon").
Definition connected (time : Z) (replies : list Reply) : World :=
  set_routerClient (Some router_client)
    (set_lightningClient (Some lnd_client) (Sample.start time replies)).

(** A proxy that knows no owner. *)
Definition empty_proxy_env : Env :=
  {| config := config Sample.proxy_env;
     constants := constants Sample.proxy_env;
     isProxy := true;
     loadProxyLightning := fun _ => None;
     readFileSync := readFileSync Sample.proxy_env;
     getMacaroon := getMacaroon Sample.proxy_env;
     get_greenlight_grpc_uri := get_greenlight_grpc_uri Sample.proxy_env;
     greenlightSignMessagePayload :=
       greenlightSignMessagePayload Sample.proxy_env;
     libhsmd_Handle := libhsmd_Handle Sample.proxy_env;
     keysendResponse := keysendResponse Sample.proxy_env;
     randomBytes := randomBytes Sample.proxy_env;
     sha256 := sha256 Sample.proxy_env;
     zbase32_encode := zbase32_encode Sample.proxy_env;
     zbase32_decode := zbase32_decode Sample.proxy_env;
     secp256k1_recover := secp256k1_recover Sample.proxy_env |}.

(** A node whose macaroon cannot be read. *)
Definition no_macaroon_env : Env :=
  {| config := config Sample.sample_env;
     constants := constants Sample.sample_env;
     isProxy := false;
     loadProxyLightning := loadProxyLightning Sample.sample_env;
     readFileSync := readFileSync Sample.sample_env;
     getMacaroon := fun _ => inl (EError "ENOENT");
     get_greenlight_grpc_uri := get_greenlight_grpc_uri Sample.sample_env;
     greenlightSignMessagePayload :=
       greenlightSignMessagePayload Sample.sample_env;
     libhsmd_Handle := libhsmd_Handle Sample.sample_env;
     keysendResponse := keysendResponse Sample.sample_env;
     randomBytes := randomBytes Sample.sample_env;
     sha256 := sha256 Sample.sample_env;
     zbase32_encode := zbase32_encode Sample.sample_env;
     zbase32_decode := zbase32_decode Sample.sample_env;
     secp256k1_recover := secp256k1_recover Sample.sample_env |}.

(** A configuration whose provider is neither LND nor GREENLIGHT. *)
Definition cln_env : Env :=
  Sample.sample_env_with
    {| lnd_ip := ""; lnd_port := "10009"; lightning_provider := "CLN";
       tls_location := "tls.cert"; tls_key_location := "tls.key";
       tls_chain_location := "tls.chain";
       media_host := "memes.sphinx.chat" |} false.

(** A greenlight signer that returns two octets of header, 64 octets of
    signature and the recovery id 1, in hex. *)
Definition signing_greenlight_env : Env :=
  {| config := config Sample.greenlight_env;
     constants := constants Sample.greenlight_env;
     isProxy := false;
     loadProxyLightning := loadProxyLightning Sample.greenlight_env;
     readFileSync := readFileSync Sample.greenlight_env;
     getMacaroon := getMacaroon Sample.greenlight_env;
     get_greenlight_grpc_uri := get_greenlight_grpc_uri Sample.greenlight_env;
     greenlightSignMessagePayload := fun b => b;
     libhsmd_Handle := fun _ _ =>
       inr (Buffer_toString_hex
              ([chr 0; chr 0] ++ repeat (chr 170) 64 ++ [chr 1]));
     keysendResponse := keysendResponse Sample.greenlight_env;
     randomBytes := randomBytes Sample.greenlight_env;
     sha256 := sha256 Sample.greenlight_env;
     zbase32_encode := zbase32_encode Sample.greenlight_env;
     zbase32_decode := zbase32_decode Sample.greenlight_env;
     secp256k1_recover := secp256k1_recover Sample.greenlight_env |}.

(** What happens to the wallet lock: a call of [setLock], or time going
    by. *)
Inductive LockEvent :=
| SetLock (value : bool)
| TimePasses (ms : Z).

Definition lock_step (w : World) (e : LockEvent) : World :=
  match e with
  | SetLock value => setLock value w
  | TimePasses ms => elapse ms w
  end.

Definition lock_run (events : list LockEvent) (w : World) : World :=
  fold_left lock_step events w.

Definition forward (e : LockEvent) : bool :=
  match e with
  | SetLock _ => true
  | TimePasses ms => 0 <=? ms
  end.

(** The pending timeouts are none, or the one that [lockTimeout] names,
    due within two minutes from now; and a locked wallet has its timeout
    pending. *)
Definition lock_invariant (w : World) : Prop :=
  (timers w = ∅
   \/ exists h due,
        lockTimeout w = Some h /\ timers w = {[ h := due ]}
        /\ now w < due <= now w + 1000 * 60 * 2)
  /\ (isLocked w = true -> timers w <> ∅).

(** A character that needs no escaping in a URL and is not a dot: a
    letter, a digit, [-], [_] or the padding [=]. *)
Definition url_safe (c : ascii) : bool :=
  (((65 <=? code c) && (code c <=? 90))
   || ((97 <=? code c) && (code c <=? 122))
   || ((48 <=? code c) && (code c <=? 57))
   || (code c =? 45) || (code c =? 95) || (code c =? 61))%N.

(** What [deserializeMeta] makes of an entry that [serializeMeta] wrote:
    the key stays percent-encoded, the value is decoded and then read by
    [parseInt]. *)
Definition returned_entry (p : string * MetaVal) : string * MetaVal :=
  (encodeURIComponent p.1, coerce (MetaVal_toString p.2)).

(** A value whose reading as a number, if it has one, is an integer that
    JavaScript holds exactly. *)
Definition exact_value (v : MetaVal) : bool :=
  match v with
  | MNum n => Z.abs n <? 2 ^ 53
  | MStr s =>
      match parseInt s with
      | Some n => Z.abs n <? 2 ^ 53
      | None => true
      end
  end.

(** *** For the other calls *)

(** The answer of the node that carries a page of payments. *)
Definition payments_page (first_index_offset : string)
    (items : list Payment) : Calls.Answered :=
  Calls.Unary None (Some (Calls.APayments first_index_offset (Some items))).

(** An answer that makes [listPaymentsPaginated] reject: an error, no
    response, or a response without payments. *)
Definition failed_answer (r : Calls.Answered) : Prop :=
  match r with
  | Calls.Unary (Some _) _ => True
  | Calls.Unary None None => True
  | Calls.Unary None (Some resp) => Calls.a_payments resp = None
  | Calls.Events _ => False
  end.

(** The calls of a walk that starts at offset [i] and receives the pages
    [pages]. *)
Fixpoint payment_requests (c : Client) (i : Z)
    (pages : list (string * list Payment)) : list Calls.Call :=
  match pages with
  | [] => []
  | (offset, _) :: rest =>
      Calls.ListPayments c (Some 40) (Some i) (Some true)
        :: payment_requests c (default 0 (parseInt offset)) rest
  end.

(** The calls that a task started in [n] makes. *)
Definition calls_of {A} (m : Calls.Task A) (n : Calls.Node) : list Calls.Call :=
  drop (List.length (Calls.calls n)) (Calls.calls (m n).2).

(** Conversions of ./interfaces that leave everything as it is, and read
    the channels off a reply that carries them. *)
Definition plain_interfaces : Calls.Interfaces :=
  {| Calls.keysendResponse := fun a => a;
     Calls.listChannelsRequest := fun args => args;
     Calls.listChannelsResponse :=
       fun a => match a with Calls.AChannels l => l | _ => [] end;
     Calls.listPeersRequest := fun args => default "{}" args;
     Calls.listPeersResponse := fun a => a;
     Calls.getInfoResponse := fun a => default (Calls.ARaw "") a;
     Calls.addInvoiceCommand := "addInvoice";
     Calls.addInvoiceRequest := fun r => r;
     Calls.addInvoiceResponse := fun a => default (Calls.ARaw "") a;
     Calls.connectPeerRequest := fun args => args |}.

(** A process in the state [w] that has made no call yet and faces a node
    that is going to give the answers [replies]. *)
Definition node_at (w : World) (replies : list Calls.Answered) : Calls.Node :=
  {| Calls.world := w; Calls.walletUnlocker := None; Calls.calls := [];
     Calls.answers := replies |}.

Definition sample_payment (st : string) : Payment :=
  {| payment_error := ""; status := st; state := "";
     failure_reason := ""; payment_preimage := [] |}.


(** ** Notions used for the woven messages *)

(** The payment request that [keysend] makes of the options [o], on one
    of its three backends. *)
Definition carries (o : KeysendRequest) (req : Request) : Prop :=
  exists c,
    req = SendPaymentSync c (with_fee_limit o)
    \/ req = GreenlightKeysend c o
    \/ req = SendPaymentV2 c (with_router_limits o).


(** The stream of a payment that stays in flight. *)
Definition stream_in_flight : Reply :=
  Stream [OnData (Sample.payment "IN_FLIGHT")].

(** * Properties *)

Import Sample.

(** ** Facts about the primitives *)

Local Open Scope N_scope.

Lemma code_lt c : code c < 256.
Proof. unfold code. apply N_ascii_bounded. Qed.

Lemma chr_code c : chr (code c) = c.
Proof.
  unfold chr, code. rewrite N.mod_small by apply N_ascii_bounded.
  apply ascii_N_embedding.
Qed.

Lemma code_chr n : n < 256 -> code (chr n) = n.
Proof.
  intros H. unfold chr, code. rewrite N.mod_small by assumption.
  apply N_ascii_embedding. assumption.
Qed.

(** A property of all numbers below a bound, checked by running through
    them. *)
Lemma below_forallb (P : N -> bool) (bound : nat) :
  forallb P (map N.of_nat (seq 0 bound)) = true ->
  forall n, n < N.of_nat bound -> P n = true.
Proof.
  intros H n Hn. rewrite forallb_forall in H. apply H.
  apply in_map_iff. exists (N.to_nat n). split; [lia|].
  apply in_seq. lia.
Qed.

Lemma all_ascii (P : ascii -> bool) :
  forallb (fun n => P (chr n)) (map N.of_nat (seq 0 256)) = true ->
  forall c, P c = true.
Proof.
  intros H c. rewrite <- (chr_code c).
  apply (below_forallb (fun n => P (chr n)) 256 H). apply code_lt.
Qed.

(** *** base64 *)

Lemma unbase64_b64_char n :
  n < 64 ->
  unbase64 (b64_char n) = Some n /\ Ascii.eqb (b64_char n) "=" = false.
Proof.
  intros H.
  pose proof (below_forallb
    (fun n => match unbase64 (b64_char n) with
              | Some m => (m =? n) && negb (Ascii.eqb (b64_char n) "=")
              | None => false
              end) 64 eq_refl n H) as Hc.
  simpl in Hc. destruct (unbase64 (b64_char n)) as [m|]; [|discriminate].
  apply andb_true_iff in Hc as [Hm He]. apply N.eqb_eq in Hm.
  apply negb_true_iff in He. subst. split; [reflexivity|assumption].
Qed.

Lemma b64_sextets_cons n s :
  n < 64 -> b64_sextets (String (b64_char n) s) = n :: b64_sextets s.
Proof.
  intros H. destruct (unbase64_b64_char n H) as [Hu He].
  cbn [b64_sextets]. rewrite He, Hu. reflexivity.
Qed.

Lemma list_ind3 {A} (P : list A -> Prop) :
  P [] -> (forall x, P [x]) -> (forall x y, P [x; y]) ->
  (forall x y z l, P l -> P (x :: y :: z :: l)) ->
  forall l, P l.
Proof.
  intros H0 H1 H2 H3.
  assert (H : forall l, P l /\ (forall x, P (x :: l))
                        /\ (forall x y, P (x :: y :: l))).
  { induction l as [|a l (IH0 & IH1 & IH2)]; [auto|].
    split; [apply IH1|]. split; [intros x; apply IH2|].
    intros x y. apply H3. exact IH0. }
  intros l. apply H.
Qed.

Lemma chr_eq n c : n = code c -> chr n = c.
Proof. intros ->. apply chr_code. Qed.

Ltac euclid := zify; Z.to_euclidean_division_equations; lia.

Lemma Buffer_base64_roundtrip b :
  Buffer_from_base64 (Buffer_toString_base64 b) = b.
Proof.
  unfold Buffer_from_base64.
  induction b as [|x|x y|x y z l IH] using list_ind3.
  - reflexivity.
  - pose proof (code_lt x) as Hx. cbn [Buffer_toString_base64].
    rewrite !b64_sextets_cons by euclid.
    cbn [b64_sextets Ascii.eqb Bool.eqb b64_bytes].
    f_equal. apply chr_eq. euclid.
  - pose proof (code_lt x) as Hx. pose proof (code_lt y) as Hy.
    cbn [Buffer_toString_base64].
    rewrite !b64_sextets_cons by euclid.
    cbn [b64_sextets Ascii.eqb Bool.eqb b64_bytes].
    f_equal; [|f_equal]; apply chr_eq; euclid.
  - pose proof (code_lt x) as Hx. pose proof (code_lt y) as Hy.
    pose proof (code_lt z) as Hz.
    cbn [Buffer_toString_base64].
    rewrite !b64_sextets_cons by euclid.
    cbn [b64_bytes]. rewrite IH.
    f_equal; [|f_equal; [|f_equal]]; apply chr_eq; euclid.
Qed.

Lemma b64_sextets_replace a b s :
  unbase64 a = unbase64 b ->
  Ascii.eqb a "=" = false -> Ascii.eqb b "=" = false ->
  b64_sextets (replace_all a (String b "") s) = b64_sextets s.
Proof.
  intros Hu Ha Hb. induction s as [|x s IH]; [reflexivity|].
  cbn [replace_all]. destruct (Ascii.eqb x a) eqn:E.
  - apply Ascii.eqb_eq in E. subst x.
    change (String b "" +:+ replace_all a (String b "") s)
      with (String b (replace_all a (String b "") s)).
    cbn [b64_sextets]. rewrite Ha, Hb, Hu, IH. reflexivity.
  - cbn [b64_sextets]. rewrite IH. reflexivity.
Qed.

Lemma urlBase64_roundtrip b : Buffer_from_base64 (urlBase64 b) = b.
Proof.
  unfold urlBase64, Buffer_from_base64.
  rewrite !b64_sextets_replace by reflexivity.
  apply Buffer_base64_roundtrip.
Qed.

Lemma b64_char_no_dot n : n < 64 -> Ascii.eqb (b64_char n) "." = false.
Proof.
  intros H.
  pose proof (below_forallb (fun n => negb (Ascii.eqb (b64_char n) "."))
                64 eq_refl n H) as Hc.
  simpl in Hc. apply negb_true_iff in Hc. exact Hc.
Qed.

Lemma base64_no_dot b : includes "." (Buffer_toString_base64 b) = false.
Proof.
  induction b as [|x|x y|x y z l IH] using list_ind3.
  - reflexivity.
  - pose proof (code_lt x). cbn [Buffer_toString_base64 includes].
    rewrite !b64_char_no_dot by euclid. reflexivity.
  - pose proof (code_lt x). pose proof (code_lt y).
    cbn [Buffer_toString_base64 includes].
    rewrite !b64_char_no_dot by euclid. reflexivity.
  - pose proof (code_lt x). pose proof (code_lt y). pose proof (code_lt z).
    cbn [Buffer_toString_base64 includes].
    rewrite !b64_char_no_dot by euclid. exact IH.
Qed.

Lemma includes_replace c a b s :
  Ascii.eqb b c = false ->
  includes c s = false ->
  includes c (replace_all a (String b "") s) = false.
Proof.
  intros Hb. induction s as [|x s IH]; [reflexivity|].
  cbn [includes replace_all]. destruct (Ascii.eqb x c) eqn:E; [discriminate|].
  intros H. destruct (Ascii.eqb x a).
  - change (String b "" +:+ replace_all a (String b "") s)
      with (String b (replace_all a (String b "") s)).
    cbn [includes]. rewrite Hb. auto.
  - cbn [includes]. rewrite E. auto.
Qed.

Lemma urlBase64_no_dot b : includes "." (urlBase64 b) = false.
Proof.
  unfold urlBase64. apply includes_replace; [reflexivity|].
  apply includes_replace; [reflexivity|]. apply base64_no_dot.
Qed.

Lemma replace_all_nonempty a b s :
  s <> "" -> replace_all a (String b "") s <> "".
Proof.
  destruct s as [|x s]; [congruence|]. intros _. cbn [replace_all].
  destruct (Ascii.eqb x a); discriminate.
Qed.

Lemma urlBase64_nonempty b : b <> [] -> urlBase64 b <> "".
Proof.
  intros H. unfold urlBase64. do 2 apply replace_all_nonempty.
  destruct b as [|x [|y [|z l]]]; [congruence|discriminate..].
Qed.

(** *** split on dots *)

Lemma prefix_dot c s :
  String.prefix "." (String c s) = Ascii.eqb c ".".
Proof.
  cbn [String.prefix]. destruct (ascii_dec "." c) as [<-|Hne].
  - destruct s; reflexivity.
  - symmetry. apply Ascii.eqb_neq. congruence.
Qed.

Lemma append_cons x (a b : string) : String x a +:+ b = String x (a +:+ b).
Proof. reflexivity. Qed.

Lemma append_nil_l (b : string) : "" +:+ b = b.
Proof. reflexivity. Qed.

Lemma append_assoc (a b c : string) : (a +:+ b) +:+ c = a +:+ (b +:+ c).
Proof.
  induction a as [|x a IH]; [reflexivity|].
  rewrite !append_cons. f_equal. exact IH.
Qed.

Lemma append_nil_r (a : string) : a +:+ "" = a.
Proof.
  induction a as [|x a IH]; [reflexivity|].
  rewrite append_cons. f_equal. exact IH.
Qed.

(** Appends with a literal on the left are carried out. *)
Ltac sapp := rewrite ?append_cons, ?append_nil_l.

Lemma split_dot_field f : forall cur rest,
  includes "." f = false ->
  split_go "." 0 cur (f +:+ String "." rest)
  = (cur +:+ f) :: split_go "." 0 "" rest.
Proof.
  induction f as [|x f IH]; intros cur rest Hf.
  - sapp. cbn [split_go]. rewrite prefix_dot. cbn.
    rewrite append_nil_r. reflexivity.
  - cbn [includes] in Hf. destruct (Ascii.eqb x ".") eqn:E; [discriminate|].
    sapp. cbn [split_go]. rewrite prefix_dot, E, IH by assumption.
    rewrite append_assoc. reflexivity.
Qed.

Lemma split_dot_last f : forall cur,
  includes "." f = false ->
  split_go "." 0 cur f = [cur +:+ f].
Proof.
  induction f as [|x f IH]; intros cur Hf.
  - cbn. rewrite append_nil_r. reflexivity.
  - cbn [includes] in Hf. destruct (Ascii.eqb x ".") eqn:E; [discriminate|].
    cbn [split_go]. rewrite prefix_dot, E, IH by assumption.
    rewrite append_assoc. reflexivity.
Qed.

(** *** ascii and hex *)

Lemma ascii_roundtrip s :
  seven_bit s = true -> Buffer_toString_ascii (Buffer_from_ascii s) = s.
Proof.
  unfold Buffer_toString_ascii, Buffer_from_ascii.
  unfold seven_bit.
  induction s as [|c s IH]; [reflexivity|].
  cbn [string_forall]. intros H. apply andb_true_iff in H as [Hc Hs].
  cbn [list_ascii_of_string map string_of_list_ascii]. rewrite IH by assumption.
  f_equal.
  pose proof (all_ascii
    (fun c => implb (code c <? 128) (Ascii.eqb (chr (N.land (code c) 127)) c))
    eq_refl c) as Hall.
  simpl in Hall. rewrite Hc in Hall. apply Ascii.eqb_eq. exact Hall.
Qed.

Lemma lower_hex_digit c :
  lower_hex c = true ->
  exists a, digit_in 16 c = Some a /\ a < 16 /\ digit_char a = c.
Proof.
  intros H.
  pose proof (all_ascii
    (fun c => implb (lower_hex c)
                match digit_in 16 c with
                | Some a => (a <? 16) && Ascii.eqb (digit_char a) c
                | None => false
                end) eq_refl c) as Hall.
  simpl in Hall. rewrite H in Hall.
  destruct (digit_in 16 c) as [a|]; [|discriminate].
  apply andb_true_iff in Hall as [Ha Hc]. exists a.
  split; [reflexivity|]. split; [apply N.ltb_lt; exact Ha|].
  apply Ascii.eqb_eq. exact Hc.
Qed.

Lemma string_pair_ind (P : string -> Prop) :
  P "" -> (forall c, P (String c "")) ->
  (forall h l s, P s -> P (String h (String l s))) ->
  forall s, P s.
Proof.
  intros H0 H1 H2.
  assert (H : forall s, P s /\ forall c, P (String c s)).
  { induction s as [|c s [IHa IHb]]; [auto|].
    split; [apply IHb|]. intros c'. apply H2. exact IHa. }
  intros s. apply H.
Qed.

Lemma hex_roundtrip s :
  hex_pairs s = true -> Buffer_toString_hex (Buffer_from_hex s) = s.
Proof.
  induction s as [|c|h l s IH] using string_pair_ind.
  - reflexivity.
  - discriminate.
  - cbn [hex_pairs]. intros H.
    apply andb_true_iff in H as [H Hs]. apply andb_true_iff in H as [Hh Hl].
    destruct (lower_hex_digit h Hh) as (a & Ea & Ha & Ca).
    destruct (lower_hex_digit l Hl) as (b & Eb & Hb & Cb).
    cbn [Buffer_from_hex]. rewrite Ea, Eb.
    cbn [Buffer_toString_hex]. rewrite IH by assumption.
    unfold hex2. rewrite code_chr by lia.
    replace ((a * 16 + b) / 16) with a by euclid.
    replace ((a * 16 + b) mod 16) with b by euclid.
    rewrite Ca, Cb. reflexivity.
Qed.

Lemma hex_nonempty s :
  hex_pairs s = true -> s <> "" -> Buffer_from_hex s <> [].
Proof.
  destruct s as [|h [|l s]]; [congruence|discriminate|].
  cbn [hex_pairs]. intros H _.
  apply andb_true_iff in H as [H Hs]. apply andb_true_iff in H as [Hh Hl].
  destruct (lower_hex_digit h Hh) as (a & Ea & _).
  destruct (lower_hex_digit l Hl) as (b & Eb & _).
  cbn [Buffer_from_hex]. rewrite Ea, Eb. discriminate.
Qed.

(** *** Numbers as text *)

Lemma digit_in_digit_char r d :
  r <= 36 -> d < r -> digit_in r (digit_char d) = Some d.
Proof.
  intros Hr Hd.
  pose proof (below_forallb
    (fun d => match digit_val (digit_char d) with
              | Some e => e =? d
              | None => false
              end) 36 eq_refl d ltac:(lia)) as Hc.
  simpl in Hc. unfold digit_in.
  destruct (digit_val (digit_char d)) as [e|]; [|discriminate].
  apply N.eqb_eq in Hc. subst e.
  apply N.ltb_lt in Hd. rewrite Hd. reflexivity.
Qed.

Lemma digits_go_S fuel r n acc :
  digits_go (S fuel) r n acc
  = if n / r =? 0 then String (digit_char (n mod r)) acc
    else digits_go fuel r (n / r) (String (digit_char (n mod r)) acc).
Proof. reflexivity. Qed.

Lemma scan_digits_go r :
  2 <= r <= 36 ->
  forall fuel n acc,
    n < r ^ N.of_nat (S fuel) ->
    scan_digits r (digits_go (S fuel) r n acc) None
    = scan_digits r acc (Some n).
Proof.
  intros Hr. induction fuel as [|fuel IH]; intros n acc Hn.
  - change (r ^ N.of_nat 1) with (r ^ 1) in Hn. rewrite N.pow_1_r in Hn.
    cbn [digits_go]. rewrite N.div_small by assumption. simpl.
    rewrite N.mod_small by assumption.
    rewrite digit_in_digit_char by lia. reflexivity.
  - rewrite digits_go_S.
    pose proof (N.mod_lt n r ltac:(lia)) as Hm.
    pose proof (N.div_mod n r ltac:(lia)) as Hdm.
    destruct (n / r =? 0) eqn:Eq.
    + apply N.eqb_eq in Eq. cbn [scan_digits].
      rewrite digit_in_digit_char by lia. f_equal. f_equal. lia.
    + apply N.eqb_neq in Eq.
      rewrite IH.
      * cbn [scan_digits]. rewrite digit_in_digit_char by lia.
        f_equal. f_equal. lia.
      * apply N.Div0.div_lt_upper_bound.
        replace (N.of_nat (S (S fuel))) with (N.succ (N.of_nat (S fuel)))
          in Hn by lia.
        rewrite N.pow_succ_r' in Hn. exact Hn.
Qed.

Lemma N_toString_fuel r n :
  2 <= r -> n < r ^ N.of_nat (S (N.to_nat (N.log2 n))).
Proof.
  intros Hr.
  replace (N.of_nat (S (N.to_nat (N.log2 n)))) with (N.succ (N.log2 n))
    by lia.
  apply N.lt_le_trans with (2 ^ N.succ (N.log2 n)).
  - destruct (N.eq_dec n 0) as [->|Hn]; [reflexivity|].
    apply N.log2_spec. lia.
  - apply N.pow_le_mono_l. assumption.
Qed.

Lemma scan_N_toString r n :
  2 <= r <= 36 -> scan_digits r (N_toString r n) None = Some n.
Proof.
  intros Hr. unfold N_toString.
  rewrite scan_digits_go by (try apply N_toString_fuel; lia). reflexivity.
Qed.

Lemma digits_go_forall (P : ascii -> bool) r :
  0 < r -> (forall d, d < r -> P (digit_char d) = true) ->
  forall fuel n acc,
    string_forall P acc = true ->
    string_forall P (digits_go fuel r n acc) = true.
Proof.
  intros Hr HP. induction fuel as [|fuel IH]; intros n acc Hacc;
    [exact Hacc|].
  cbn [digits_go].
  assert (Hd : string_forall P (String (digit_char (n mod r)) acc) = true).
  { cbn [string_forall]. rewrite HP by (apply N.mod_lt; lia). exact Hacc. }
  destruct (n / r =? 0); [exact Hd|]. apply IH. exact Hd.
Qed.

Lemma digits_go_nonempty fuel r n acc : digits_go (S fuel) r n acc <> "".
Proof.
  revert n acc. induction fuel as [|fuel IH]; intros n acc.
  - cbn [digits_go]. destruct (n / r =? 0); discriminate.
  - rewrite digits_go_S.
    destruct (n / r =? 0); [discriminate|]. apply IH.
Qed.

Lemma N_toString_decimal n : string_forall is_decimal (N_toString 10 n) = true.
Proof.
  apply digits_go_forall; [lia| |reflexivity].
  intros d Hd. apply (below_forallb (fun d => is_decimal (digit_char d)) 10
                        eq_refl d Hd).
Qed.

Lemma N_toString_lower_hex n :
  string_forall lower_hex (N_toString 16 n) = true.
Proof.
  apply digits_go_forall; [lia| |reflexivity].
  intros d Hd. apply (below_forallb (fun d => lower_hex (digit_char d)) 16
                        eq_refl d Hd).
Qed.

Lemma N_toString_nonempty r n : N_toString r n <> "".
Proof. apply digits_go_nonempty. Qed.

Lemma hex_pairs_even s :
  string_forall lower_hex s = true ->
  Nat.even (String.length s) = true ->
  hex_pairs s = true.
Proof.
  induction s as [|c|h l s IH] using string_pair_ind.
  - reflexivity.
  - intros _ H. discriminate.
  - cbn [string_forall String.length Nat.even hex_pairs]. intros H He.
    apply andb_true_iff in H as [Hh H]. apply andb_true_iff in H as [Hl Hs].
    rewrite Hh, Hl, IH by assumption. reflexivity.
Qed.

(** [parseInt] of a text that starts with [0x] reads hex digits. *)
Lemma parseInt_0x s :
  parseInt (String "0" (String "x" s))
  = match scan_digits 16 s None with
    | Some n => Some (Z.of_N n)
    | None => None
    end.
Proof. reflexivity. Qed.

(** [parseInt] of decimal digits, with or without a minus sign. *)
Lemma parseInt_decimal s :
  string_forall is_decimal s = true -> s <> "" ->
  parseInt s = Z.of_N <$> scan_digits 10 s None
  /\ parseInt (String "-" s) = (fun n => (- Z.of_N n)%Z) <$> scan_digits 10 s None.
Proof.
  destruct s as [|c s]; [congruence|]. intros H _.
  cbn [string_forall] in H. apply andb_true_iff in H as [Hc Hs].
  destruct c as [[] [] [] [] [] [] [] []]; try discriminate Hc;
    (destruct s as [|x s];
     [split; reflexivity|
      cbn [string_forall] in Hs; apply andb_true_iff in Hs as [Hx Hs];
      destruct x as [[] [] [] [] [] [] [] []]; try discriminate Hx;
      split; reflexivity]).
Qed.

Lemma parseInt_Number_toString z :
  parseInt (Number_toString 10 z) = Some z.
Proof.
  destruct z as [|p|p]; unfold Number_toString.
  - reflexivity.
  - destruct (parseInt_decimal (N_toString 10 (Z.to_N (Z.pos p)))
                (N_toString_decimal _) (N_toString_nonempty _ _)) as [H _].
    rewrite H, scan_N_toString by lia. reflexivity.
  - destruct (parseInt_decimal (N_toString 10 (N.pos p))
                (N_toString_decimal _) (N_toString_nonempty _ _)) as [_ H].
    rewrite H, scan_N_toString by lia. reflexivity.
Qed.

(** The number of digits. *)
Lemma digits_go_length r :
  2 <= r ->
  forall k fuel n acc,
    (k <= fuel)%nat ->
    r ^ N.of_nat k <= n < r ^ N.of_nat (S k) ->
    String.length (digits_go (S fuel) r n acc)
    = (S k + String.length acc)%nat.
Proof.
  intros Hr. induction k as [|k IH]; intros fuel n acc Hk Hn.
  - change (r ^ N.of_nat 1) with (r ^ 1) in Hn. rewrite N.pow_1_r in Hn.
    rewrite digits_go_S, N.div_small by lia. reflexivity.
  - destruct fuel as [|fuel]; [lia|].
    replace (N.of_nat (S (S k))) with (N.succ (N.of_nat (S k))) in Hn by lia.
    replace (N.of_nat (S k)) with (N.succ (N.of_nat k)) in Hn at 1 by lia.
    rewrite !N.pow_succ_r' in Hn.
    assert (Hr0 : r <> 0) by (clear -Hr; lia).
    assert (Hq : r ^ N.of_nat k <= n / r < r ^ N.of_nat (S k)).
    { split.
      - apply N.div_le_lower_bound; [exact Hr0|apply Hn].
      - apply N.Div0.div_lt_upper_bound. apply Hn. }
    assert (Hq0 : n / r <> 0).
    { pose proof (N.pow_nonzero r (N.of_nat k) Hr0) as Hp.
      destruct Hq as [Hq _]. clear -Hq Hp. lia. }
    rewrite digits_go_S. apply N.eqb_neq in Hq0. rewrite Hq0.
    rewrite IH by (try lia; exact Hq). cbn [String.length]. lia.
Qed.

Lemma N_toString_16_length n :
  16 ^ 7 <= n < 16 ^ 8 -> String.length (N_toString 16 n) = 8%nat.
Proof.
  intros Hn. unfold N_toString.
  rewrite (digits_go_length 16 ltac:(lia) 7); [reflexivity| |exact Hn].
  assert (28 <= N.log2 n).
  { change 28 with (N.log2 (16 ^ 7)). apply N.log2_le_mono. lia. }
  lia.
Qed.

(** *** URI components *)

Lemma string_forall_app P (a b : string) :
  string_forall P (a +:+ b) = string_forall P a && string_forall P b.
Proof.
  induction a as [|x a IH]; [reflexivity|].
  rewrite append_cons. cbn [string_forall]. rewrite IH, andb_assoc.
  reflexivity.
Qed.

Lemma decode_encode_char c rest :
  decodeURIComponent (encodeURIComponent_char c +:+ rest)
  = String c <$> decodeURIComponent rest.
Proof. destruct c as [[] [] [] [] [] [] [] []]; reflexivity. Qed.

Lemma decode_encode s : decodeURIComponent (encodeURIComponent s) = Some s.
Proof.
  induction s as [|c s IH]; [reflexivity|].
  cbn [encodeURIComponent]. rewrite decode_encode_char, IH. reflexivity.
Qed.

Lemma encode_safe s : string_forall meta_safe (encodeURIComponent s) = true.
Proof.
  induction s as [|c s IH]; [reflexivity|].
  cbn [encodeURIComponent]. rewrite string_forall_app, IH, andb_true_r.
  apply (all_ascii
           (fun c => string_forall meta_safe (encodeURIComponent_char c))
           eq_refl).
Qed.

Lemma encode_unreserved s : unreserved s = true -> encodeURIComponent s = s.
Proof.
  unfold unreserved. induction s as [|c s IH]; [reflexivity|].
  cbn [string_forall encodeURIComponent]. intros H.
  apply andb_true_iff in H as [Hc Hs]. rewrite IH by assumption.
  unfold encodeURIComponent_char. rewrite Hc. reflexivity.
Qed.

Lemma encode_nonempty s : s <> "" -> encodeURIComponent s <> "".
Proof.
  intros Hs E. pose proof (decode_encode s) as H. rewrite E in H.
  cbn in H. congruence.
Qed.

(** *** The JSON text of the metadata *)

Lemma string_forall_impl (P Q : ascii -> bool) s :
  (forall c, P c = true -> Q c = true) ->
  string_forall P s = true -> string_forall Q s = true.
Proof.
  intros HPQ. induction s as [|c s IH]; [reflexivity|].
  cbn [string_forall]. intros H. apply andb_true_iff in H as [Hc Hs].
  rewrite (HPQ c Hc), IH by assumption. reflexivity.
Qed.

Lemma replace_all_app c by_ (a b : string) :
  replace_all c by_ (a +:+ b)
  = replace_all c by_ a +:+ replace_all c by_ b.
Proof.
  induction a as [|x a IH]; [reflexivity|].
  rewrite append_cons. cbn [replace_all]. destruct (Ascii.eqb x c).
  - rewrite IH, append_assoc. reflexivity.
  - rewrite IH, append_cons. reflexivity.
Qed.

Lemma replace_all_id c by_ s :
  string_forall (fun x => negb (Ascii.eqb x c)) s = true ->
  replace_all c by_ s = s.
Proof.
  induction s as [|x s IH]; [reflexivity|].
  cbn [string_forall replace_all]. intros H.
  apply andb_true_iff in H as [Hx Hs]. apply negb_true_iff in Hx.
  rewrite Hx, IH by assumption. reflexivity.
Qed.

Lemma quoted_app (a b : string) : quoted (a +:+ b) = quoted a +:+ quoted b.
Proof. unfold quoted. rewrite !replace_all_app. reflexivity. Qed.

Lemma quoted_safe s : string_forall meta_safe s = true -> quoted s = s.
Proof.
  intros H. unfold quoted. rewrite (replace_all_id "&").
  - apply replace_all_id. revert H. apply string_forall_impl.
    intros c Hc. unfold meta_safe in Hc.
    apply andb_true_iff in Hc as [_ Hc]. exact Hc.
  - revert H. apply string_forall_impl.
    intros c Hc. unfold meta_safe in Hc.
    apply andb_true_iff in Hc as [Hc _].
    apply andb_true_iff in Hc as [_ Hc]. exact Hc.
Qed.

Lemma meta_safe_plain c :
  meta_safe c = true -> Ascii.eqb c dquote = false /\ json_plain c = true.
Proof.
  unfold meta_safe, json_plain. intros H.
  apply andb_true_iff in H as [H _]. apply andb_true_iff in H as [H _].
  apply andb_true_iff in H as [H _]. split.
  - apply andb_true_iff in H as [H _]. apply andb_true_iff in H as [H _].
    apply negb_true_iff in H. exact H.
  - unfold json_plain. exact H.
Qed.

Lemma json_run_key s : forall k acc rest,
  string_forall meta_safe s = true ->
  json_run (JKey k) acc (s +:+ String dquote rest)
  = json_run (JColon (k +:+ s)) acc rest.
Proof.
  induction s as [|c s IH]; intros k acc rest H.
  - rewrite append_nil_l, append_nil_r. cbn [json_run].
    rewrite Ascii.eqb_refl. reflexivity.
  - cbn [string_forall] in H. apply andb_true_iff in H as [Hc Hs].
    destruct (meta_safe_plain c Hc) as [Hq Hp].
    rewrite append_cons. cbn [json_run]. rewrite Hq, Hp, IH by assumption.
    rewrite append_assoc. reflexivity.
Qed.

Lemma json_run_val s : forall k v acc rest,
  string_forall meta_safe s = true ->
  json_run (JVal k v) acc (s +:+ String dquote rest)
  = json_run JNext (acc ++ [(k, v +:+ s)]) rest.
Proof.
  induction s as [|c s IH]; intros k v acc rest H.
  - rewrite append_nil_l, append_nil_r. cbn [json_run].
    rewrite Ascii.eqb_refl. reflexivity.
  - cbn [string_forall] in H. apply andb_true_iff in H as [Hc Hs].
    destruct (meta_safe_plain c Hc) as [Hq Hp].
    rewrite append_cons. cbn [json_run]. rewrite Hq, Hp, IH by assumption.
    rewrite append_assoc. reflexivity.
Qed.

Lemma quoted_entry kv :
  safe_entry kv ->
  quoted (entry_text kv)
  = kv.1 +:+ String dquote (String ":" (String dquote kv.2)).
Proof.
  intros [Hk Hv]. unfold entry_text.
  rewrite !quoted_app, (quoted_safe kv.1), (quoted_safe kv.2) by assumption.
  reflexivity.
Qed.

Lemma json_run_entry kv acc rest :
  safe_entry kv ->
  json_run (JKey "") acc
    (quoted (entry_text kv) +:+ String dquote rest)
  = json_run JNext (acc ++ [kv]) rest.
Proof.
  intros Hs. rewrite quoted_entry by assumption. destruct Hs as [Hk Hv].
  destruct kv as [k v]. cbn [fst snd] in *.
  rewrite append_assoc, !append_cons, json_run_key by assumption.
  cbn [json_run]. rewrite Ascii.eqb_refl.
  rewrite json_run_val by assumption. reflexivity.
Qed.

Lemma json_run_members entries : forall acc,
  entries <> [] ->
  Forall safe_entry entries ->
  json_run (JKey "") acc
    (quoted (join "&" (map entry_text entries)) +:+ String dquote "}")
  = Some (acc ++ entries).
Proof.
  induction entries as [|kv entries IH]; intros acc Hne Hs; [congruence|].
  inversion Hs as [|? ? Hkv Hrest]; subst.
  destruct entries as [|kv' entries].
  - cbn [map join]. rewrite json_run_entry by assumption. reflexivity.
  - change (join "&" (map entry_text (kv :: kv' :: entries)))
      with (entry_text kv +:+ "&"
            +:+ join "&" (map entry_text (kv' :: entries))).
    rewrite !quoted_app, !append_assoc.
    change (quoted "&")
      with (String dquote (String "," (String dquote ""))).
    rewrite !append_cons, append_nil_l.
    rewrite json_run_entry by assumption.
    cbn [json_run]. rewrite Ascii.eqb_refl.
    rewrite IH by (try discriminate; assumption).
    rewrite <- app_assoc. reflexivity.
Qed.

Lemma JSON_parse_members_meta entries :
  entries <> [] ->
  Forall safe_entry entries ->
  JSON_parse_members (meta_json (join "&" (map entry_text entries)))
  = Some entries.
Proof.
  intros Hne Hs. unfold meta_json, JSON_parse_members.
  rewrite Ascii.eqb_refl.
  apply (json_run_members entries [] Hne Hs).
Qed.

(** Inserting the members one after the other, when no key comes twice. *)
Lemma fold_insert_list_to_map {V} (l : list (string * V)) :
  forall o : gmap string V,
    NoDup (map fst l) ->
    fold_left (fun o kv => <[kv.1 := kv.2]> o) l o = list_to_map l ∪ o.
Proof.
  induction l as [|[k v] l IH]; intros o Hnd.
  - cbn. rewrite (left_id_L ∅ (∪)). reflexivity.
  - inversion Hnd as [|? ? Hk Hl]; subst. cbn [fold_left fst snd].
    rewrite IH by assumption. cbn [list_to_map foldr].
    change (foldr (fun '(k0, v0) => <[k0:=v0]>) ∅ l)
      with (list_to_map (M := gmap string V) l).
    rewrite <- insert_union_l. symmetry. apply insert_union_r.
    apply not_elem_of_list_to_map_1. exact Hk.
Qed.

Lemma JSON_parse_meta entries :
  entries <> [] ->
  Forall safe_entry entries ->
  NoDup (map fst entries) ->
  JSON_parse (meta_json (join "&" (map entry_text entries)))
  = Some (list_to_map entries).
Proof.
  intros Hne Hs Hnd. unfold JSON_parse.
  rewrite JSON_parse_members_meta by assumption. cbn [fmap option_fmap option_map].
  rewrite fold_insert_list_to_map by assumption.
  rewrite (right_id_L ∅ (∪)). reflexivity.
Qed.

(** ** The metadata codec *)

Lemma sort_insert_perm x l : sort_insert x l ≡ₚ x :: l.
Proof.
  induction l as [|y l IH]; [reflexivity|].
  cbn [sort_insert]. destruct (String.leb x y); [reflexivity|].
  rewrite IH. apply perm_swap.
Qed.

Lemma sort_ascending_perm l : sort_ascending l ≡ₚ l.
Proof.
  induction l as [|x l IH]; [reflexivity|].
  cbn [sort_ascending fold_right].
  change (fold_right sort_insert [] l) with (sort_ascending l).
  rewrite sort_insert_perm, IH. reflexivity.
Qed.

Lemma length_append (a b : string) :
  String.length (a +:+ b) = (String.length a + String.length b)%nat.
Proof.
  induction a as [|x a IH]; [reflexivity|].
  rewrite append_cons. cbn [String.length]. rewrite IH. reflexivity.
Qed.

Lemma length_join_head sep x l :
  (String.length x <= String.length (join sep (x :: l)))%nat.
Proof.
  destruct l as [|y l]; [reflexivity|].
  change (join sep (x :: y :: l)) with (x +:+ sep +:+ join sep (y :: l)).
  rewrite length_append. lia.
Qed.

Lemma coerce_canonical v :
  canonical_value v = true -> coerce (MetaVal_toString v) = v.
Proof.
  destruct v as [n|s]; cbn [canonical_value MetaVal_toString]; intros H.
  - apply andb_true_iff in H as [Hn _]. unfold coerce.
    rewrite parseInt_Number_toString.
    apply negb_true_iff in Hn. rewrite Hn. reflexivity.
  - apply andb_true_iff in H as [_ Hs]. unfold coerce, stays_string in *.
    destruct (parseInt s) as [n|]; [rewrite Hs|]; reflexivity.
Qed.

Lemma canonical_entry_facts p :
  canonical_entry p = true ->
  p.1 <> "" /\ encodeURIComponent p.1 = p.1 /\ p.1 <> "__proto__"
  /\ canonical_value p.2 = true.
Proof.
  unfold canonical_entry. intros H.
  apply andb_true_iff in H as [H Hv]. apply andb_true_iff in H as [H Hp].
  apply andb_true_iff in H as [Hne Hu].
  apply negb_true_iff in Hne, Hp.
  apply String.eqb_neq in Hne, Hp.
  repeat split; try assumption. apply encode_unreserved. assumption.
Qed.

Lemma canonical_value_nonempty v :
  canonical_value v = true -> MetaVal_toString v <> "".
Proof.
  destruct v as [n|s]; cbn [canonical_value MetaVal_toString]; intros H.
  - destruct n; unfold Number_toString; try apply N_toString_nonempty.
    discriminate.
  - apply andb_true_iff in H as [Hs _]. apply negb_true_iff in Hs.
    apply String.eqb_neq in Hs. exact Hs.
Qed.

Lemma nonempty_length s : s <> "" -> (1 <= String.length s)%nat.
Proof. destruct s; [congruence|]. intros _. cbn. lia. Qed.

Lemma deserialize_serialize m :
  canonical_meta m ->
  deserializeMeta (serializeMeta m) = Some (list_to_map m)
  /\ serializeMeta m <> ""
  /\ seven_bit (serializeMeta m) = true.
Proof.
  intros (Hne & Hnd & Hcan).
  unfold serializeMeta.
  set (f := fun p : string * MetaVal =>
              encodeURIComponent p.1 +:+ "="
                +:+ encodeURIComponent (MetaVal_toString p.2)).
  destruct (@Permutation_map_inv _ _ f (sort_ascending (map f m)) m
              (sort_ascending_perm _)) as (m' & Hsort & Hperm).
  rewrite Hsort. clear Hsort.
  assert (Hne' : m' <> []).
  { intros ->. apply Permutation_nil_r in Hperm. congruence. }
  assert (Hcan' : Forall (fun p => canonical_entry p = true) m').
  { rewrite <- Hperm. apply Forall_forall. intros p Hp.
    rewrite forallb_forall in Hcan. apply Hcan.
    apply list_elem_of_In. exact Hp. }
  assert (Hnd' : NoDup (fst <$> m')).
  { rewrite <- Hperm. exact Hnd. }
  replace (map f m') with (map entry_text (map encoded_entry m'))
    by (rewrite map_map; reflexivity).
  set (entries := map encoded_entry m').
  assert (Hsafe : Forall safe_entry entries).
  { apply Forall_forall. intros kv Hkv. apply list_elem_of_In in Hkv.
    apply in_map_iff in Hkv as (p & <- & _).
    split; apply encode_safe. }
  assert (Hkeys : fst <$> entries = fst <$> m').
  { unfold entries. clear -Hcan'.
    induction Hcan' as [|p l Hp Hl IH]; [reflexivity|].
    cbn [map fmap list_fmap]. f_equal; [|exact IH].
    apply canonical_entry_facts in Hp as (_ & Hp & _). exact Hp. }
  assert (Hent : entries <> []).
  { unfold entries. destruct m'; [congruence|discriminate]. }
  assert (Hlen : (2 < String.length (join "&" (map entry_text entries)))%nat).
  { unfold entries. destruct m' as [|p l]; [congruence|].
    inversion Hcan' as [|? ? Hp Hl]; subst.
    apply canonical_entry_facts in Hp as (Hk & _ & _ & Hv).
    cbn [map]. eapply Nat.lt_le_trans; [|apply length_join_head].
    unfold entry_text, encoded_entry. cbn [fst snd].
    rewrite !length_append.
    pose proof (nonempty_length _ (encode_nonempty _ Hk)).
    pose proof (nonempty_length _
                  (encode_nonempty _ (canonical_value_nonempty _ Hv))).
    cbn [String.length]. lia. }
  split; [|split].
  - unfold deserializeMeta. apply Nat.ltb_lt in Hlen. rewrite Hlen.
    assert (Hnde : NoDup (map fst entries))
      by (change (NoDup (fst <$> entries)); rewrite Hkeys; exact Hnd').
    rewrite JSON_parse_meta by assumption.
    assert (Hnoempty : (list_to_map entries : gmap string string) !! ""
                       = None).
    { apply not_elem_of_list_to_map_1. rewrite Hkeys. intros Hin.
      apply list_elem_of_fmap in Hin as (p & Hp1 & Hp2).
      rewrite Forall_forall in Hcan'.
      apply Hcan', canonical_entry_facts in Hp2 as (Hp2 & _).
      congruence. }
    unfold revive. rewrite Hnoempty, delete_id by exact Hnoempty.
    rewrite decide_True.
    + f_equal. rewrite <- !list_to_map_fmap.
      rewrite <- list_fmap_compose.
      assert (Hback : prod_map id coerce
                        ∘ prod_map id (fun v => default "" (decodeURIComponent v))
                        <$> entries = m').
      { unfold entries. clear -Hcan'.
        induction Hcan' as [|p l Hp Hl IH]; [reflexivity|].
        cbn [map fmap list_fmap]. f_equal; [|exact IH].
        apply canonical_entry_facts in Hp as (_ & Hk & _ & Hv).
        destruct p as [k v]. unfold encoded_entry, prod_map, compose.
        cbn [fst snd id] in *. rewrite Hk, decode_encode. cbn [default id].
        rewrite coerce_canonical by assumption. reflexivity. }
      rewrite Hback. rewrite delete_id.
      * symmetry. apply list_to_map_proper; [exact Hnd|exact Hperm].
      * apply not_elem_of_list_to_map_1. intros Hin.
        apply list_elem_of_fmap in Hin as (p & Hp1 & Hp2).
        rewrite Forall_forall in Hcan'.
        apply Hcan', canonical_entry_facts in Hp2 as (_ & _ & Hp2 & _).
        congruence.
    + intros k v Hkv. apply elem_of_list_to_map_2 in Hkv.
      apply list_elem_of_In, in_map_iff in Hkv as (p & Hp & _).
      injection Hp as _ <-. rewrite decode_encode. eexists. reflexivity.
  - intros E. rewrite E in Hlen. cbn in Hlen. lia.
  - unfold seven_bit. clear -Hsafe Hent.
    induction entries as [|kv l IH]; [congruence|].
    inversion Hsafe as [|? ? [Hk Hv] Hl]; subst.
    assert (Hone : string_forall (fun c => code c <? 128)%N (entry_text kv)
                   = true).
    { unfold entry_text. rewrite !string_forall_app.
      rewrite (string_forall_impl meta_safe _ kv.1),
        (string_forall_impl meta_safe _ kv.2); try assumption.
      - reflexivity.
      - intros c Hc. unfold meta_safe in Hc.
        apply andb_true_iff in Hc as [Hc _].
        apply andb_true_iff in Hc as [Hc _].
        apply andb_true_iff in Hc as [_ Hc]. exact Hc.
      - intros c Hc. unfold meta_safe in Hc.
        apply andb_true_iff in Hc as [Hc _].
        apply andb_true_iff in Hc as [Hc _].
        apply andb_true_iff in Hc as [_ Hc]. exact Hc. }
    destruct l as [|kv' l']; [exact Hone|].
    change (join "&" (map entry_text (kv :: kv' :: l')))
      with (entry_text kv +:+ "&" +:+ join "&" (map entry_text (kv' :: l'))).
    rewrite !string_forall_app, Hone, IH by (try discriminate; assumption).
    reflexivity.
Qed.

(** ** The token codec *)

Local Close Scope N_scope.

Lemma urlBase64_empty b : urlBase64 b = "" -> b = [].
Proof.
  intros E. destruct b as [|x b]; [reflexivity|].
  exfalso. apply (urlBase64_nonempty (x :: b)); [discriminate|exact E].
Qed.

(** One step of [parse_terms] on a field that is the encoding of [b]. *)
Lemma parse_terms_field key func keys b rest o :
  parse_terms ((key, func) :: keys) (urlBase64 b :: rest) o
  = match b with
    | [] => parse_terms keys rest o
    | _ => match func b with
           | Some v => parse_terms keys rest (<[key := v]> o)
           | None => None
           end
    end.
Proof.
  cbn [parse_terms]. destruct (urlBase64 b) as [|c s] eqn:E.
  - apply urlBase64_empty in E. subst b. reflexivity.
  - rewrite <- E, urlBase64_roundtrip.
    destruct b as [|x b]; [discriminate E|reflexivity].
Qed.

Lemma split_dot_join fields :
  fields <> [] ->
  Forall (fun f => includes "." f = false) fields ->
  split "." (join "." fields) = fields.
Proof.
  unfold split. induction fields as [|f fields IH]; [congruence|].
  intros _ H. inversion H as [|? ? Hf Hrest]; subst.
  destruct fields as [|g fields].
  - cbn [join]. rewrite split_dot_last by assumption. reflexivity.
  - change (join "." (f :: g :: fields))
      with (f +:+ "." +:+ join "." (g :: fields)).
    change ("." +:+ join "." (g :: fields))
      with (String "." (join "." (g :: fields))).
    rewrite split_dot_field by assumption.
    rewrite IH by (try discriminate; assumption). reflexivity.
Qed.

Lemma pkBuf_roundtrip b :
  match urlBase64FromBytes b with
  | EmptyString => []
  | _ => Buffer_from_base64 (urlBase64FromBytes b)
  end = b.
Proof.
  change (urlBase64FromBytes b) with (urlBase64 b).
  destruct (urlBase64 b) as [|c s] eqn:E.
  - apply urlBase64_empty in E. congruence.
  - rewrite <- E. apply urlBase64_roundtrip.
Qed.

(** The decoder of the expiry field gives the expiry back. *)
Lemma expiry_field exp :
  0 < exp ->
  Nat.even (String.length (Number_toString 16 exp)) = true ->
  Buffer_from_hex (Number_toString 16 exp) <> []
  /\ parseInt ("0x" +:+ Buffer_toString_hex
                          (Buffer_from_hex (Number_toString 16 exp)))
     = Some exp.
Proof.
  intros Hpos Heven. destruct exp as [|p|p]; try lia.
  unfold Number_toString in *. cbn [Z.to_N] in *.
  assert (Hp : hex_pairs (N_toString 16 (N.pos p)) = true)
    by (apply hex_pairs_even; [apply N_toString_lower_hex|exact Heven]).
  split.
  - apply hex_nonempty; [exact Hp|apply N_toString_nonempty].
  - rewrite hex_roundtrip by exact Hp.
    change ("0x" +:+ N_toString 16 (N.pos p))
      with (String "0" (String "x" (N_toString 16 (N.pos p)))).
    rewrite parseInt_0x, scan_N_toString by lia. reflexivity.
Qed.

(** The fields of a token, decoded one by one. *)
Lemma parse_token_fields hostBuf mb pkb eb metab (m : gmap string MetaVal)
    (extra : list string) :
  hostBuf <> [] -> mb <> [] -> metab <> [] ->
  Buffer_toString_ascii metab <> "" ->
  deserializeMeta (Buffer_toString_ascii metab) = Some m ->
  extra = [] \/ (exists sb, extra = [urlBase64 sb]) ->
  exists o,
    parse_terms termKeys
      ([urlBase64 hostBuf; urlBase64 mb; urlBase64 pkb; urlBase64 eb;
        urlBase64 metab] ++ extra) ∅ = Some o
    /\ o !! "host" = Some (TString (Buffer_toString_ascii hostBuf))
    /\ o !! "muid" = Some (TString (urlBase64 mb))
    /\ o !! "pubkey"
       = match pkb with
         | [] => None
         | _ => Some (TString (Buffer_toString_hex pkb))
         end
    /\ o !! "ts"
       = match eb with
         | [] => None
         | _ => Some (TNumber (parseInt ("0x" +:+ Buffer_toString_hex eb)))
         end
    /\ o !! "meta" = Some (TMeta m).
Proof.
  intros Hh Hm Hx Hxs Hds Hextra. unfold termKeys.
  cbn [app]. rewrite !parse_terms_field.
  destruct hostBuf as [|h0 hostBuf]; [congruence|].
  destruct mb as [|m0 mb]; [congruence|].
  destruct metab as [|x0 metab]; [congruence|].
  destruct (Buffer_toString_ascii (x0 :: metab)) as [|c s];
    [congruence|].
  cbv beta. rewrite Hds.
  cbn [fmap option_fmap option_map].
  destruct Hextra as [->|[sb ->]].
  - destruct pkb as [|p0 pkb], eb as [|e0 eb]; cbn [parse_terms];
      eexists; (split; [reflexivity|]);
      repeat split;
      rewrite ?lookup_insert_ne by discriminate;
      rewrite ?lookup_insert_eq, ?lookup_empty; reflexivity.
  - destruct pkb as [|p0 pkb], eb as [|e0 eb];
      rewrite parse_terms_field;
      destruct sb as [|s0 sb]; cbn [parse_terms];
      eexists; (split; [reflexivity|]);
      repeat split;
      rewrite ?lookup_insert_ne by discriminate;
      rewrite ?lookup_insert_eq, ?lookup_empty; reflexivity.
Qed.


(** ** keysend: validation of the destination *)

Lemma loadLightning_rng env tryProxy owner noCache w :
  rng (loadLightning env tryProxy owner noCache w).2 = rng w.
Proof.
  unfold loadLightning.
  repeat (case_match; simpl; try reflexivity).
Qed.

Lemma loadRouter_rng env w : rng (loadRouter env w).2 = rng w.
Proof.
  unfold loadRouter. repeat (case_match; simpl; try reflexivity).
Qed.

Lemma call_rng req w : rng (call req w).2 = rng w.
Proof. unfold call. repeat (case_match; simpl; try reflexivity). Qed.

Lemma call_stream_rng req w : rng (call_stream req w).2 = rng w.
Proof. unfold call_stream. repeat (case_match; simpl; try reflexivity). Qed.

Lemma keeps_rng_bind {A B} (m : Async A) (k : A -> Async B) :
  keeps_rng m -> (forall a, keeps_rng (k a)) -> keeps_rng (bind m k).
Proof.
  intros Hm Hk w. unfold bind. specialize (Hm w).
  destruct (m w) as [[a|e|] w']; simpl in *; try assumption.
  rewrite Hk. assumption.
Qed.

Lemma keeps_rng_try_catch {A} (m : Async A) (h : Err -> Async A) :
  keeps_rng m -> (forall e, keeps_rng (h e)) -> keeps_rng (try_catch m h).
Proof.
  intros Hm Hh w. unfold try_catch. specialize (Hm w).
  destruct (m w) as [[a|e|] w']; simpl in *; try assumption.
  rewrite Hh. assumption.
Qed.

Lemma keeps_rng_pure {A} (o : Outcome A) : keeps_rng (fun w => (o, w)).
Proof. intros w. reflexivity. Qed.

Create HintDb rng.
#[local] Hint Resolve keeps_rng_pure : rng.
#[local] Hint Extern 1 (keeps_rng (loadLightning _ _ _ _)) =>
  (intros ?; apply loadLightning_rng) : rng.
#[local] Hint Extern 1 (keeps_rng (loadRouter _)) =>
  (intros ?; apply loadRouter_rng) : rng.
#[local] Hint Extern 1 (keeps_rng (call _)) =>
  (intros ?; apply call_rng) : rng.
#[local] Hint Extern 1 (keeps_rng (call_stream _)) =>
  (intros ?; apply call_stream_rng) : rng.
#[local] Hint Extern 1 (keeps_rng (resolve _)) =>
  (intros ?; reflexivity) : rng.
#[local] Hint Extern 1 (keeps_rng (reject _)) =>
  (intros ?; reflexivity) : rng.

Lemma keysend_send_rng env opts owner w :
  rng (keysend_send env opts owner w).2 = S (rng w).
Proof.
  unfold keysend_send.
  match goal with
  | |- rng (?m ?w0).2 = _ =>
      transitivity (rng w0); [|reflexivity];
      generalize w0; change (keeps_rng m)
  end.
  apply keeps_rng_bind; [auto with rng|]. intros c.
  destruct (isProxy env).
  - apply keeps_rng_bind; [auto with rng|]. intros [[e|] [r|]]; auto with rng.
    destruct (negb _); auto with rng.
  - apply keeps_rng_bind; [auto with rng|]. intros c2.
    destruct (isGL env c2).
    + apply keeps_rng_bind; [auto with rng|].
      intros [[e|] [r|]]; auto with rng.
    + apply keeps_rng_bind; [auto with rng|]. intros r.
      apply keeps_rng_bind; auto with rng.
Qed.

(** C6. A destination whose length is not 66 is rejected with the
    invalid-pubkey error and the world is left as it was: no random
    preimage is drawn, no client is resolved, no request is sent. A
    destination of length 66 gets past the check: the [try] block runs,
    which draws the preimage. *)
Theorem keysend_validates_destination env opts owner w :
  (String.length (dest opts) <> 66%nat ->
     keysend env opts owner w
     = (Rejected (EString "keysend: invalid pubkey"), w))
  /\ (String.length (dest opts) = 66%nat ->
        keysend env opts owner w
        = try_catch (keysend_send env opts owner) (fun e => reject e) w
        /\ rng (keysend env opts owner w).2 = S (rng w)).
Proof.
  unfold keysend. split; intros H.
  - apply Nat.eqb_neq in H. rewrite H. reflexivity.
  - rewrite H. simpl. split; [reflexivity|].
    unfold try_catch. pose proof (keysend_send_rng env opts owner w) as Hr.
    destruct (keysend_send env opts owner w) as [[r|e|] w']; exact Hr.
Qed.

Lemma keysend_validates_destination_witness :
  keysend sample_env
    {| amt := 10; dest := "0373ca36"; data := None; route_hint := None;
       extra_tlv := ∅ |} None (start 0 [])
  = (Rejected (EString "keysend: invalid pubkey"), start 0 [])
  /\ rng (keysend sample_env (sample_opts None) None (start 0 [])).2 = 1%nat.
Proof.
  split.
  - apply (proj1 (keysend_validates_destination sample_env
                    {| amt := 10; dest := "0373ca36"; data := None;
                       route_hint := None; extra_tlv := ∅ |}
                    None (start 0 []))).
    simpl. lia.
  - apply (proj2 (keysend_validates_destination sample_env
                    (sample_opts None) None (start 0 []))).
    reflexivity.
Defined.

(** ** loadLightning: the cached client *)



(** ** The wallet lock *)

Lemma run_timers_unlocked w : isLocked w = false -> isLocked (run_timers w) = false.
Proof. intros H. unfold run_timers. case_decide; [assumption|reflexivity]. Qed.

Lemma elapse_unlocked ms w : isLocked w = false -> isLocked (elapse ms w) = false.
Proof. intros H. unfold elapse. apply run_timers_unlocked. exact H. Qed.

Lemma elapse_now ms w : now (elapse ms w) = now w + ms.
Proof. unfold elapse, run_timers. case_decide; reflexivity. Qed.

(** One step of time: a timeout that is due clears the lock, one that is
    not due stays in the queue. *)
Lemma elapse_timer ms w h t :
  timers w !! h = Some t ->
  (t <= now w + ms -> isLocked (elapse ms w) = false)
  /\ (now w + ms < t -> timers (elapse ms w) !! h = Some t).
Proof.
  intros Ht. unfold elapse, run_timers. simpl. split; intros Hle.
  - case_decide as Hd; [|reflexivity].
    exfalso. apply map_empty_filter in Hd.
    specialize (Hd h t Ht). simpl in Hd. lia.
  - case_decide as Hd; simpl; [assumption|].
    apply map_lookup_filter_Some. split; [assumption|]. simpl. lia.
Qed.

Lemma lock_clears steps : forall w,
  Forall (fun ms => 0 <= ms) steps ->
  isLocked w = false
  \/ (exists h t, timers w !! h = Some t /\ now w < t <= now w + total steps) ->
  isLocked (elapse_all steps w) = false.
Proof.
  induction steps as [|ms steps IH]; intros w Hpos H.
  - destruct H as [H|(h & t & _ & Hlt)]; [exact H|]. simpl in Hlt. lia.
  - inversion Hpos as [|? ? Hms Hrest]; subst. simpl. apply IH; [assumption|].
    destruct H as [H|(h & t & Ht & Hlt)].
    + left. apply elapse_unlocked. exact H.
    + simpl in Hlt. destruct (elapse_timer ms w h t Ht) as [Hdue Hkeep].
      destruct (Z_le_gt_dec t (now w + ms)) as [Hle|Hgt].
      * left. auto.
      * right. exists h, t. rewrite elapse_now. split; [apply Hkeep; lia|lia].
Qed.

(** C8. [getLock] right after [setLock value] returns [value]; and once
    two minutes have gone by since that [setLock], in any number of steps
    of the event loop and with no [setLock] in between, [getLock] returns
    [false]. *)
Theorem wallet_lock_expires value w :
  getLock (setLock value w) = value
  /\ forall steps,
       Forall (fun ms => 0 <= ms) steps ->
       1000 * 60 * 2 <= total steps ->
       getLock (elapse_all steps (setLock value w)) = false.
Proof.
  split; [reflexivity|]. intros steps Hpos Hsum. unfold getLock.
  apply lock_clears; [assumption|]. right.
  exists (next_timer w), (now w + 1000 * 60 * 2). split.
  - unfold setLock. simpl. apply lookup_insert_eq.
  - unfold setLock. simpl. lia.
Qed.

Lemma wallet_lock_expires_witness :
  getLock (elapse_all [60000; 60000] (setLock true (start 0 []))) = false.
Proof.
  apply (proj2 (wallet_lock_expires true (start 0 [])) [60000; 60000]).
  - repeat constructor; lia.
  - simpl. lia.
Defined.

(** ** Paginated invoice history *)

Lemma loadLightning_cached env tryProxy owner c w :
  tryProxy && truthy owner = false ->
  lightningClient w = Some c ->
  loadLightning env tryProxy owner false w = (Resolved c, w).
Proof.
  intros Hno Hc. unfold loadLightning.
  replace (tryProxy && isProxy env && truthy owner) with false
    by (destruct tryProxy, (truthy owner), (isProxy env); simpl in *;
        congruence).
  rewrite Hc. reflexivity.
Qed.

Lemma set_lightningClient_same w :
  set_lightningClient (lightningClient w) w = w.
Proof. destruct w. reflexivity. Qed.

(** Without the proxy path, a call that succeeds only fills the cache. *)
Lemma loadLightning_static env owner noCache c w w1 :
  loadLightning env false owner noCache w = (Resolved c, w1) ->
  w1 = set_lightningClient (Some c) w.
Proof.
  unfold loadLightning. simpl.
  repeat case_match; intros Hres; inversion Hres; subst;
    try reflexivity;
    match goal with
    | E : lightningClient ?w = Some ?c |- _ =>
        rewrite <- E; symmetry; apply set_lightningClient_same
    end.
Qed.

Lemma listInvoicesPaginated_reply env limit i c w w1 err response rest :
  loadLightning env false None false w = (Resolved c, w1) ->
  inbox w = Callback err response :: rest ->
  listInvoicesPaginated env limit i w
  = ((match err, response with
      | None, Some r =>
          match r_invoices r with
          | Some _ => Resolved r
          | None => Rejected ENull
          end
      | _, _ => Rejected (or_null err)
      end),
     set_net (outbox w ++ [ListInvoices c limit i true]) rest w1).
Proof.
  intros Hl Hin. unfold listInvoicesPaginated, bind, uncaught, try_catch.
  rewrite Hl. pose proof (loadLightning_static _ _ _ _ _ _ Hl) as ->.
  unfold call. simpl. rewrite Hin.
  destruct err as [e|], response as [r|]; simpl; try reflexivity.
  destruct (r_invoices r); reflexivity.
Qed.

Lemma paginate_walk env c (pages : list (string * list Invoice)) :
  forall depth i w w1 final rest,
    (List.length pages < depth)%nat ->
    loadLightning env false None false w = (Resolved c, w1) ->
    Forall (fun p => offset_positive p.1 = true) pages ->
    inbox w = map (fun p => page_reply p.1 p.2) pages ++ final :: rest ->
    (forall offset items,
        final = page_reply offset items ->
        offset_positive offset = false ->
        paginateInvoices_rec env depth 40 i w
        = (Resolved (concat (map snd pages) ++ items),
           set_net (outbox w
                    ++ page_requests c i (pages ++ [(offset, items)]))
             rest w1))
    /\ (failed_reply final ->
        paginateInvoices_rec env depth 40 i w
        = (Resolved (concat (map snd pages)),
           set_net (outbox w ++ page_requests c i (pages ++ [("", [])]))
             rest w1)).
Proof.
  induction pages as [|[off items0] pages IH];
    intros depth i w w1 final rest Hd Hl Hpos Hin;
    (destruct depth as [|depth]; [simpl in Hd; lia|]).
  - simpl in Hin. split.
    + intros offset items -> Hstop. unfold page_reply in Hin. simpl.
      unfold try_catch, bind.
      rewrite (listInvoicesPaginated_reply _ _ _ _ _ _ _ _ _ Hl Hin). simpl.
      unfold offset_positive in Hstop.
      destruct (parseInt offset) as [o|]; [rewrite Hstop|]; reflexivity.
    + intros Hfail. simpl. unfold try_catch, bind.
      destruct final as [err response|evs]; [|contradiction].
      rewrite (listInvoicesPaginated_reply _ _ _ _ _ _ _ _ _ Hl Hin).
      destruct err as [e|], response as [r|]; simpl in *; try reflexivity.
      rewrite Hfail. reflexivity.
  - inversion Hpos as [|? ? Hoff Hrest]; subst. simpl in Hoff, Hin.
    unfold page_reply at 1 in Hin.
    pose proof (loadLightning_static _ _ _ _ _ _ Hl) as Hw1.
    set (w2 := set_net (outbox w ++ [ListInvoices c 40 i true])
                 (map (fun p => page_reply p.1 p.2) pages ++ final :: rest)
                 w1).
    assert (Hl2 : loadLightning env false None false w2 = (Resolved c, w2)).
    { apply loadLightning_cached; [reflexivity|]. subst w1 w2. reflexivity. }
    unfold offset_positive in Hoff.
    destruct (parseInt off) as [o|] eqn:Eo; [|discriminate].
    destruct (IH depth o w2 w2 final rest) as [IH1 IH2];
      [simpl in Hd; lia|exact Hl2|exact Hrest|reflexivity|].
    split.
    + intros offset items Hf Hstop.
      cbn [paginateInvoices_rec]. unfold try_catch at 1, bind at 1.
      rewrite (listInvoicesPaginated_reply _ _ _ _ _ _ _ _ _ Hl Hin).
      cbn [r_invoices r_first_index_offset default]. rewrite Eo, Hoff.
      fold w2. unfold bind. rewrite (IH1 offset items Hf Hstop).
      unfold resolve. simpl. rewrite Eo. simpl.
      rewrite <- !app_assoc. reflexivity.
    + intros Hfail.
      cbn [paginateInvoices_rec]. unfold try_catch at 1, bind at 1.
      rewrite (listInvoicesPaginated_reply _ _ _ _ _ _ _ _ _ Hl Hin).
      cbn [r_invoices r_first_index_offset default]. rewrite Eo, Hoff.
      fold w2. unfold bind. rewrite (IH2 Hfail).
      unfold resolve. simpl. rewrite Eo. simpl.
      rewrite <- !app_assoc. reflexivity.
Qed.

Lemma loadLightning_inbox env tryProxy owner noCache w :
  inbox (loadLightning env tryProxy owner noCache w).2 = inbox w.
Proof.
  unfold loadLightning.
  repeat (case_match; simpl; try reflexivity).
Qed.

(** A page that arrives takes one reply from the node. *)
Lemma listInvoicesPaginated_inbox env limit i w r w' :
  listInvoicesPaginated env limit i w = (Resolved r, w') ->
  List.length (inbox w) = S (List.length (inbox w')).
Proof.
  unfold listInvoicesPaginated, bind, uncaught, try_catch.
  pose proof (loadLightning_inbox env false None false w) as Hin.
  destruct (loadLightning env false None false w) as [[c|e|] w1];
    cbn [snd] in Hin; try discriminate.
  unfold call. rewrite Hin.
  destruct (inbox w) as [|[err response|evs] rest]; try discriminate.
  cbn. destruct err as [e|], response as [resp|]; try discriminate.
  destruct (r_invoices resp); [|discriminate].
  intros H. injection H as _ <-. reflexivity.
Qed.

(** The depth that [paginateInvoices] starts with is never used up: any
    depth above the number of replies gives the same run. *)
Lemma paginateInvoices_depth env limit : forall d1 d2 i w,
  (List.length (inbox w) < d1)%nat ->
  (List.length (inbox w) < d2)%nat ->
  paginateInvoices_rec env d1 limit i w
  = paginateInvoices_rec env d2 limit i w.
Proof.
  induction d1 as [|d1 IH]; intros d2 i w H1 H2; [lia|].
  destruct d2 as [|d2]; [lia|].
  cbn [paginateInvoices_rec]. unfold try_catch, bind.
  destruct (listInvoicesPaginated env limit i w) as [[r|e|] w'] eqn:E;
    try reflexivity.
  apply listInvoicesPaginated_inbox in E.
  destruct (parseInt (r_first_index_offset r)) as [o|]; [|reflexivity].
  destruct (0 <? o); [|reflexivity].
  rewrite (IH d2 o w') by lia. reflexivity.
Qed.

(** C3. When a client can be had and the node answers with the pages
    [pages], each with a positive offset, and then with [final]:
    - if [final] is a page whose offset is not positive, [listAllInvoices]
      returns the invoices of all pages, [final] included, in the order
      they came in;
    - if [final] is a failure, [listAllInvoices] still succeeds and returns
      the invoices of the pages before it.
    In both cases every request asked for 40 invoices, the first at offset
    0 and each next one at the offset returned by the page before. *)
Theorem listAllInvoices_walks_pages env c w w1
    (pages : list (string * list Invoice)) final rest :
  loadLightning env false None false w = (Resolved c, w1) ->
  Forall (fun p => offset_positive p.1 = true) pages ->
  inbox w = map (fun p => page_reply p.1 p.2) pages ++ final :: rest ->
  (forall offset items,
      final = page_reply offset items ->
      offset_positive offset = false ->
      listAllInvoices env w
      = (Resolved (concat (map snd pages) ++ items),
         set_net (outbox w ++ page_requests c 0 (pages ++ [(offset, items)]))
           rest w1))
  /\ (failed_reply final ->
      listAllInvoices env w
      = (Resolved (concat (map snd pages)),
         set_net (outbox w ++ page_requests c 0 (pages ++ [("", [])]))
           rest w1)).
Proof.
  intros Hl Hpos Hin. unfold listAllInvoices, paginateInvoices.
  apply paginate_walk; try assumption.
  rewrite Hin, length_app, length_map. simpl. lia.
Qed.

Lemma listAllInvoices_walks_pages_witness :
  (listAllInvoices sample_env
     (start 0 [page_reply "40" (sample_invoices 0 40);
               page_reply "0" (sample_invoices 40 12)])).1
  = Resolved (sample_invoices 0 40 ++ sample_invoices 40 12)
  /\ List.length (sample_invoices 0 40 ++ sample_invoices 40 12) = 52%nat
  /\ (listAllInvoices sample_env
        (start 0 [page_reply "40" (sample_invoices 0 40);
                  Callback (Some (EService 14 "unavailable")) None])).1
     = Resolved (sample_invoices 0 40).
Proof.
  pose (c := LndClient "localhost:10009"
               (CombinedCredentials (SslCredentials [] None None) "macaroon")).
  split; [|split].
  - destruct (listAllInvoices_walks_pages sample_env c
                (start 0 [page_reply "40" (sample_invoices 0 40);
                          page_reply "0" (sample_invoices 40 12)])
                (set_lightningClient (Some c)
                   (start 0 [page_reply "40" (sample_invoices 0 40);
                             page_reply "0" (sample_invoices 40 12)]))
                [("40", sample_invoices 0 40)]
                (page_reply "0" (sample_invoices 40 12)) []) as [Hpage _].
    + reflexivity.
    + repeat constructor.
    + reflexivity.
    + rewrite (Hpage "0" (sample_invoices 40 12) eq_refl eq_refl).
      reflexivity.
  - reflexivity.
  - destruct (listAllInvoices_walks_pages sample_env c
                (start 0 [page_reply "40" (sample_invoices 0 40);
                          Callback (Some (EService 14 "unavailable")) None])
                (set_lightningClient (Some c)
                   (start 0 [page_reply "40" (sample_invoices 0 40);
                             Callback (Some (EService 14 "unavailable"))
                               None]))
                [("40", sample_invoices 0 40)]
                (Callback (Some (EService 14 "unavailable")) None) [])
      as [_ Hfail].
    + reflexivity.
    + repeat constructor.
    + reflexivity.
    + rewrite (Hfail I). reflexivity.
Defined.

(** ** Signing and verifying *)

(** C7 (the code departs from it). A character whose code is below 16 is
    transcoded to one hex digit, not to a pair: for a line feed followed by
    [hi] the wrapper hands the two octets [a6 86] to the byte-level
    operation, where the hex encoding of the text is [0a 68 69]; and the
    texts [hi] and [hi] followed by a line feed are signed as the same
    octets. *)
Theorem ascii_to_hexa_short_digit :
  ascii_to_hexa (String (chr 10) "hi") = "a6869"
  /\ Buffer_toString_hex (Buffer_from_ascii (String (chr 10) "hi")) = "0a6869"
  /\ Buffer_from_hex (ascii_to_hexa (String (chr 10) "hi"))
     = [chr 166; chr 134]
  /\ (forall env owner w,
        signAscii env ("hi" +:+ String (chr 10) "") owner w
        = signAscii env "hi" owner w).
Proof.
  split; [reflexivity|]. split; [reflexivity|]. split; [reflexivity|].
  intros env owner w. reflexivity.
Qed.

(** On characters with a code from 16 up the wrapper does produce the hex
    encoding of the text. *)
Lemma hex_of_code c :
  (16 <= code c)%N -> Number_toString 16 (Z.of_N (code c)) = hex2 c.
Proof.
  destruct c as [[] [] [] [] [] [] [] []]; vm_compute; intros H;
    try reflexivity; exfalso; apply H; reflexivity.
Qed.

Lemma ascii_to_hexa_pairs s :
  Forall (fun c => (16 <= code c)%N) (list_ascii_of_string s) ->
  ascii_to_hexa s = Buffer_toString_hex (Buffer_from_ascii s).
Proof.
  unfold ascii_to_hexa, Buffer_from_ascii.
  induction (list_ascii_of_string s) as [|c l IH]; intros H; [reflexivity|].
  inversion H as [|? ? Hc Hl]; subst. specialize (IH Hl).
  cbn [map Buffer_toString_hex]. rewrite <- IH, hex_of_code by assumption.
  destruct l; [|reflexivity]. simpl. unfold hex2. reflexivity.
Qed.

(** C9. With the greenlight backend [verifyMessage] never resolves with
    [valid] false; and when the branch is reached (the client is there)
    and none of its steps throws (the zbase32 decoding, the reading of the
    recovery octet, the recovery of the key), it resolves with [valid]
    true and the recovered key in hex, whatever key that is. *)
Theorem verifyMessage_greenlight_always_valid env msg sig owner w :
  IS_GREENLIGHT env = true ->
  (forall r w', verifyMessage env msg sig owner w = (Resolved r, w') ->
     exists pubkey, r = RVerify true pubkey)
  /\ (forall c w1 fullBytes byte0 pk,
        loadLightning env true owner false w = (Resolved c, w1) ->
        zbase32_decode env sig = inr fullBytes ->
        readUInt8 (subarray 0 1 fullBytes) = inr byte0 ->
        secp256k1_recover env
          (sha256 env
             (sha256 env
                (Buffer_concat [prefixBytes; Buffer_from_hex msg]
                   (List.length (Buffer_from_hex msg)
                    + List.length prefixBytes))))
          (skipn 1 fullBytes) (byte0 - 31) true = inr pk ->
        verifyMessage env msg sig owner w
        = (Resolved (RVerify true (Buffer_toString_hex pk)), w1)).
Proof.
  intros Hgl. unfold verifyMessage, try_catch, bind. rewrite Hgl. split.
  - intros r w'.
    destruct (loadLightning env true owner false w) as [[c|e|] w1];
      try discriminate.
    unfold lift.
    destruct (zbase32_decode env sig) as [e|full]; [discriminate|].
    unfold resolve at 1.
    destruct (readUInt8 (subarray 0 1 full)) as [e|b0]; [discriminate|].
    unfold resolve at 1.
    destruct (secp256k1_recover _ _ _ _ _) as [e|pk]; [discriminate|].
    unfold resolve. intros H. inversion H. eauto.
  - intros c w1 fullBytes byte0 pk Hl Hd Hb Hr. rewrite Hl. unfold lift.
    rewrite Hd. unfold resolve at 1. rewrite Hb. unfold resolve at 1.
    rewrite Hr. reflexivity.
Qed.

Lemma verifyMessage_greenlight_always_valid_witness :
  verifyMessage greenlight_env "6869" "20aabb" None (start 0 [])
  = (Resolved (RVerify true "aabb"),
     set_lightningClient
       (Some (GreenlightNode "greenlight.example:2601"
                (SslCredentials [] (Some []) (Some []))))
       (start 0 [])).
Proof.
  apply (proj2 (verifyMessage_greenlight_always_valid greenlight_env
                  "6869" "20aabb" None (start 0 []) eq_refl)
           (GreenlightNode "greenlight.example:2601"
              (SslCredentials [] (Some []) (Some [])))
           _ [chr 32; chr 170; chr 187] 32 [chr 170; chr 187]).
  - reflexivity.
  - reflexivity.
  - reflexivity.
  - reflexivity.
Defined.

(** ** keysend: what a call sends *)

Lemma loadLightning_outbox env tryProxy owner noCache w :
  outbox (loadLightning env tryProxy owner noCache w).2 = outbox w.
Proof.
  unfold loadLightning.
  repeat (case_match; simpl; try reflexivity).
Qed.

Lemma loadRouter_outbox env w : outbox (loadRouter env w).2 = outbox w.
Proof.
  unfold loadRouter. repeat (case_match; simpl; try reflexivity).
Qed.

Lemma call_outbox req w : outbox (call req w).2 = outbox w ++ [req].
Proof. unfold call. repeat (case_match; simpl; try reflexivity). Qed.

Lemma call_stream_outbox req w :
  outbox (call_stream req w).2 = outbox w ++ [req].
Proof. unfold call_stream. repeat (case_match; simpl; try reflexivity). Qed.

(** What [keysend] sends, by backend. *)
Lemma keysend_send_outbox env opts owner w :
  let o := keysend_options env opts (randomBytes env (rng w)) in
  exists reqs,
    outbox (keysend_send env opts owner w).2 = outbox w ++ reqs
    /\ (reqs = []
        \/ (exists c, reqs = [SendPaymentSync c (with_fee_limit o)]
                      /\ isProxy env = true)
        \/ (exists c, reqs = [GreenlightKeysend c o]
                      /\ isProxy env = false /\ IS_GREENLIGHT env = true)
        \/ (exists c, reqs = [SendPaymentV2 c (with_router_limits o)]
                      /\ isProxy env = false /\ IS_GREENLIGHT env = false)).
Proof.
  intros o. unfold keysend_send. fold o.
  set (w0 := set_rng (S (rng w)) w).
  assert (H0 : outbox w0 = outbox w) by reflexivity.
  unfold bind at 1.
  pose proof (loadLightning_outbox env true owner false w0) as H1.
  destruct (loadLightning env true owner false w0) as [[c|e|] w1];
    cbn [snd] in H1;
    [|exists []; cbn [snd]; rewrite app_nil_r; split; [congruence|auto]..].
  destruct (isProxy env) eqn:Hp.
  - exists [SendPaymentSync c (with_fee_limit o)]. split; [|eauto 6].
    unfold bind.
    pose proof (call_outbox (SendPaymentSync c (with_fee_limit o)) w1) as H2.
    destruct (call (SendPaymentSync c (with_fee_limit o)) w1)
      as [[[err resp]|e|] w2]; cbn [snd] in H2 |- *;
      [|congruence..].
    destruct err, resp; try (cbn; congruence).
    destruct (negb _); cbn; congruence.
  - unfold bind at 1.
    pose proof (loadLightning_outbox env false owner false w1) as H2.
    destruct (loadLightning env false owner false w1) as [[c2|e|] w2];
      cbn [snd] in H2;
      [|exists []; cbn [snd]; rewrite app_nil_r; split; [congruence|auto]..].
    unfold isGL. destruct (IS_GREENLIGHT env) eqn:Hg.
    + exists [GreenlightKeysend c2 o]. split; [|eauto 8].
      unfold bind.
      pose proof (call_outbox (GreenlightKeysend c2 o) w2) as H3.
      destruct (call (GreenlightKeysend c2 o) w2)
        as [[[err resp]|e|] w3]; cbn [snd] in H3 |- *;
        [|congruence..].
      destruct err, resp; cbn; congruence.
    + unfold bind at 1.
      pose proof (loadRouter_outbox env w2) as H3.
      destruct (loadRouter env w2) as [[r|e|] w3]; cbn [snd] in H3;
        [|exists []; cbn [snd]; rewrite app_nil_r; split; [congruence|auto]..].
      exists [SendPaymentV2 r (with_router_limits o)]. split; [|eauto 8].
      unfold bind.
      pose proof (call_stream_outbox
                    (SendPaymentV2 r (with_router_limits o)) w3) as H4.
      destruct (call_stream (SendPaymentV2 r (with_router_limits o)) w3)
        as [[evs|e|] w4]; cbn [snd] in H4 |- *; congruence.
Qed.

Lemma sent_by_app {A} (m : Async A) w reqs :
  outbox (m w).2 = outbox w ++ reqs -> sent_by m w = reqs.
Proof.
  intros H. unfold sent_by. rewrite H. apply drop_app_length.
Qed.

Lemma elapse_frame ms w :
  lightningClient (elapse ms w) = lightningClient w
  /\ routerClient (elapse ms w) = routerClient w
  /\ rng (elapse ms w) = rng w
  /\ outbox (elapse ms w) = outbox w
  /\ inbox (elapse ms w) = inbox w.
Proof.
  unfold elapse, run_timers. case_decide; repeat split; reflexivity.
Qed.

(** What a [keysend] that gets past the check of the destination sends,
    and that it has sent its request when it is fulfilled. *)
Lemma keysend_send_wire env opts owner w :
  let o := keysend_options env opts (randomBytes env (rng w)) in
  exists reqs,
    outbox (keysend_send env opts owner w).2 = outbox w ++ reqs
    /\ (reqs = [] \/ exists req, reqs = [req] /\ carries o req)
    /\ ((exists r, (keysend_send env opts owner w).1 = Resolved r) ->
        reqs <> []).
Proof.
  intros o.
  destruct (keysend_send env opts owner w) as [out wf] eqn:E. cbn [fst snd].
  unfold keysend_send in E. fold o in E.
  set (w0 := set_rng (S (rng w)) w) in E.
  assert (H0 : outbox w0 = outbox w) by reflexivity.
  assert (Hnone : forall e' : Outcome Response, (forall r, e' <> Resolved r) ->
            forall w', outbox w' = outbox w -> (e', w') = (out, wf) ->
            exists reqs,
              outbox wf = outbox w ++ reqs
              /\ (reqs = [] \/ exists req, reqs = [req] /\ carries o req)
              /\ ((exists r, out = Resolved r) -> reqs <> [])).
  { intros e' He' w' Hw' Heq. injection Heq as <- <-. exists [].
    rewrite app_nil_r. split; [exact Hw'|]. split; [auto|].
    intros (r & Hr). destruct (He' r Hr). }
  assert (Hone : forall req (out' : Outcome Response) w',
            carries o req -> outbox w' = outbox w ++ [req] ->
            (out', w') = (out, wf) ->
            exists reqs,
              outbox wf = outbox w ++ reqs
              /\ (reqs = [] \/ exists req, reqs = [req] /\ carries o req)
              /\ ((exists r, out = Resolved r) -> reqs <> [])).
  { intros req out' w' Hc Hw' Heq. injection Heq as <- <-. exists [req].
    split; [exact Hw'|]. split; [eauto|]. discriminate. }
  unfold bind in E at 1.
  pose proof (loadLightning_outbox env true owner false w0) as H1.
  destruct (loadLightning env true owner false w0) as [[c|e|] w1];
    cbn [snd] in H1;
    [|eapply Hnone; [|..|exact E]; [discriminate|congruence]..].
  destruct (isProxy env) eqn:Hp.
  - unfold bind in E.
    pose proof (call_outbox (SendPaymentSync c (with_fee_limit o)) w1) as H2.
    assert (Hc : carries o (SendPaymentSync c (with_fee_limit o)))
      by (exists c; auto).
    destruct (call (SendPaymentSync c (with_fee_limit o)) w1)
      as [[[err resp]|e|] w2]; cbn [snd] in H2;
      [|eapply (Hone _ _ _ Hc); [|exact E]; congruence..].
    destruct err, resp; try (eapply (Hone _ _ _ Hc); [|exact E]; congruence).
    destruct (negb _); eapply (Hone _ _ _ Hc); [|exact E| |exact E];
      congruence.
  - unfold bind in E at 1.
    pose proof (loadLightning_outbox env false owner false w1) as H2.
    destruct (loadLightning env false owner false w1) as [[c2|e|] w2];
      cbn [snd] in H2;
      [|eapply Hnone; [|..|exact E]; [discriminate|congruence]..].
    unfold isGL in E. destruct (IS_GREENLIGHT env) eqn:Hg.
    + unfold bind in E.
      pose proof (call_outbox (GreenlightKeysend c2 o) w2) as H3.
      assert (Hc : carries o (GreenlightKeysend c2 o)) by (exists c2; auto).
      destruct (call (GreenlightKeysend c2 o) w2)
        as [[[err resp]|e|] w3]; cbn [snd] in H3;
        [|eapply (Hone _ _ _ Hc); [|exact E]; congruence..].
      destruct err, resp; eapply (Hone _ _ _ Hc); [|exact E| |exact E
        | |exact E| |exact E]; congruence.
    + unfold bind in E at 1.
      pose proof (loadRouter_outbox env w2) as H3.
      destruct (loadRouter env w2) as [[r|e|] w3]; cbn [snd] in H3;
        [|eapply Hnone; [|..|exact E]; [discriminate|congruence]..].
      unfold bind in E.
      pose proof (call_stream_outbox
                    (SendPaymentV2 r (with_router_limits o)) w3) as H4.
      assert (Hc : carries o (SendPaymentV2 r (with_router_limits o)))
        by (exists r; auto).
      destruct (call_stream (SendPaymentV2 r (with_router_limits o)) w3)
        as [[evs|e|] w4]; cbn [snd] in H4;
        eapply (Hone _ _ _ Hc); [|exact E| |exact E| |exact E]; congruence.
Qed.

(** Past the check of the destination, [keysend] is its [try] block: the
    handler rejects with the error it caught. *)
Lemma keysend_try env opts owner w :
  String.length (dest opts) = 66%nat ->
  keysend env opts owner w = keysend_send env opts owner w.
Proof.
  intros H. unfold keysend. rewrite H. cbn [Nat.eqb negb].
  unfold try_catch.
  destruct (keysend_send env opts owner w) as [[r|e|] w']; reflexivity.
Qed.

Lemma keysend_wire env opts owner w :
  String.length (dest opts) = 66%nat ->
  rng (keysend env opts owner w).2 = S (rng w)
  /\ exists reqs,
       outbox (keysend env opts owner w).2 = outbox w ++ reqs
       /\ (reqs = []
           \/ exists req,
                reqs = [req]
                /\ carries
                     (keysend_options env opts (randomBytes env (rng w))) req)
       /\ ((exists r, (keysend env opts owner w).1 = Resolved r) ->
           reqs <> []).
Proof.
  intros H. rewrite (keysend_try env opts owner w H).
  split; [apply keysend_send_rng|apply keysend_send_wire].
Qed.

(** ** keysendMessage *)

(** The loop over the chunks never rejects, and it stays unsettled exactly
    when one of its keysends does. *)
Lemma weave_loop_pending env opts owner ts n todo : forall v w,
  (forall e, (weave_loop env opts owner ts n todo v w).1 <> Rejected e)
  /\ ((weave_loop env opts owner ts n todo v w).1 = Pending
      <-> In Pending (chunk_outcomes env opts owner ts n todo w)).
Proof.
  induction todo as [|i rest IH]; intros v w.
  - simpl. split; [discriminate|]. split; [discriminate|intros []].
  - cbn [chunk_outcomes weave_loop].
    destruct (keysend env (weave_chunk env opts ts n i) owner w)
      as [[r|e|] w1].
    + unfold bind, sleep.
      destruct (IH {| success := true; fail := fail v; res := Some r |}
                  (elapse 432 w1)) as [Hrej Hpen].
      destruct (weave_loop env opts owner ts n rest
                  {| success := true; fail := fail v; res := Some r |}
                  (elapse 432 w1)) as [[v'|e'|] w2]; cbn [fst] in *.
      * split; [discriminate|]. split; [discriminate|].
        intros [H|H]; [discriminate|]. apply Hpen in H. discriminate.
      * destruct (Hrej e' eq_refl).
      * split; [discriminate|].
        split; [intros _; right; apply Hpen|]; reflexivity.
    + destruct (IH {| success := success v; fail := true; res := res v |}
                  w1) as [Hrej Hpen].
      split; [exact Hrej|]. rewrite Hpen.
      split; [intros H; right; exact H|intros [H|H]; [discriminate|exact H]].
    + split; [discriminate|]. split; [intros _; left|]; reflexivity.
Qed.

(** The loop over the chunks, when every keysend settles: all of them are
    made, and the three variables end as the flags of the outcomes. *)
Lemma weave_loop_outcomes env opts owner ts n todo : forall v w,
  forallb settled (chunk_outcomes env opts owner ts n todo w) = true ->
  List.length (chunk_outcomes env opts owner ts n todo w) = List.length todo
  /\ (weave_loop env opts owner ts n todo v w).1
     = Resolved
         {| success :=
              success v
              || existsb succeeded
                   (chunk_outcomes env opts owner ts n todo w);
            fail :=
              fail v
              || existsb failed (chunk_outcomes env opts owner ts n todo w);
            res :=
              last_response (chunk_outcomes env opts owner ts n todo w)
                (res v) |}.
Proof.
  induction todo as [|i rest IH]; intros v w Hs.
  - simpl. rewrite !orb_false_r. destruct v. split; reflexivity.
  - cbn [chunk_outcomes weave_loop] in *.
    destruct (keysend env (weave_chunk env opts ts n i) owner w)
      as [[r|e|] w1].
    + cbn [forallb settled andb] in Hs.
      unfold bind, sleep.
      destruct (IH {| success := true; fail := fail v; res := Some r |}
                  (elapse 432 w1) Hs) as [Hlen Hres].
      split; [simpl; rewrite Hlen; reflexivity|].
      rewrite Hres. cbn [existsb succeeded failed last_response fold_left
                         success fail res orb].
      rewrite orb_true_r. reflexivity.
    + cbn [forallb settled andb] in Hs.
      destruct (IH {| success := success v; fail := true; res := res v |}
                  w1 Hs) as [Hlen Hres].
      split; [simpl; rewrite Hlen; reflexivity|].
      rewrite Hres. cbn [existsb succeeded failed last_response fold_left
                         success fail res orb].
      rewrite orb_true_r. reflexivity.
    + discriminate.
Qed.

(** What the loop leaves behind when every keysend settles and the
    destination has 66 characters: one preimage drawn for each chunk, and
    for each chunk, in order, at most the one request that carries its
    options, which has gone out if the chunk succeeded. The [i]-th chunk
    is paid under the preimage of index [base + i]. *)
Lemma weave_loop_sent env opts owner ts n base :
  String.length (dest opts) = 66%nat ->
  forall len from v w,
    rng w = (base + from)%nat ->
    forallb settled (chunk_outcomes env opts owner ts n (seq from len) w)
    = true ->
    rng (weave_loop env opts owner ts n (seq from len) v w).2
    = (base + from + len)%nat
    /\ exists sents,
         outbox (weave_loop env opts owner ts n (seq from len) v w).2
         = outbox w ++ concat sents
         /\ Forall3
              (fun i out reqs =>
                 (reqs = []
                  \/ exists req,
                       reqs = [req]
                       /\ carries
                            (keysend_options env (weave_chunk env opts ts n i)
                               (randomBytes env (base + i)%nat))
                            req)
                 /\ (succeeded out = true -> reqs <> []))
              (seq from len)
              (chunk_outcomes env opts owner ts n (seq from len) w)
              sents.
Proof.
  intros Hdest.
  induction len as [|len IH]; intros from v w Hrng Hs.
  - cbn. split; [lia|]. exists []. split; [symmetry; apply app_nil_r|].
    constructor.
  - cbn [seq chunk_outcomes weave_loop] in *.
    destruct (keysend_wire env (weave_chunk env opts ts n from) owner w Hdest)
      as (Hr & reqs & Hout & Hreqs & Hsent).
    rewrite Hrng in Hreqs.
    destruct (keysend env (weave_chunk env opts ts n from) owner w)
      as [[r|e|] w1]; cbn [fst snd] in Hr, Hout, Hsent;
      [| |discriminate].
    + cbn [forallb settled andb] in Hs. unfold bind, sleep.
      destruct (elapse_frame 432 w1) as (_ & _ & F3 & F4 & _).
      destruct (IH (S from)
                  {| success := true; fail := fail v; res := Some r |}
                  (elapse 432 w1)) as (Hrng' & sents & Hout' & Hall);
        [rewrite F3, Hr, Hrng; lia|exact Hs|].
      split; [rewrite Hrng'; lia|].
      exists (reqs :: sents). split.
      * rewrite Hout', F4, Hout. cbn [concat]. symmetry; apply app_assoc.
      * constructor; [|exact Hall]. split; [exact Hreqs|].
        intros _. apply Hsent. eauto.
    + cbn [forallb settled andb] in Hs.
      destruct (IH (S from)
                  {| success := success v; fail := true; res := res v |}
                  w1) as (Hrng' & sents & Hout' & Hall);
        [rewrite Hr, Hrng; lia|exact Hs|].
      split; [rewrite Hrng'; lia|].
      exists (reqs :: sents). split.
      * rewrite Hout', Hout. cbn [concat]. symmetry; apply app_assoc.
      * constructor; [|exact Hall]. split; [exact Hreqs|]. discriminate.
Qed.

(** From 972 characters on, the state that [keysendMessage] leaves is the
    state that its loop leaves, and its outcome is read off the variables
    of the loop. *)
Lemma keysendMessage_weave env opts owner w d :
  data opts = Some d ->
  (MAX_MSG_LENGTH <= String.length d)%nat ->
  let n := ceil_div (String.length d) MAX_MSG_LENGTH in
  keysendMessage env opts owner w
  = bind (weave_loop env opts owner (now w) n (seq 0 n) weave_start)
      weave_end w
  /\ (keysendMessage env opts owner w).2
     = (weave_loop env opts owner (now w) n (seq 0 n) weave_start w).2.
Proof.
  intros Hd Hlen n.
  assert (Hrun : keysendMessage env opts owner w
                 = bind (weave_loop env opts owner (now w) n (seq 0 n)
                           weave_start) weave_end w).
  { unfold keysendMessage. rewrite Hd.
    destruct d as [|x d']; [simpl in Hlen; unfold MAX_MSG_LENGTH in Hlen; lia|].
    apply Nat.ltb_ge in Hlen. rewrite Hlen. reflexivity. }
  split; [exact Hrun|]. rewrite Hrun. unfold bind.
  destruct (weave_loop env opts owner (now w) n (seq 0 n) weave_start w)
    as [[v|e|] w']; try reflexivity.
  unfold weave_end. destruct (success v && negb (fail v)); reflexivity.
Qed.

Lemma settled_all {A} (outs : list (Outcome A)) :
  (forall o, In o outs -> o <> Pending) -> forallb settled outs = true.
Proof.
  intros Hset. apply forallb_forall. intros o Ho. specialize (Hset o Ho).
  destruct o; [reflexivity|reflexivity|congruence].
Qed.

Lemma last_response_all_succeeded outs : forall before,
  existsb failed outs = false ->
  forallb settled outs = true ->
  outs <> [] ->
  exists r, last outs = Some (Resolved r)
            /\ last_response outs before = Some r.
Proof.
  induction outs as [|o outs IH]; intros before Hf Hs Hne; [congruence|].
  destruct o as [r|e|]; simpl in Hf, Hs; try discriminate.
  destruct outs as [|o' outs'].
  - exists r. split; reflexivity.
  - destruct (IH (Some r) Hf Hs ltac:(discriminate)) as (r' & Hl & Hr).
    exists r'. split; [exact Hl|exact Hr].
Qed.

Lemma ceil_div_pos a b : (0 < b)%nat -> (0 < a)%nat -> (0 < ceil_div a b)%nat.
Proof.
  intros Hb Ha. unfold ceil_div.
  destruct (a mod b =? 0)%nat eqn:E; [|lia].
  apply Nat.eqb_eq in E.
  pose proof (Nat.div_mod_eq a b). 
  destruct (a / b)%nat; lia.
Qed.

(** C1 (amended). For a payload of 972 characters or more, with [outs] the
    outcomes of the chunk keysends in the states the loop reaches:
    [keysendMessage] stays unsettled exactly when a chunk keysend does.
    When each of them settles, all [n] are made, whatever some of them
    report: with a destination of 66 characters [n] preimages are drawn,
    and what has gone out is, chunk by chunk and in order, at most the one
    request that carries the options of the chunk, which is there for
    every chunk that succeeded. The promise is then fulfilled exactly when
    some chunk succeeded and none failed, and then with the response of
    the last chunk; it is fulfilled when every chunk succeeded; it is
    rejected with [fail] as soon as one chunk failed, wherever that chunk
    is. *)
Theorem keysendMessage_weave_result env opts owner w d :
  data opts = Some d ->
  (MAX_MSG_LENGTH <= String.length d)%nat ->
  let n := ceil_div (String.length d) MAX_MSG_LENGTH in
  let outs := chunk_outcomes env opts owner (now w) n (seq 0 n) w in
  ((keysendMessage env opts owner w).1 = Pending <-> In Pending outs)
  /\ ((forall o, In o outs -> o <> Pending) ->
      List.length outs = n
      /\ (String.length (dest opts) = 66%nat ->
          rng (keysendMessage env opts owner w).2 = (rng w + n)%nat
          /\ exists sents,
               sent_by (keysendMessage env opts owner) w = concat sents
               /\ Forall3
                    (fun i out reqs =>
                       (reqs = []
                        \/ exists req,
                             reqs = [req]
                             /\ carries
                                  (keysend_options env
                                     (weave_chunk env opts (now w) n i)
                                     (randomBytes env (rng w + i)%nat))
                                  req)
                       /\ (succeeded out = true -> reqs <> []))
                    (seq 0 n) outs sents)
      /\ ((exists r, (keysendMessage env opts owner w).1 = Resolved r)
          <-> (exists r, In (Resolved r) outs)
              /\ (forall e, ~ In (Rejected e) outs))
      /\ (forall r, (keysendMessage env opts owner w).1 = Resolved r ->
            exists r', r = Some r' /\ last outs = Some (Resolved r'))
      /\ ((forall o, In o outs -> exists r, o = Resolved r) ->
          exists r, (keysendMessage env opts owner w).1 = Resolved (Some r))
      /\ ((exists e, In (Rejected e) outs) ->
          (keysendMessage env opts owner w).1 = Rejected (EError "fail"))).
Proof.
  intros Hd Hlen n outs.
  destruct (keysendMessage_weave env opts owner w d Hd Hlen) as [Hkm Hw].
  fold n in Hkm, Hw.
  split.
  { destruct (weave_loop_pending env opts owner (now w) n (seq 0 n)
                weave_start w) as [_ Hpen].
    fold outs in Hpen. rewrite <- Hpen, Hkm. unfold bind.
    destruct (weave_loop env opts owner (now w) n (seq 0 n) weave_start w)
      as [[v|e|] w']; cbn [fst].
    - unfold weave_end.
      destruct (success v && negb (fail v)); split; discriminate.
    - split; discriminate.
    - split; reflexivity. }
  intros Hset.
  assert (Hs : forallb settled outs = true) by (apply settled_all; exact Hset).
  assert (Hn : (0 < n)%nat).
  { apply ceil_div_pos; unfold MAX_MSG_LENGTH in *; lia. }
  destruct (weave_loop_outcomes env opts owner (now w) n (seq 0 n)
              weave_start w Hs) as [Hlen' Hloop].
  fold outs in Hlen', Hloop. rewrite length_seq in Hlen'.
  assert (Hne : outs <> []).
  { intros E. rewrite E in Hlen'. simpl in Hlen'. lia. }
  assert (Hrun : (keysendMessage env opts owner w).1
                 = if existsb succeeded outs && negb (existsb failed outs)
                   then Resolved (last_response outs None)
                   else Rejected (EError "fail")).
  { rewrite Hkm. unfold bind.
    destruct (weave_loop env opts owner (now w) n (seq 0 n) weave_start w)
      as [[v|e|] w']; simpl in Hloop; try discriminate.
    injection Hloop as ->. unfold weave_end. simpl.
    destruct (existsb succeeded outs && negb (existsb failed outs));
      reflexivity. }
  assert (Hsucc : existsb succeeded outs = true
                  <-> exists r, In (Resolved r) outs).
  { rewrite existsb_exists. split.
    - intros ([r|e|] & Hin & Ho); try discriminate. eauto.
    - intros (r & Hin). exists (Resolved r). split; [assumption|reflexivity]. }
  assert (Hfail : existsb failed outs = true
                  <-> exists e, In (Rejected e) outs).
  { rewrite existsb_exists. split.
    - intros ([r|e|] & Hin & Ho); try discriminate. eauto.
    - intros (e & Hin). exists (Rejected e). split; [assumption|reflexivity]. }
  split; [exact Hlen'|]. split.
  { intros Hdest.
    destruct (weave_loop_sent env opts owner (now w) n (rng w) Hdest
                n 0%nat weave_start w) as (Hrng & sents & Hout & Hall);
      [lia|exact Hs|].
    rewrite Hw. split; [rewrite Hrng; lia|].
    exists sents. split; [|exact Hall].
    apply sent_by_app. rewrite Hw. exact Hout. }
  rewrite Hrun.
  destruct (existsb failed outs) eqn:Ef.
  - (* some chunk failed *)
    rewrite andb_false_r.
    destruct (proj1 Hfail eq_refl) as (e & He).
    split; [|split; [|split]].
    + split; [intros (r & Hr); discriminate|].
      intros (_ & Hno). exfalso. exact (Hno e He).
    + intros r Hr. discriminate.
    + intros Hall. destruct (Hall _ He) as (r & Hr). discriminate.
    + intros _. reflexivity.
  - (* no chunk failed: all succeeded *)
    destruct (last_response_all_succeeded outs None Ef Hs Hne)
      as (rl & Hlast & Hresp).
    assert (Hex : existsb succeeded outs = true).
    { apply Hsucc. exists rl.
      destruct (exists_last Hne) as (l' & a & E).
      rewrite E in Hlast |- *. rewrite last_snoc in Hlast.
      injection Hlast as ->. apply in_or_app. right. left. reflexivity. }
    rewrite Hex, Hresp. simpl.
    split; [|split; [|split]].
    + split; [|intros _; eauto].
      intros _. split; [apply Hsucc; exact Hex|].
      intros e He.
      pose proof (proj2 Hfail (ex_intro _ e He)). discriminate.
    + intros r Hr. injection Hr as <-. eauto.
    + intros _. eauto.
    + intros (e & He).
      pose proof (proj2 Hfail (ex_intro _ e He)). discriminate.
Qed.

Lemma keysendMessage_weave_result_witness :
  (keysendMessage sample_env (sample_opts (Some (sample_payload 1944))) None
     (start 1700000000000 [stream_no_route; stream_succeeded])).1
  = Rejected (EError "fail")
  /\ rng (keysendMessage sample_env
            (sample_opts (Some (sample_payload 1944))) None
            (start 1700000000000 [stream_no_route; stream_succeeded])).2
     = 2%nat
  /\ List.length
       (sent_by
          (keysendMessage sample_env
             (sample_opts (Some (sample_payload 1944))) None)
          (start 1700000000000 [stream_no_route; stream_succeeded]))
     = 2%nat.
Proof.
  destruct (keysendMessage_weave_result sample_env
              (sample_opts (Some (sample_payload 1944))) None
              (start 1700000000000 [stream_no_route; stream_succeeded])
              (sample_payload 1944))
    as (_ & Hsettled).
  - reflexivity.
  - apply Nat.leb_le. vm_compute. reflexivity.
  - destruct Hsettled as (_ & Hwire & _ & _ & _ & Hfail).
    + intros o Ho. vm_compute in Ho.
      destruct Ho as [<-|[<-|[]]]; discriminate.
    + destruct (Hwire eq_refl) as (Hrng & _).
      split; [|split; [exact Hrng|vm_compute; reflexivity]].
      apply Hfail. exists (EObject (payment "FAILED_NO_ROUTE")).
      vm_compute. left. reflexivity.
Defined.

(** The equivalence of C1 as it was stated fails when a chunk keysend
    never settles: of the two chunks of this message the first succeeds
    and the second stays in flight, so that one chunk has reported success
    and none has reported failure, and yet [keysendMessage] does not
    succeed: it never settles. *)
Lemma keysendMessage_unsettled_chunk :
  (keysend sample_env
     (weave_chunk sample_env (sample_opts (Some (sample_payload 973)))
        1700000000000 2 0)
     None (start 1700000000000 [stream_succeeded; stream_in_flight])).1
  = Resolved (payment "SUCCEEDED")
  /\ chunk_outcomes sample_env (sample_opts (Some (sample_payload 973))) None
       1700000000000 2 [0; 1]%nat
       (start 1700000000000 [stream_succeeded; stream_in_flight])
     = [Resolved (payment "SUCCEEDED"); Pending]
  /\ (keysendMessage sample_env (sample_opts (Some (sample_payload 973))) None
        (start 1700000000000 [stream_succeeded; stream_in_flight])).1
     = Pending.
Proof.
  split; [vm_compute; reflexivity|].
  split; vm_compute; reflexivity.
Qed.







(** ** The token codec: round trip *)

Lemma tokenFromTerms_terms env t w pk mb :
  canonical_terms t pk mb ->
  let exp := expiry (now w / 1000) (ttl t) in
  let terms :=
    join "."
      [urlBase64 (Buffer_from_ascii (host t)); urlBase64 mb;
       urlBase64 (Buffer_from_hex pk);
       urlBase64 (if exp =? 0 then []
                  else Buffer_from_hex (Number_toString 16 exp));
       urlBase64 (Buffer_from_ascii (serializeMeta (meta t)))] in
  (pk = "" -> tokenFromTerms env t w = (Resolved terms, w))
  /\ (pk <> "" ->
      tokenFromTerms env t w
      = bind (signBuffer env
                (startLDAT (host t) (muid t)
                   (urlBase64FromBytes (Buffer_from_hex pk)) exp (meta t)).2
                (ownerPubkey t))
          (fun sig =>
             bind (lift (zbase32_decode env sig))
               (fun sigBytes =>
                  resolve (terms +:+ "." +:+ urlBase64FromBytes sigBytes)))
          w).
Proof.
  intros (Hh & _ & _ & Hmuid & Hpk & _ & _) exp terms.
  assert (Hterms :
    (startLDAT (host t) (muid t) (urlBase64FromBytes (Buffer_from_hex pk))
       exp (meta t)).1 = terms).
  { unfold startLDAT. cbn [fst]. rewrite pkBuf_roundtrip, Hmuid.
    rewrite urlBase64_roundtrip. reflexivity. }
  unfold tokenFromTerms. rewrite Hpk.
  destruct (host t) as [|h0 hs] eqn:Eh; [congruence|].
  fold exp. rewrite <- Eh in *. split.
  - intros ->. rewrite <- Hterms. reflexivity.
  - intros Hne. destruct pk as [|p0 ps]; [congruence|].
    rewrite Hterms. reflexivity.
Qed.

Lemma join_snoc_dot fields last :
  fields <> [] ->
  join "." fields +:+ "." +:+ last = join "." (fields ++ [last]).
Proof.
  induction fields as [|f fields IH]; [congruence|]. intros _.
  destruct fields as [|g fields]; [reflexivity|].
  change (join "." (f :: g :: fields))
    with (f +:+ "." +:+ join "." (g :: fields)).
  change (join "." ((f :: g :: fields) ++ [last]))
    with (f +:+ "." +:+ join "." ((g :: fields) ++ [last])).
  rewrite <- IH by discriminate. rewrite !append_assoc. reflexivity.
Qed.

(** C2 (amended). For a canonical term set, at a time whose expiry is
    encodable, with a signer that answers when a requester key is given:
    [tokenFromTerms] produces a token, and [parseLDAT] of that token
    returns the host, the media id, the requester key and the metadata of
    the term set, and the expiry under [ts]; an empty requester key and a
    zero expiry are left out of the result. The token is the same in any
    two states that agree on the time in seconds and on what the signer
    returns. *)
Theorem parseLDAT_tokenFromTerms env t w pk mb :
  canonical_terms t pk mb ->
  expiry_encodable (expiry (now w / 1000) (ttl t)) ->
  pk = "" \/ signer_answers env (ownerPubkey t) w ->
  (exists token w1 o,
      tokenFromTerms env t w = (Resolved token, w1)
      /\ parseLDAT token = Some o
      /\ o !! "host" = Some (TString (host t))
      /\ o !! "muid" = Some (TString (muid t))
      /\ o !! "pubkey" = (if decide (pk = "") then None
                          else Some (TString pk))
      /\ o !! "ts"
         = (if decide (expiry (now w / 1000) (ttl t) = 0) then None
            else Some (TNumber (Some (expiry (now w / 1000) (ttl t)))))
      /\ o !! "meta" = Some (TMeta (list_to_map (meta t))))
  /\ (forall w',
        now w' / 1000 = now w / 1000 ->
        (forall bytes,
            (signBuffer env bytes (ownerPubkey t) w').1
            = (signBuffer env bytes (ownerPubkey t) w).1) ->
        (tokenFromTerms env t w').1 = (tokenFromTerms env t w).1).
Proof.
  intros Hcan Hexp Hsign.
  pose proof (tokenFromTerms_terms env t w pk mb Hcan) as Htok.
  destruct Hcan as (Hh & Hh7 & Hmb & Hmuid & Hpk & Hhex & Hmeta).
  destruct (deserialize_serialize (meta t) Hmeta) as (Hds & Hsne & Hs7).
  set (exp := expiry (now w / 1000) (ttl t)) in *.
  set (eb := if exp =? 0 then []
             else Buffer_from_hex (Number_toString 16 exp)) in *.
  set (fields :=
         [urlBase64 (Buffer_from_ascii (host t)); urlBase64 mb;
          urlBase64 (Buffer_from_hex pk); urlBase64 eb;
          urlBase64 (Buffer_from_ascii (serializeMeta (meta t)))]) in *.
  cbv zeta in Htok. destruct Htok as [Hunsigned Hsigned].
  assert (Hparse : forall extra,
    extra = [] \/ (exists sb, extra = [urlBase64 sb]) ->
    exists o,
      parseLDAT (join "." (fields ++ extra)) = Some o
      /\ o !! "host" = Some (TString (host t))
      /\ o !! "muid" = Some (TString (muid t))
      /\ o !! "pubkey" = (if decide (pk = "") then None
                          else Some (TString pk))
      /\ o !! "ts" = (if decide (exp = 0) then None
                      else Some (TNumber (Some exp)))
      /\ o !! "meta" = Some (TMeta (list_to_map (meta t)))).
  { intros extra Hextra. unfold parseLDAT.
    rewrite split_dot_join.
    2:{ destruct Hextra as [->|[sb ->]]; discriminate. }
    2:{ apply Forall_app. split.
        - repeat constructor; apply urlBase64_no_dot.
        - destruct Hextra as [->|[sb ->]]; repeat constructor.
          apply urlBase64_no_dot. }
    destruct (parse_token_fields (Buffer_from_ascii (host t)) mb
                (Buffer_from_hex pk) eb
                (Buffer_from_ascii (serializeMeta (meta t)))
                (list_to_map (meta t)) extra)
      as (o & Ho & Hhost & Hmu & Hpub & Hts & Hme).
    - unfold Buffer_from_ascii. destruct (host t); [congruence|discriminate].
    - exact Hmb.
    - unfold Buffer_from_ascii.
      destruct (serializeMeta (meta t)); [congruence|discriminate].
    - rewrite ascii_roundtrip by exact Hs7. exact Hsne.
    - rewrite ascii_roundtrip by exact Hs7. exact Hds.
    - exact Hextra.
    - exists o. split; [exact Ho|].
      rewrite ascii_roundtrip in Hhost by exact Hh7.
      split; [exact Hhost|]. split; [rewrite Hmuid; exact Hmu|].
      split; [|split; [|exact Hme]].
      + rewrite Hpub. destruct (decide (pk = "")) as [->|Hne];
          [reflexivity|].
        pose proof (hex_nonempty pk Hhex Hne) as Hb.
        rewrite hex_roundtrip by exact Hhex.
        destruct (Buffer_from_hex pk); [congruence|reflexivity].
      + rewrite Hts. subst eb.
        destruct (decide (exp = 0)) as [->|Hne]; [reflexivity|].
        destruct Hexp as [H0|[Hpos Heven]]; [congruence|].
        destruct (expiry_field exp Hpos Heven) as [Hb Hp].
        apply Z.eqb_neq in Hne. rewrite Hne, Hp.
        destruct (Buffer_from_hex (Number_toString 16 exp));
          [congruence|reflexivity]. }
  split.
  - destruct (decide (pk = "")) as [Hpke|Hpkne].
    + destruct (Hparse [] (or_introl eq_refl)) as (o & Ho).
      rewrite app_nil_r in Ho.
      exists (join "." fields), w, o. split; [apply Hunsigned; exact Hpke|].
      destruct (decide (pk = "")); [exact Ho|congruence].
    + destruct Hsign as [Hpke|Hsign]; [congruence|].
      destruct (Hsign (startLDAT (host t) (muid t)
                         (urlBase64FromBytes (Buffer_from_hex pk)) exp
                         (meta t)).2) as (sig & sigBytes & w1 & Hs & Hz).
      destruct (Hparse [urlBase64 sigBytes]
                  (or_intror (ex_intro _ sigBytes eq_refl))) as (o & Ho).
      exists (join "." (fields ++ [urlBase64 sigBytes])), w1, o.
      split.
      * rewrite (Hsigned Hpkne). unfold bind. rewrite Hs.
        unfold lift. rewrite Hz. unfold resolve.
        change (urlBase64FromBytes sigBytes) with (urlBase64 sigBytes).
        rewrite join_snoc_dot by discriminate. reflexivity.
      * destruct (decide (pk = "")); [congruence|exact Ho].
  - intros w' Hnow Hsame. unfold tokenFromTerms. rewrite Hnow.
    destruct (pubkey t) as [pk'|]; [|reflexivity].
    destruct pk' as [|p0 ps]; [reflexivity|].
    unfold bind.
    match goal with
    | |- context [signBuffer env ?b ?o w'] =>
        specialize (Hsame b);
        destruct (signBuffer env b o w') as [[s1|e1|] w1'];
        destruct (signBuffer env b o w) as [[s2|e2|] w2'];
        cbn [fst] in Hsame; try discriminate Hsame;
        try (injection Hsame as ->); try reflexivity
    end.
    unfold lift. destruct (zbase32_decode env s2); reflexivity.
Qed.

Lemma parseLDAT_tokenFromTerms_witness :
  exists token w1 o,
    tokenFromTerms sample_env sample_terms
      (start 1700000000000 [signature_reply]) = (Resolved token, w1)
    /\ parseLDAT token = Some o
    /\ o !! "host" = Some (TString "memes.sphinx.chat")
    /\ o !! "muid"
       = Some (TString "qFSOa50yWeGSG8oelsMvctLYdejPRD090dsypBSx_xg=")
    /\ o !! "pubkey" = Some (TString sample_pubkey)
    /\ o !! "ts" = Some (TNumber (Some 1731536000))
    /\ o !! "meta"
       = Some (TMeta (list_to_map [("amt", MNum 100);
                                   ("ttl", MNum 31536000)])).
Proof.
  destruct (parseLDAT_tokenFromTerms sample_env sample_terms
              (start 1700000000000 [signature_reply]) sample_pubkey
              (Buffer_from_base64
                 "qFSOa50yWeGSG8oelsMvctLYdejPRD090dsypBSx_xg="))
    as [Hround _].
  - split; [discriminate|]. split; [reflexivity|]. split; [discriminate|].
    split; [reflexivity|]. split; [reflexivity|]. split; [reflexivity|].
    split; [discriminate|]. split; [|reflexivity].
    apply (bool_decide_unpack _). reflexivity.
  - right. split; [reflexivity|]. reflexivity.
  - right. intros bytes. eexists _, _, _. split; reflexivity.
  - exact Hround.
Defined.

(** The round trip as C2 states it fails on the first term set of
    [testLDAT]: the empty host comes back as the configured media host,
    and the string [1500x1300] of the metadata comes back as the number
    1500. *)
Lemma testLDAT_terms_not_returned :
  exists token w1 o m,
    tokenFromTerms sample_env testLDAT_terms
      (start 1700000000000 [signature_reply]) = (Resolved token, w1)
    /\ parseLDAT token = Some o
    /\ o !! "host" = Some (TString "memes.sphinx.chat")
    /\ o !! "host" <> Some (TString (host testLDAT_terms))
    /\ o !! "meta" = Some (TMeta m)
    /\ m !! "dim" = Some (MNum 1500)
    /\ m <> list_to_map (meta testLDAT_terms).
Proof.
  eexists _, _, _, _. split; [vm_compute; reflexivity|].
  split; [vm_compute; reflexivity|].
  split; [vm_compute; reflexivity|].
  split; [vm_compute; discriminate|].
  split; [vm_compute; reflexivity|].
  split; [vm_compute; reflexivity|].
  intros E. apply (f_equal (fun m => m !! "dim")) in E.
  vm_compute in E. discriminate.
Qed.

(** For every time from July 1977 to February 2105 the expiry of a token
    has eight hex digits. *)
Lemma expiry_encodable_range now_seconds ttl :
  236899456 <= now_seconds < 4263431296 ->
  expiry_encodable (expiry now_seconds ttl).
Proof.
  intros Hn. unfold expiry_encodable, expiry.
  destruct ttl as [n|]; [|left; reflexivity].
  destruct (n =? 0); [left; reflexivity|]. right. split; [lia|].
  set (e := now_seconds + 60 * 60 * 24 * 365).
  assert (He : 268435456 <= e < 4294967296) by (subst e; lia).
  destruct e as [|p|p]; try lia.
  unfold Number_toString. cbn [Z.to_N].
  rewrite N_toString_16_length; [reflexivity|].
  change (16 ^ 7)%N with 268435456%N. change (16 ^ 8)%N with 4294967296%N.
  lia.
Qed.

(** ** The expiry of a token *)

Lemma startLDAT_terms host_ muid_ pk exp meta_ :
  (startLDAT host_ muid_ pk exp meta_).1
  = join "."
      [urlBase64 (Buffer_from_ascii host_);
       urlBase64 (Buffer_from_base64 muid_);
       urlBase64 (match pk with
                  | EmptyString => []
                  | _ => Buffer_from_base64 pk
                  end);
       urlBase64 (if exp =? 0 then []
                  else Buffer_from_hex (Number_toString 16 exp));
       urlBase64 (Buffer_from_ascii (serializeMeta meta_))].
Proof. reflexivity. Qed.

(** The fourth field of a token that [tokenFromTerms] produces holds the
    octets of the expiry. *)
Lemma tokenFromTerms_expiry_field env t w token w1 :
  tokenFromTerms env t w = (Resolved token, w1) ->
  split "." token !! 3%nat
  = Some (urlBase64
            (if expiry (now w / 1000) (ttl t) =? 0 then []
             else Buffer_from_hex
                    (Number_toString 16 (expiry (now w / 1000) (ttl t))))).
Proof.
  unfold tokenFromTerms.
  destruct (pubkey t) as [pk|]; [|discriminate].
  assert (Hfields : forall fields extra,
    List.length fields = 5%nat ->
    Forall (fun f => exists b, f = urlBase64 b) (fields ++ extra) ->
    split "." (join "." (fields ++ extra)) !! 3%nat = fields !! 3%nat).
  { intros fields extra Hlen Hall.
    rewrite split_dot_join.
    - apply lookup_app_l. rewrite Hlen. lia.
    - destruct fields; [discriminate|discriminate].
    - eapply Forall_impl; [exact Hall|].
      intros f (b & ->). apply urlBase64_no_dot. }
  destruct pk as [|p0 ps].
  + intros H. injection H as <- _.
    match goal with
    | |- split "." (?a +:+ "." +:+ ?b +:+ "." +:+ ?c +:+ "." +:+ ?d
                      +:+ "." +:+ ?e) !! _ = _ =>
        change (split "." (join "." ([a; b; c; d; e] ++ [])) !! 3%nat
                = Some d);
        rewrite (Hfields [a; b; c; d; e] []);
        [reflexivity|reflexivity|]
    end.
    repeat constructor; eexists; reflexivity.
  + unfold bind.
    match goal with
    | |- context [signBuffer env ?b ?o w] =>
        destruct (signBuffer env b o w) as [[sig|e|] w2];
        try discriminate
    end.
    unfold lift. destruct (zbase32_decode env sig) as [e|sigBytes];
      [discriminate|].
    unfold resolve. intros H. injection H as <- _.
    change (urlBase64FromBytes sigBytes) with (urlBase64 sigBytes).
    match goal with
    | |- split "." ((?a +:+ "." +:+ ?b +:+ "." +:+ ?c +:+ "." +:+ ?d
                       +:+ "." +:+ ?e) +:+ "." +:+ ?s) !! _ = _ =>
        change (split "." (join "." [a; b; c; d; e] +:+ "." +:+ s)
                  !! 3%nat = Some d);
        rewrite join_snoc_dot by discriminate;
        rewrite (Hfields [a; b; c; d; e] [s]);
        [reflexivity|reflexivity|]
    end.
    repeat constructor; eexists; reflexivity.
Qed.

(** With a requester key, and a signer that answers unless the key is
    empty, [tokenFromTerms] produces a token. *)
Lemma tokenFromTerms_produces env t w pk :
  pubkey t = Some pk ->
  pk = "" \/ signer_answers env (ownerPubkey t) w ->
  exists token w1, tokenFromTerms env t w = (Resolved token, w1).
Proof.
  intros Hpk Hsign. unfold tokenFromTerms. rewrite Hpk.
  destruct pk as [|p0 ps]; [eauto|].
  destruct Hsign as [Hempty|Hsign]; [discriminate|].
  unfold bind.
  match goal with
  | |- context [signBuffer env ?b ?o w] =>
      destruct (Hsign b) as (sig & sigBytes & w1 & Hsig & Hdec)
  end.
  rewrite Hsig. unfold lift. rewrite Hdec. eauto.
Qed.

(** C5. When the requester key is given and the signer answers (with an
    empty key nothing is signed), [tokenFromTerms] produces a token whose
    fourth field is the expiry. With a [ttl] that is a number other than
    zero the field holds the octets of the time in seconds plus 365 days
    (365 * 24 * 3600 seconds), which the [ts] decoder of [termKeys] reads
    back as that number at any time from July 1977 to February 2105, and
    the same token is produced for every other non-zero [ttl]: the value
    of the [ttl] is not used. With a [ttl] that is zero or absent the
    field is empty, which stands for the expiry 0. *)
Theorem tokenFromTerms_expiry env t w pk :
  pubkey t = Some pk ->
  pk = "" \/ signer_answers env (ownerPubkey t) w ->
  exists token w1 field,
    tokenFromTerms env t w = (Resolved token, w1)
    /\ split "." token !! 3%nat = Some field
    /\ (forall n, ttl t = Some n -> n <> 0 ->
          (let exp := now w / 1000 + 365 * 24 * 3600 in
           field = urlBase64 (if exp =? 0 then []
                              else Buffer_from_hex (Number_toString 16 exp))
           /\ (236899456 <= now w / 1000 < 4263431296 ->
               exists func,
                 termKeys !! 3%nat = Some ("ts", func)
                 /\ func (Buffer_from_base64 field)
                    = Some (TNumber (Some exp))))
          /\ (forall n', n' <> 0 ->
                tokenFromTerms env (set_ttl (Some n') t) w
                = (Resolved token, w1)))
    /\ (ttl t = None \/ ttl t = Some 0 ->
        expiry (now w / 1000) (ttl t) = 0 /\ field = "").
Proof.
  intros Hpk Hsign.
  destruct (tokenFromTerms_produces env t w pk Hpk Hsign)
    as (token & w1 & Htoken).
  pose proof (tokenFromTerms_expiry_field env t w token w1 Htoken) as Hfield.
  eexists token, w1, _. split; [exact Htoken|]. split; [exact Hfield|].
  split.
  - intros n Httl Hn. set (exp := now w / 1000 + 365 * 24 * 3600).
    assert (Hexp : expiry (now w / 1000) (ttl t) = exp).
    { rewrite Httl. unfold expiry. apply Z.eqb_neq in Hn. rewrite Hn.
      subst exp. lia. }
    rewrite Hexp. split; [split; [reflexivity|]|].
    + intros Hrange. eexists. split; [reflexivity|]. cbv beta.
      rewrite urlBase64_roundtrip.
      destruct (expiry_encodable_range (now w / 1000) (Some n) Hrange)
        as [H0|[Hpos Heven]];
        rewrite <- Httl, Hexp in *; [subst exp; lia|].
      assert (Hne : (exp =? 0) = false) by (apply Z.eqb_neq; lia).
      rewrite Hne.
      destruct (expiry_field exp Hpos Heven) as [_ Hparse].
      rewrite Hparse. reflexivity.
    + intros n' Hn'. rewrite <- Htoken.
      unfold tokenFromTerms, set_ttl.
      cbn [host ttl muid pubkey meta ownerPubkey]. rewrite Httl.
      unfold expiry. apply Z.eqb_neq in Hn, Hn'. rewrite Hn, Hn'.
      reflexivity.
  - intros Hzero.
    assert (Hexp : expiry (now w / 1000) (ttl t) = 0)
      by (destruct Hzero as [-> | ->]; reflexivity).
    split; [exact Hexp|]. rewrite Hexp. reflexivity.
Qed.

Lemma tokenFromTerms_expiry_witness :
  exists token w1 field,
    tokenFromTerms sample_env sample_terms
      (start 1700000000000 [signature_reply]) = (Resolved token, w1)
    /\ split "." token !! 3%nat = Some field
    /\ field = urlBase64 (Buffer_from_hex "67352480")
    /\ (exists func,
          termKeys !! 3%nat = Some ("ts", func)
          /\ func (Buffer_from_base64 field)
             = Some (TNumber (Some (1700000000 + 365 * 24 * 3600))))
    /\ tokenFromTerms sample_env (set_ttl (Some 60) sample_terms)
         (start 1700000000000 [signature_reply])
       = (Resolved token, w1).
Proof.
  destruct (tokenFromTerms_expiry sample_env sample_terms
              (start 1700000000000 [signature_reply]) sample_pubkey)
    as (token & w1 & field & Htoken & Hfield & Hyear & _).
  - reflexivity.
  - right. intros bytes. eexists _, _, _. split; reflexivity.
  - destruct (Hyear 31536000 eq_refl) as ((Henc & Hdec) & Hsame); [lia|].
    exists token, w1, field. split; [exact Htoken|].
    split; [exact Hfield|].
    split; [rewrite Henc; vm_compute; reflexivity|].
    split.
    { apply Hdec. vm_compute. split; [discriminate|reflexivity]. }
    apply (Hsame 60). lia.
Defined.

(** * Further properties *)

Local Open Scope Z_scope.

(** ** keysend: the request that goes out *)


(** X1. [keysend] sends at most one payment request. The request pays the
    larger of the amount asked for and the floor, to the destination given
    (which then has 66 characters), under the hash of the preimage drawn
    for this call; through the proxy it is a [sendPaymentSync] capped at
    10000 sat of fees, on greenlight a [keysend] without cap, and
    otherwise a [sendPaymentV2] of the router capped at 10000 sat and
    16 seconds. *)
Theorem keysend_single_request env opts owner w :
  let sent := sent_by (keysend env opts owner) w in
  outbox (keysend env opts owner w).2 = outbox w ++ sent
  /\ (List.length sent <= 1)%nat
  /\ Forall
       (fun req =>
          String.length (dest opts) = 66%nat
          /\ exists o,
               request_options req = Some o
               /\ kr_amt o = Z.max (amt opts) (amount_floor env)
               /\ kr_dest o = Buffer_from_hex (dest opts)
               /\ kr_payment_hash o = sha256 env (randomBytes env (rng w))
               /\ match req with
                  | SendPaymentSync _ _ =>
                      isProxy env = true
                      /\ kr_fee_limit o = Some 10000
                      /\ kr_fee_limit_sat o = None
                      /\ kr_timeout_seconds o = None
                  | GreenlightKeysend _ _ =>
                      isProxy env = false /\ IS_GREENLIGHT env = true
                      /\ kr_fee_limit o = None
                      /\ kr_fee_limit_sat o = None
                      /\ kr_timeout_seconds o = None
                  | SendPaymentV2 _ _ =>
                      isProxy env = false /\ IS_GREENLIGHT env = false
                      /\ kr_fee_limit o = None
                      /\ kr_fee_limit_sat o = Some 10000
                      /\ kr_timeout_seconds o = Some 16
                  | _ => False
                  end)
       sent.
Proof.
  cbv zeta.
  assert (H : exists reqs,
    outbox (keysend env opts owner w).2 = outbox w ++ reqs
    /\ (reqs = []
        \/ String.length (dest opts) = 66%nat
           /\ let o := keysend_options env opts (randomBytes env (rng w)) in
              ((exists c, reqs = [SendPaymentSync c (with_fee_limit o)]
                          /\ isProxy env = true)
               \/ (exists c, reqs = [GreenlightKeysend c o]
                             /\ isProxy env = false
                             /\ IS_GREENLIGHT env = true)
               \/ (exists c, reqs = [SendPaymentV2 c (with_router_limits o)]
                             /\ isProxy env = false
                             /\ IS_GREENLIGHT env = false)))).
  { unfold keysend.
    destruct (String.length (dest opts) =? 66)%nat eqn:E; cbn [negb].
    - apply Nat.eqb_eq in E.
      destruct (keysend_send_outbox env opts owner w)
        as (reqs & Hout & Hreqs).
      exists reqs. split.
      + unfold try_catch.
        destruct (keysend_send env opts owner w) as [[r|e|] w']; exact Hout.
      + destruct Hreqs as [->|Hreqs]; [left; reflexivity|right].
        split; [exact E|exact Hreqs].
    - exists []. cbn [snd]. rewrite app_nil_r. auto. }
  destruct H as (reqs & Hout & Hreqs).
  rewrite (sent_by_app _ _ _ Hout). split; [exact Hout|].
  destruct Hreqs as [->|[Hlen Hreqs]]; [split; [simpl; lia|constructor]|].
  cbv zeta in Hreqs.
  destruct Hreqs as [(c & -> & Hp)|[(c & -> & Hp & Hg)|(c & -> & Hp & Hg)]];
    (split; [simpl; lia|]); repeat constructor; try assumption;
    eexists; (split; [reflexivity|]); cbn; auto 10.
Qed.



(** ** Route hints *)

Lemma prefix_char c x s :
  String.prefix (String c "") (String x s) = Ascii.eqb x c.
Proof.
  simpl. destruct (ascii_dec c x) as [->|Hne].
  - rewrite Ascii.eqb_refl. destruct s; reflexivity.
  - symmetry. apply Ascii.eqb_neq. congruence.
Qed.

Lemma split_char_field c f : forall cur rest,
  includes c f = false ->
  split_go (String c "") 0 cur (f +:+ String c rest)
  = (cur +:+ f) :: split_go (String c "") 0 "" rest.
Proof.
  induction f as [|x f IH]; intros cur rest Hf.
  - rewrite append_nil_l, append_nil_r. cbn [split_go].
    rewrite prefix_char, Ascii.eqb_refl. reflexivity.
  - simpl in Hf. destruct (Ascii.eqb x c) eqn:E; [discriminate|].
    rewrite append_cons. cbn [split_go]. rewrite prefix_char, E.
    rewrite IH by exact Hf. rewrite append_assoc, append_cons, append_nil_l.
    reflexivity.
Qed.

Lemma split_char_last c f : forall cur,
  includes c f = false ->
  split_go (String c "") 0 cur f = [cur +:+ f].
Proof.
  induction f as [|x f IH]; intros cur Hf.
  - rewrite append_nil_r. reflexivity.
  - simpl in Hf. destruct (Ascii.eqb x c) eqn:E; [discriminate|].
    cbn [split_go]. rewrite prefix_char, E.
    rewrite IH by exact Hf. rewrite append_assoc, append_cons, append_nil_l.
    reflexivity.
Qed.

Lemma includes_app c (a b : string) :
  includes c (a +:+ b) = includes c a || includes c b.
Proof.
  induction a as [|x a IH]; [reflexivity|].
  rewrite append_cons. simpl. destruct (Ascii.eqb x c); [reflexivity|exact IH].
Qed.

(** X3. The route hint of a keysend: a hint [node:chan] becomes the one
    hop hint with that node and that channel, and whatever follows a
    second colon is dropped; a hint without a colon, an empty hint and an
    absent one leave the request without route hints. *)
Theorem keysend_route_hint_parsing env opts preimage :
  let hints := kr_route_hints (keysend_options env opts preimage) in
  (forall node chan more,
     includes ":" node = false -> includes ":" chan = false ->
     more = "" \/ (exists t, more = ":" +:+ t) ->
     route_hint opts = Some (node +:+ ":" +:+ chan +:+ more) ->
     hints = Some [[ {| node_id := node; chan_id := chan |} ]])
  /\ (forall hint,
        route_hint opts = Some hint -> includes ":" hint = false ->
        hints = None)
  /\ (route_hint opts = None -> hints = None).
Proof.
  cbv zeta. unfold keysend_options. cbn [kr_route_hints].
  unfold keysend_route_hints. split; [|split].
  - intros node chan more Hn Hc Hmore ->.
    assert (Hinc : includes ":" (node +:+ ":" +:+ chan +:+ more) = true).
    { rewrite includes_app. simpl. apply orb_true_r. }
    assert (Hsplit : exists rest,
      split ":" (node +:+ ":" +:+ chan +:+ more) = node :: chan :: rest).
    { unfold split.
      change (node +:+ ":" +:+ chan +:+ more)
        with (node +:+ String ":" (chan +:+ more)).
      rewrite split_char_field by exact Hn. rewrite append_nil_l.
      destruct Hmore as [->|[t ->]].
      - rewrite append_nil_r, split_char_last by exact Hc.
        rewrite append_nil_l. eauto.
      - change (chan +:+ ":" +:+ t) with (chan +:+ String ":" t).
        rewrite split_char_field by exact Hc. rewrite append_nil_l. eauto. }
    destruct Hsplit as [rest Hsplit].
    destruct (node +:+ ":" +:+ chan +:+ more) as [|x s] eqn:E;
      [discriminate|].
    rewrite Hinc, Hsplit. reflexivity.
  - intros hint -> Hno. destruct hint; [reflexivity|].
    rewrite Hno. reflexivity.
  - intros ->. reflexivity.
Qed.

Lemma keysend_route_hint_parsing_witness :
  kr_route_hints
    (keysend_options sample_env
       {| amt := 10; dest := sample_pubkey; data := None;
          route_hint := Some "02abc:123x456x1:ignored"; extra_tlv := ∅ |} [])
  = Some [[ {| node_id := "02abc"; chan_id := "123x456x1" |} ]].
Proof.
  apply (proj1 (keysend_route_hint_parsing sample_env
                  {| amt := 10; dest := sample_pubkey; data := None;
                     route_hint := Some "02abc:123x456x1:ignored";
                     extra_tlv := ∅ |} [])
           "02abc" "123x456x1" ":ignored").
  - reflexivity.
  - reflexivity.
  - right. exists "ignored". reflexivity.
  - reflexivity.
Defined.

(** ** keysend over the router of LND: the payment stream *)

Lemma loadLightning_no_proxy env tryProxy owner c w :
  isProxy env = false ->
  lightningClient w = Some c ->
  loadLightning env tryProxy owner false w = (Resolved c, w).
Proof.
  intros Hp Hc. unfold loadLightning. rewrite Hp, andb_false_r, Hc.
  reflexivity.
Qed.

Lemma keysend_router env opts owner w c r evs rest :
  isProxy env = false -> IS_GREENLIGHT env = false ->
  String.length (dest opts) = 66%nat ->
  lightningClient w = Some c -> routerClient w = Some r ->
  inbox w = Stream evs :: rest ->
  keysend env opts owner w
  = (sendPaymentV2_events evs,
     set_net
       (outbox w
        ++ [SendPaymentV2 r
              (with_router_limits
                 (keysend_options env opts (randomBytes env (rng w))))])
       rest (set_rng (S (rng w)) w)).
Proof.
  intros Hp Hg Hlen Hc Hr Hin. unfold keysend. rewrite Hlen. cbn [Nat.eqb negb].
  change (66 =? 66)%nat with true. cbn [negb].
  unfold try_catch, keysend_send, bind.
  rewrite (loadLightning_no_proxy env true owner c) by assumption.
  rewrite Hp.
  rewrite (loadLightning_no_proxy env false owner c) by assumption.
  unfold isGL. rewrite Hg. unfold loadRouter. cbn [routerClient set_rng].
  rewrite Hr. unfold call_stream. cbn [inbox set_rng]. rewrite Hin.
  destruct (sendPaymentV2_events evs); reflexivity.
Qed.

Lemma sendPaymentV2_in_flight pre : forall rest,
  forallb in_flight pre = true ->
  sendPaymentV2_events (pre ++ rest) = sendPaymentV2_events rest.
Proof.
  induction pre as [|e pre IH]; intros rest H; [reflexivity|].
  cbn [forallb] in H. apply andb_prop in H as [He Hpre].
  destruct e as [p|err]; [|discriminate].
  cbn [app sendPaymentV2_events]. unfold in_flight in He.
  replace (match r_status p with "" => r_state p | String a s => String a s end)
    with (if String.eqb (r_status p) "" then r_state p else r_status p)
    by (destruct (r_status p); reflexivity).
  destruct (String.eqb (r_payment_error p) ""); [|discriminate].
  cbn [negb andb] in He |- *.
  destruct (String.eqb _ "FAILED_NO_ROUTE"); [discriminate|].
  destruct (String.eqb _ "FAILED"); [discriminate|].
  destruct (String.eqb _ "SUCCEEDED"); [discriminate|].
  cbn [orb]. rewrite IH by exact Hpre.
  destruct (String.eqb _ "IN_FLIGHT"); reflexivity.
Qed.

Lemma sendPaymentV2_terminal e post :
  in_flight e = false ->
  sendPaymentV2_events (e :: post) = sendPaymentV2_events [e]
  /\ sendPaymentV2_events [e] <> Pending.
Proof.
  intros He. destruct e as [p|err]; [|split; [reflexivity|discriminate]].
  cbn [sendPaymentV2_events]. unfold in_flight in He.
  replace (match r_status p with "" => r_state p | String a s => String a s end)
    with (if String.eqb (r_status p) "" then r_state p else r_status p)
    by (destruct (r_status p); reflexivity).
  set (st := if String.eqb (r_status p) "" then r_state p else r_status p) in *.
  destruct (String.eqb (r_payment_error p) "");
    [|split; [reflexivity|discriminate]].
  cbn [negb andb] in He |- *.
  destruct (String.eqb st "FAILED_NO_ROUTE") eqn:E1.
  { apply String.eqb_eq in E1. rewrite E1.
    split; [reflexivity|discriminate]. }
  destruct (String.eqb st "FAILED") eqn:E2.
  { apply String.eqb_eq in E2. rewrite E2.
    split; [reflexivity|discriminate]. }
  destruct (String.eqb st "SUCCEEDED") eqn:E3; [|discriminate].
  apply String.eqb_eq in E3. rewrite E3.
  split; [reflexivity|discriminate].
Qed.

(** X4. A keysend that goes through the router of LND (no proxy, not
    greenlight, both clients at hand). While the stream reports only
    updates that are in flight, the promise stays as it is: if the stream
    brings nothing else, [keysend] never settles. The first event that is
    not in flight settles it, and no later event changes the outcome; it
    is fulfilled exactly when that event is an update without
    [payment_error] whose status is [SUCCEEDED]. *)
Theorem keysend_stream_first_terminal env opts owner w c r pre rest :
  isProxy env = false -> IS_GREENLIGHT env = false ->
  String.length (dest opts) = 66%nat ->
  lightningClient w = Some c -> routerClient w = Some r ->
  forallb in_flight pre = true ->
  (inbox w = Stream pre :: rest ->
   (keysend env opts owner w).1 = Pending)
  /\ (forall e post,
        in_flight e = false ->
        inbox w = Stream (pre ++ e :: post) :: rest ->
        (keysend env opts owner w).1 = sendPaymentV2_events [e]
        /\ (keysend env opts owner w).1 <> Pending
        /\ (forall p,
              (keysend env opts owner w).1 = Resolved p <->
              e = OnData p /\ r_payment_error p = ""
              /\ (if String.eqb (r_status p) "" then r_state p
                  else r_status p) = "SUCCEEDED")).
Proof.
  intros Hp Hg Hlen Hc Hr Hpre. split.
  - intros Hin.
    rewrite (keysend_router env opts owner w c r pre rest) by assumption.
    cbn [fst]. rewrite <- (app_nil_r pre).
    rewrite sendPaymentV2_in_flight by exact Hpre. reflexivity.
  - intros e post He Hin.
    rewrite (keysend_router env opts owner w c r (pre ++ e :: post) rest)
      by assumption.
    cbn [fst]. rewrite sendPaymentV2_in_flight by exact Hpre.
    destruct (sendPaymentV2_terminal e post He) as [H1 H2].
    rewrite H1. split; [reflexivity|]. split; [exact H2|].
    intros p. clear H1 H2. destruct e as [q|err].
    + cbn [sendPaymentV2_events]. unfold in_flight in He.
      replace (match r_status q with
               | "" => r_state q | String a s => String a s end)
        with (if String.eqb (r_status q) "" then r_state q else r_status q)
        by (destruct (r_status q); reflexivity).
      set (st := if String.eqb (r_status q) "" then r_state q
                 else r_status q) in *.
      destruct (String.eqb (r_payment_error q) "") eqn:Ee; cbn [negb].
      * apply String.eqb_eq in Ee. cbn [andb negb] in He.
        destruct (String.eqb st "IN_FLIGHT") eqn:E0.
        { apply String.eqb_eq in E0. rewrite E0 in He. discriminate. }
        destruct (String.eqb st "FAILED_NO_ROUTE") eqn:E1.
        { apply String.eqb_eq in E1. cbn [orb]. split; [discriminate|].
          intros (Hq & _ & Hs). injection Hq as <-. fold st in Hs.
          rewrite E1 in Hs. discriminate. }
        destruct (String.eqb st "FAILED") eqn:E2.
        { apply String.eqb_eq in E2. cbn [orb]. split; [discriminate|].
          intros (Hq & _ & Hs). injection Hq as <-. fold st in Hs.
          rewrite E2 in Hs. discriminate. }
        destruct (String.eqb st "SUCCEEDED") eqn:E3; [|discriminate].
        apply String.eqb_eq in E3. cbn [orb]. split.
        -- intros H. injection H as <-. auto.
        -- intros (Hq & _ & _). injection Hq as <-. reflexivity.
      * split; [discriminate|]. intros (Hq & Herr & _).
        injection Hq as <-. rewrite Herr in Ee. discriminate.
    + cbn. split; [discriminate|]. intros (Hq & _). discriminate.
Qed.

Lemma keysend_stream_first_terminal_witness :
  (keysend sample_env (sample_opts None) None
     (connected 0 [Stream [OnData (payment "IN_FLIGHT");
                           OnData (payment "IN_FLIGHT")]])).1
  = Pending
  /\ (keysend sample_env (sample_opts None) None
        (connected 0 [Stream ([OnData (payment "IN_FLIGHT")]
                              ++ OnData (payment "SUCCEEDED")
                                 :: [OnData (payment "FAILED")])])).1
     = Resolved (payment "SUCCEEDED").
Proof.
  split.
  - apply (proj1 (keysend_stream_first_terminal sample_env (sample_opts None)
                    None
                    (connected 0 [Stream [OnData (payment "IN_FLIGHT");
                                          OnData (payment "IN_FLIGHT")]])
                    lnd_client router_client
                    [OnData (payment "IN_FLIGHT");
                     OnData (payment "IN_FLIGHT")] []
                    eq_refl eq_refl eq_refl eq_refl eq_refl eq_refl)).
    reflexivity.
  - destruct (proj2 (keysend_stream_first_terminal sample_env (sample_opts None)
                    None
                    (connected 0 [Stream ([OnData (payment "IN_FLIGHT")]
                                          ++ OnData (payment "SUCCEEDED")
                                             :: [OnData (payment "FAILED")])])
                    lnd_client router_client
                    [OnData (payment "IN_FLIGHT")] []
                    eq_refl eq_refl eq_refl eq_refl eq_refl eq_refl)
             (OnData (payment "SUCCEEDED")) [OnData (payment "FAILED")]
             eq_refl eq_refl) as (Hfirst & _ & _).
    exact Hfirst.
Defined.

(** ** keysendMessage: the chunks of a woven message *)

Lemma substring_nil a m : String.substring a m "" = "".
Proof. destruct a, m; reflexivity. Qed.

Lemma substring_split s : forall a m1 m2,
  String.substring a (m1 + m2) s
  = String.substring a m1 s +:+ String.substring (a + m1) m2 s.
Proof.
  induction s as [|c s IH]; intros a m1 m2.
  - rewrite !substring_nil. reflexivity.
  - destruct a as [|a].
    + destruct m1 as [|m1]; [reflexivity|].
      cbn [String.substring Nat.add]. rewrite append_cons.
      f_equal. apply (IH 0%nat).
    + cbn [String.substring Nat.add]. apply IH.
Qed.

Lemma substring_all s : forall m,
  (String.length s <= m)%nat -> String.substring 0 m s = s.
Proof.
  induction s as [|c s IH]; intros m H; [destruct m; reflexivity|].
  destruct m as [|m]; [simpl in H; lia|].
  cbn [String.substring]. f_equal. apply IH. simpl in H. lia.
Qed.

Lemma length_substring s : forall a m,
  String.length (String.substring a m s)
  = Nat.min m (String.length s - a).
Proof.
  induction s as [|c s IH]; intros a m.
  - rewrite substring_nil. simpl. lia.
  - destruct a as [|a].
    + destruct m as [|m]; [reflexivity|].
      cbn [String.substring String.length]. rewrite (IH 0%nat). lia.
    + cbn [String.substring String.length]. rewrite IH. reflexivity.
Qed.

Lemma join_empty l : join "" l = fold_right String.append "" l.
Proof.
  induction l as [|x l IH]; [reflexivity|].
  destruct l as [|y l]; [cbn; rewrite append_nil_r; reflexivity|].
  change (join "" (x :: y :: l)) with (x +:+ "" +:+ join "" (y :: l)).
  rewrite append_nil_l, IH. reflexivity.
Qed.

Lemma substring_zero s : forall a, String.substring a 0 s = "".
Proof.
  induction s as [|c s IH]; intros a; [destruct a; reflexivity|].
  destruct a as [|a]; [reflexivity|]. cbn [String.substring]. apply IH.
Qed.

(** Consecutive pieces of [s] characters put together. *)
Lemma substrings_concat d s : forall k from,
  fold_right String.append ""
    (map (fun i => String.substring (i * s) s d) (seq from k))
  = String.substring (from * s) (k * s) d.
Proof.
  induction k as [|k IH]; intros from.
  - cbn [seq map fold_right Nat.mul]. rewrite substring_zero. reflexivity.
  - cbn [seq map fold_right]. rewrite IH.
    change (S k * s)%nat with (s + k * s)%nat.
    rewrite substring_split. do 2 f_equal. lia.
Qed.

Lemma ceil_div_bounds a b :
  (0 < b)%nat -> (0 < a)%nat ->
  (a <= ceil_div a b * b /\ (ceil_div a b - 1) * b < a)%nat.
Proof.
  intros Hb Ha. unfold ceil_div.
  pose proof (Nat.div_mod_eq a b) as E.
  pose proof (Nat.mod_upper_bound a b ltac:(lia)) as Hm.
  destruct (a mod b =? 0)%nat eqn:E0.
  - apply Nat.eqb_eq in E0. rewrite E0, Nat.add_0_r in E.
    destruct (a / b)%nat as [|q]; [lia|]. nia.
  - apply Nat.eqb_neq in E0. nia.
Qed.

Lemma ceil_div_le a b c :
  (0 < b)%nat -> (a <= c * b)%nat -> (ceil_div a b <= c)%nat.
Proof.
  intros Hb H. unfold ceil_div.
  pose proof (Nat.div_mod_eq a b) as E.
  pose proof (Nat.mod_upper_bound a b ltac:(lia)) as Hm.
  destruct (a mod b =? 0)%nat eqn:E0.
  - apply Nat.eqb_eq in E0. nia.
  - apply Nat.eqb_neq in E0.
    destruct (Nat.le_gt_cases (S (a / b)) c) as [|Hgt]; [assumption|].
    exfalso. assert (c <= a / b)%nat by lia. nia.
Qed.

(** X5. The chunks of a message of 972 characters or more: put together in
    order, their bodies are the message; no body is empty and none is
    longer than 972 characters; every chunk but the last is handed to
    [keysend] with the amount [min_sat_amount] and the last one with the
    amount of the message, so that, [keysend] raising an amount to the
    floor [min_sat_amount || 3], the request of every chunk but the last
    pays the floor and the request of the last pays the larger of the
    amount of the message and the floor; all go to the destination of the
    message. *)
Theorem keysendMessage_chunks_partition env opts ts d :
  data opts = Some d ->
  (MAX_MSG_LENGTH <= String.length d)%nat ->
  let n := ceil_div (String.length d) MAX_MSG_LENGTH in
  exists bodies,
    Forall2
      (fun i m => data (weave_chunk env opts ts n i)
                  = Some (weave_data ts i n m))
      (seq 0 n) bodies
    /\ join "" bodies = d
    /\ Forall (fun m => (1 <= String.length m <= MAX_MSG_LENGTH)%nat) bodies
    /\ map (fun i => amt (weave_chunk env opts ts n i)) (seq 0 n)
       = repeat (min_sat_amount (constants env)) (n - 1) ++ [amt opts]
    /\ (forall preimage,
          map (fun i =>
                 kr_amt (keysend_options env (weave_chunk env opts ts n i)
                           preimage)) (seq 0 n)
          = repeat (amount_floor env) (n - 1)
            ++ [Z.max (amt opts) (amount_floor env)])
    /\ Forall (fun i => dest (weave_chunk env opts ts n i) = dest opts)
         (seq 0 n).
Proof.
  intros Hd Hlen n. unfold MAX_MSG_LENGTH in *.
  set (len := String.length d) in *.
  set (s := ceil_div len n).
  assert (Hn : (len <= n * 972 /\ (n - 1) * 972 < len)%nat)
    by (apply ceil_div_bounds; lia).
  assert (Hn0 : (0 < n)%nat) by (apply ceil_div_pos; lia).
  assert (Hs : (len <= s * n /\ (s - 1) * n < len)%nat)
    by (apply ceil_div_bounds; lia).
  assert (Hs972 : (s <= 972)%nat) by (apply ceil_div_le; lia).
  assert (Hlast : ((n - 1) * s < len)%nat) by nia.
  assert (Hamt :
    map (fun i => amt (weave_chunk env opts ts n i)) (seq 0 n)
    = repeat (min_sat_amount (constants env)) (n - 1) ++ [amt opts]).
  { unfold weave_chunk. cbn [amt].
    assert (H : forall k from, (from + k <= n - 1)%nat ->
      map (fun i => if (i =? n - 1)%nat then amt opts
                    else min_sat_amount (constants env)) (seq from k)
      = repeat (min_sat_amount (constants env)) k).
    { induction k as [|k IH]; intros from Hf; [reflexivity|].
      cbn [seq map repeat].
      replace (from =? n - 1)%nat with false
        by (symmetry; apply Nat.eqb_neq; lia).
      rewrite IH by lia. reflexivity. }
    assert (Hseq : seq 0 n = seq 0 (n - 1) ++ [(n - 1)%nat]).
    { clearbody n. destruct n as [|k]; [lia|].
      rewrite seq_S. replace (S k - 1)%nat with k by lia. reflexivity. }
    rewrite Hseq, map_app, H by lia. cbn [map]. rewrite Nat.eqb_refl.
    reflexivity. }
  exists (map (fun i => String.substring (i * s) s d) (seq 0 n)).
  split; [|split; [|split; [|split; [|split]]]].
  - apply Forall2_fmap_r, Forall_Forall2_diag, Forall_forall.
    intros i _. unfold weave_chunk. cbn [data]. rewrite Hd. cbn [default id].
    fold len. fold s. unfold substring.
    replace (i * s + s - i * s)%nat with s by lia. reflexivity.
  - rewrite join_empty, substrings_concat. cbn [Nat.mul].
    apply substring_all. fold len. lia.
  - apply Forall_fmap, Forall_forall. intros i Hi.
    apply elem_of_seq in Hi. cbn [Nat.add] in Hi. cbn [compose].
    rewrite length_substring. fold len.
    assert (i * s < len)%nat by nia.
    assert (0 < s)%nat by (destruct s; [simpl in Hs; lia|lia]).
    lia.
  - exact Hamt.
  - intros preimage.
    change (map (fun i =>
                   kr_amt (keysend_options env (weave_chunk env opts ts n i)
                             preimage)) (seq 0 n))
      with (map (fun i =>
                   Z.max (amt (weave_chunk env opts ts n i))
                     (amount_floor env)) (seq 0 n)).
    rewrite <- (map_map (fun i => amt (weave_chunk env opts ts n i))
                  (fun a => Z.max a (amount_floor env))).
    rewrite Hamt, map_app, map_repeat. cbn [map].
    replace (Z.max (min_sat_amount (constants env)) (amount_floor env))
      with (amount_floor env); [reflexivity|].
    unfold amount_floor.
    destruct (min_sat_amount (constants env) =? 0) eqn:E; [|lia].
    apply Z.eqb_eq in E. lia.
  - apply Forall_forall. intros i _. reflexivity.
Qed.

Lemma keysendMessage_chunks_partition_witness :
  exists bodies,
    Forall2
      (fun i m =>
         data (weave_chunk sample_env
                 (sample_opts (Some (sample_payload 973))) 1700000000000 2 i)
         = Some (weave_data 1700000000000 i 2 m))
      [0; 1]%nat bodies
    /\ join "" bodies = sample_payload 973
    /\ Forall (fun m => (1 <= String.length m <= 972)%nat) bodies
    /\ map (fun i =>
              amt (weave_chunk sample_env
                     (sample_opts (Some (sample_payload 973)))
                     1700000000000 2 i)) [0; 1]%nat
       = [3; 10]
    /\ map (fun i =>
              kr_amt (keysend_options sample_env
                        (weave_chunk sample_env
                           (sample_opts (Some (sample_payload 973)))
                           1700000000000 2 i) [])) [0; 1]%nat
       = [3; 10].
Proof.
  destruct (keysendMessage_chunks_partition sample_env
              (sample_opts (Some (sample_payload 973))) 1700000000000
              (sample_payload 973))
    as (bodies & H1 & H2 & H3 & H4 & H5 & _).
  - reflexivity.
  - apply Nat.leb_le. vm_compute. reflexivity.
  - exists bodies. split; [exact H1|]. split; [exact H2|].
    split; [exact H3|]. split; [exact H4|exact (H5 [])].
Defined.

(** ** loadLightning and loadRouter: the cache *)

Lemma loadLightning_resolved env tryProxy owner noCache w c w1 :
  loadLightning env tryProxy owner noCache w = (Resolved c, w1) ->
  w1 = set_lightningClient (Some c) w
  /\ loadLightning env tryProxy owner false w1 = (Resolved c, w1).
Proof.
  intros H.
  assert (Hw : w1 = set_lightningClient (Some c) w).
  { revert H. unfold loadLightning.
    repeat case_match; intros Hres; inversion Hres; subst;
      try reflexivity;
      match goal with
      | E : lightningClient ?w = Some ?c |- _ =>
          rewrite <- E; symmetry; apply set_lightningClient_same
      end. }
  assert (Hc : lightningClient w1 = Some c) by (subst w1; reflexivity).
  split; [exact Hw|].
  revert H. unfold loadLightning.
  destruct (tryProxy && isProxy env && truthy owner).
  - destruct (loadProxyLightning env (default "" owner)) as [c'|];
      [|discriminate].
    intros Hres. injection Hres as -> _. f_equal.
    rewrite <- Hc. apply set_lightningClient_same.
  - intros _. rewrite Hc. reflexivity.
Qed.

(** X6. Whichever path produced the client (proxy, greenlight, LND, or the
    cache itself), a call of [loadLightning] that succeeds changes nothing
    but the module-level client, which is then the client returned; the
    same call repeated without [noCache] returns it again and changes
    nothing, and so does any call that does not take the proxy path. *)
Theorem loadLightning_idempotent env tryProxy owner noCache w c w1 :
  loadLightning env tryProxy owner noCache w = (Resolved c, w1) ->
  lightningClient w1 = Some c
  /\ w1 = set_lightningClient (Some c) w
  /\ loadLightning env tryProxy owner false w1 = (Resolved c, w1)
  /\ (forall tryProxy' owner',
        tryProxy' && isProxy env && truthy owner' = false ->
        loadLightning env tryProxy' owner' false w1 = (Resolved c, w1)).
Proof.
  intros H.
  destruct (loadLightning_resolved env tryProxy owner noCache w c w1 H)
    as [Hw Hagain].
  assert (Hc : lightningClient w1 = Some c) by (subst w1; reflexivity).
  split; [exact Hc|]. split; [exact Hw|]. split; [exact Hagain|].
  intros tp o Hno. unfold loadLightning. rewrite Hno, Hc. reflexivity.
Qed.

Lemma loadLightning_idempotent_witness :
  loadLightning greenlight_env false None false
    (set_lightningClient
       (Some (GreenlightNode "greenlight.example:2601"
                (SslCredentials [] (Some []) (Some []))))
       (start 0 []))
  = (Resolved (GreenlightNode "greenlight.example:2601"
                 (SslCredentials [] (Some []) (Some []))),
     set_lightningClient
       (Some (GreenlightNode "greenlight.example:2601"
                (SslCredentials [] (Some []) (Some []))))
       (start 0 [])).
Proof.
  destruct (loadLightning_idempotent greenlight_env false None true
              (start 0 [])
              (GreenlightNode "greenlight.example:2601"
                 (SslCredentials [] (Some []) (Some [])))
              (set_lightningClient
                 (Some (GreenlightNode "greenlight.example:2601"
                          (SslCredentials [] (Some []) (Some []))))
                 (start 0 []))
              eq_refl) as (_ & _ & Hagain & _).
  exact Hagain.
Defined.

(** X7. A proxy lookup that finds no client for the owner rejects with
    [no lightning client] and leaves the module-level client empty, also
    when a client was cached before: the next plain call has to build its
    client from the credentials again. *)
Theorem loadLightning_failed_proxy_lookup env owner noCache w :
  isProxy env = true ->
  truthy (Some owner) = true ->
  loadProxyLightning env owner = None ->
  loadLightning env true (Some owner) noCache w
  = (Rejected (EError "no lightning client"), set_lightningClient None w)
  /\ forall c, lightningClient w = Some c ->
       loadLightning env false None false w = (Resolved c, w)
       /\ (loadLightning env false None false
             (loadLightning env true (Some owner) noCache w).2).1
          = (loadLightning env false None true w).1.
Proof.
  intros Hp Ho Hnone.
  assert (H : loadLightning env true (Some owner) noCache w
              = (Rejected (EError "no lightning client"),
                 set_lightningClient None w)).
  { unfold loadLightning. rewrite Hp, Ho. cbn [andb default id].
    rewrite Hnone. reflexivity. }
  split; [exact H|]. intros c Hc. split.
  - apply loadLightning_cached; [reflexivity|exact Hc].
  - rewrite H. cbn [snd]. unfold loadLightning. cbn [andb lightningClient
      set_lightningClient].
    destruct (lightningClient w); destruct (IS_GREENLIGHT env);
      repeat case_match; reflexivity.
Qed.

Lemma loadLightning_failed_proxy_lookup_witness :
  loadLightning empty_proxy_env true (Some "02aa") false (connected 0 [])
  = (Rejected (EError "no lightning client"),
     set_lightningClient None (connected 0 []))
  /\ loadLightning empty_proxy_env false None false (connected 0 [])
     = (Resolved lnd_client, connected 0 []).
Proof.
  destruct (loadLightning_failed_proxy_lookup empty_proxy_env "02aa" false
              (connected 0 []) eq_refl eq_refl eq_refl) as [Hrej Hnext].
  split; [exact Hrej|].
  exact (proj1 (Hnext lnd_client eq_refl)).
Defined.

(** X8. An LND node whose certificate or macaroon cannot be read, with no
    client cached yet: [loadLightning] rejects with the one fixed string
    whatever the cause was, and changes nothing; [keysend] and
    [signBuffer] pass that rejection on and send nothing; but
    [listAllInvoices], which awaits the client outside of any [try], never
    settles. *)
Theorem unreadable_credentials env w :
  IS_GREENLIGHT env = false ->
  lightningClient w = None ->
  (exists e, readFileSync env (tls_location (config env)) = inl e)
  \/ (exists e, getMacaroon env None = inl e) ->
  (forall tryProxy owner noCache,
      tryProxy && isProxy env && truthy owner = false ->
      loadLightning env tryProxy owner noCache w
      = (Rejected (EString "cannot read LND macaroon or cert"), w))
  /\ (forall opts owner,
        isProxy env = false -> String.length (dest opts) = 66%nat ->
        (keysend env opts owner w).1
        = Rejected (EString "cannot read LND macaroon or cert")
        /\ sent_by (keysend env opts owner) w = [])
  /\ (forall msg owner,
        isProxy env = false ->
        signBuffer env msg owner w
        = (Rejected (EString "cannot read LND macaroon or cert"), w))
  /\ (listAllInvoices env w).1 = Pending.
Proof.
  intros Hg Hc Hfail.
  assert (Hcred : loadCredentials env None
                  = inl (EString "cannot read LND macaroon or cert")).
  { unfold loadCredentials.
    destruct Hfail as [[e ->]|[e He]]; [reflexivity|].
    rewrite He. destruct (readFileSync env _); reflexivity. }
  assert (Hload : forall tryProxy owner noCache w',
    lightningClient w' = None ->
    tryProxy && isProxy env && truthy owner = false ->
    loadLightning env tryProxy owner noCache w'
    = (Rejected (EString "cannot read LND macaroon or cert"), w')).
  { intros tp o nc w' Hc' Hno. unfold loadLightning.
    rewrite Hno, Hc', Hg, Hcred. reflexivity. }
  split; [intros tp o nc Hno; apply Hload; assumption|].
  split; [|split].
  - intros opts owner Hp Hlen.
    assert (Hk : keysend env opts owner w
                 = (Rejected (EString "cannot read LND macaroon or cert"),
                    set_rng (S (rng w)) w)).
    { unfold keysend. rewrite Hlen. change (66 =? 66)%nat with true.
      cbn [negb]. unfold try_catch, keysend_send, bind.
      rewrite Hload; [reflexivity|exact Hc|].
      rewrite Hp, andb_false_r. reflexivity. }
    split; [rewrite Hk; reflexivity|].
    apply sent_by_app. rewrite Hk. cbn [snd]. rewrite app_nil_r. reflexivity.
  - intros msg owner Hp. unfold signBuffer, try_catch, bind.
    rewrite Hload; [reflexivity|exact Hc|].
    rewrite Hp, andb_false_r. reflexivity.
  - unfold listAllInvoices, paginateInvoices. cbn [paginateInvoices_rec].
    unfold try_catch at 1, bind at 1, listInvoicesPaginated, bind at 1,
      uncaught, try_catch.
    rewrite Hload; [reflexivity|exact Hc|reflexivity].
Qed.

Lemma unreadable_credentials_witness :
  (keysend no_macaroon_env (sample_opts (Some "hello")) None
     (start 0 [stream_succeeded])).1
  = Rejected (EString "cannot read LND macaroon or cert")
  /\ (listAllInvoices no_macaroon_env
        (start 0 [page_reply "0" (sample_invoices 0 3)])).1
     = Pending.
Proof.
  split.
  - destruct (unreadable_credentials no_macaroon_env
                (start 0 [stream_succeeded]) eq_refl eq_refl)
      as (_ & Hk & _ & _).
    + right. exists (EError "ENOENT"). reflexivity.
    + exact (proj1 (Hk (sample_opts (Some "hello")) None eq_refl eq_refl)).
  - destruct (unreadable_credentials no_macaroon_env
                (start 0 [page_reply "0" (sample_invoices 0 3)])
                eq_refl eq_refl)
      as (_ & _ & _ & Hl).
    + right. exists (EError "ENOENT"). reflexivity.
    + exact Hl.
Defined.

(** ** Signing and verifying: the wrappers *)

Lemma bind_resolve {A} (m : Async A) w : bind m (fun a => resolve a) w = m w.
Proof. unfold bind, resolve. destruct (m w) as [[a|e|] w']; reflexivity. Qed.

Lemma hex2_decode x s :
  Buffer_from_hex (hex2 x +:+ s) = x :: Buffer_from_hex s.
Proof.
  unfold hex2. rewrite !append_cons, append_nil_l. cbn [Buffer_from_hex].
  pose proof (code_lt x) as Hx.
  rewrite !digit_in_digit_char by (clear -Hx; euclid).
  f_equal. apply chr_eq. clear -Hx. euclid.
Qed.

Lemma hex_decode_encode b : Buffer_from_hex (Buffer_toString_hex b) = b.
Proof.
  induction b as [|x b IH]; [reflexivity|].
  cbn [Buffer_toString_hex]. rewrite hex2_decode, IH. reflexivity.
Qed.

(** X9. For a text in which every character has a code of 16 or more,
    [signAscii] signs exactly the octets of the text (one per character),
    and [verifyAscii] checks the signature against these octets: the two
    are [signBuffer] and [verifyBytes] of the text read as Latin-1. *)
Theorem signAscii_signs_the_text env s sig owner w :
  Forall (fun c => (16 <= code c)%N) (list_ascii_of_string s) ->
  Buffer_from_hex (ascii_to_hexa s) = Buffer_from_ascii s
  /\ signAscii env s owner w = signBuffer env (Buffer_from_ascii s) owner w
  /\ verifyAscii env s sig None w
     = verifyBytes env (Buffer_from_ascii s) sig w.
Proof.
  intros H. pose proof (ascii_to_hexa_pairs s H) as Hhex.
  split; [rewrite Hhex; apply hex_decode_encode|]. split.
  - unfold signAscii, signMessage. rewrite bind_resolve, Hhex.
    rewrite hex_decode_encode. reflexivity.
  - unfold verifyAscii, verifyBytes. rewrite Hhex. reflexivity.
Qed.

Lemma signAscii_signs_the_text_witness :
  Buffer_from_hex (ascii_to_hexa "pay me") = Buffer_from_ascii "pay me"
  /\ signAscii sample_env "pay me" None (start 0 [signature_reply])
     = signBuffer sample_env (Buffer_from_ascii "pay me") None
         (start 0 [signature_reply]).
Proof.
  destruct (signAscii_signs_the_text sample_env "pay me" "" None
              (start 0 [signature_reply])) as (H1 & H2 & _).
  - repeat constructor; discriminate.
  - split; [exact H1|exact H2].
Defined.

(** X10. With a provider that is neither LND nor GREENLIGHT the client is
    built as for LND, and then [signBuffer] and [verifyMessage] take
    neither branch: they send nothing and never settle. *)
Theorem sign_verify_other_provider env msg hex sig owner w c w1 :
  IS_LND env = false -> IS_GREENLIGHT env = false ->
  loadLightning env true owner false w = (Resolved c, w1) ->
  signBuffer env msg owner w = (Pending, w1)
  /\ verifyMessage env hex sig owner w = (Pending, w1)
  /\ sent_by (signBuffer env msg owner) w = []
  /\ sent_by (verifyMessage env hex sig owner) w = [].
Proof.
  intros Hl Hg Hc.
  assert (Hs : signBuffer env msg owner w = (Pending, w1)).
  { unfold signBuffer, try_catch, bind. rewrite Hc, Hg. unfold isLND.
    rewrite Hl. reflexivity. }
  assert (Hv : verifyMessage env hex sig owner w = (Pending, w1)).
  { unfold verifyMessage, try_catch, bind. rewrite Hc, Hg. unfold isLND.
    rewrite Hl. reflexivity. }
  pose proof (loadLightning_outbox env true owner false w) as Ho.
  rewrite Hc in Ho. cbn [snd] in Ho.
  split; [exact Hs|]. split; [exact Hv|].
  split; apply sent_by_app; [rewrite Hs|rewrite Hv]; cbn [snd];
    rewrite app_nil_r; exact Ho.
Qed.

Lemma sign_verify_other_provider_witness :
  signBuffer cln_env [chr 104; chr 105] None (connected 0 [signature_reply])
  = (Pending, connected 0 [signature_reply])
  /\ verifyMessage cln_env "6869" "20aabb" None
       (connected 0 [signature_reply])
     = (Pending, connected 0 [signature_reply]).
Proof.
  destruct (sign_verify_other_provider cln_env [chr 104; chr 105] "6869"
              "20aabb" None (connected 0 [signature_reply]) lnd_client
              (connected 0 [signature_reply]) eq_refl eq_refl eq_refl)
    as (Hs & Hv & _).
  split; [exact Hs|exact Hv].
Defined.

(** X11. On LND [verifyMessage] passes the verdict of the node on as it
    is: it sends the decoded message with the signature, resolves with the
    reply whenever the reply names a pubkey, also when the reply says that
    the signature is not valid, and rejects when the node reports an error
    or names no pubkey. *)
Theorem verifyMessage_lnd_verdict env hex sig owner w c w1 err response rest :
  IS_GREENLIGHT env = false -> IS_LND env = true ->
  loadLightning env true owner false w = (Resolved c, w1) ->
  inbox w = Callback err response :: rest ->
  sent_by (verifyMessage env hex sig owner) w
  = [VerifyMessage c (Buffer_from_hex hex) sig]
  /\ (forall valid pubkey,
        err = None -> response = Some (RVerify valid pubkey) ->
        pubkey <> "" ->
        (verifyMessage env hex sig owner w).1
        = Resolved (RVerify valid pubkey))
  /\ (forall valid,
        err = None -> response = Some (RVerify valid "") ->
        (verifyMessage env hex sig owner w).1 = Rejected ENull)
  /\ (forall e, err = Some e ->
        (verifyMessage env hex sig owner w).1 = Rejected e).
Proof.
  intros Hg Hl Hc Hin.
  pose proof (loadLightning_outbox env true owner false w) as Ho.
  pose proof (loadLightning_inbox env true owner false w) as Hi.
  rewrite Hc in Ho, Hi. cbn [snd] in Ho, Hi.
  assert (Hv : verifyMessage env hex sig owner w
    = ((match err, response with
        | None, Some r =>
            match r_pubkey r with
            | "" => Rejected ENull
            | _ => Resolved r
            end
        | _, _ => Rejected (or_null err)
        end),
       set_net (outbox w ++ [VerifyMessage c (Buffer_from_hex hex) sig])
         rest w1)).
  { unfold verifyMessage, try_catch, bind. rewrite Hc, Hg. unfold isLND.
    rewrite Hl. unfold call. rewrite Hi, Hin, Ho.
    destruct err as [e|], response as [r|]; try reflexivity.
    destruct (r_pubkey r); reflexivity. }
  split; [|split; [|split]].
  - apply sent_by_app. rewrite Hv. reflexivity.
  - intros valid pubkey -> -> Hne. rewrite Hv. cbn.
    destruct pubkey; [congruence|reflexivity].
  - intros valid -> ->. rewrite Hv. reflexivity.
  - intros e ->. rewrite Hv. destruct response; reflexivity.
Qed.

Lemma verifyMessage_lnd_verdict_witness :
  (verifyMessage sample_env "6869" "d9rz" None
     (connected 0 [Callback None (Some (RVerify false "02aa"))])).1
  = Resolved (RVerify false "02aa").
Proof.
  destruct (verifyMessage_lnd_verdict sample_env "6869" "d9rz" None
              (connected 0 [Callback None (Some (RVerify false "02aa"))])
              lnd_client
              (connected 0 [Callback None (Some (RVerify false "02aa"))])
              None (Some (RVerify false "02aa")) []
              eq_refl eq_refl eq_refl eq_refl) as (_ & Hok & _).
  apply (Hok false "02aa"); [reflexivity|reflexivity|discriminate].
Defined.

Lemma Buffer_concat_exact l n :
  n = List.length (List.concat l) -> Buffer_concat l n = List.concat l.
Proof.
  intros ->. unfold Buffer_concat. rewrite firstn_all, Nat.sub_diag.
  apply app_nil_r.
Qed.

(** X12. On greenlight, signing and then verifying: [signBuffer] puts the
    recovery id of the signer, raised by 31, in front of the 64 octets of
    the signature, 65 octets in all; [verifyMessage] of that signature
    hands the same 64 octets and the same recovery id to the key recovery,
    with the double hash of the prefix followed by the message. This is
    for a zbase32 codec that decodes what it encodes, a signer that
    returns at least 67 octets and a recovery id of at most 224. *)
Theorem greenlight_sign_then_verify env msg owner w c w1 sighex r :
  IS_GREENLIGHT env = true ->
  (forall b, zbase32_decode env (zbase32_encode env b) = inr b) ->
  loadLightning env true owner false w = (Resolved c, w1) ->
  libhsmd_Handle env 1024 (greenlightSignMessagePayload env msg)
  = inr sighex ->
  (67 <= List.length (Buffer_from_hex sighex))%nat ->
  readUInt8 (subarray 66 67 (Buffer_from_hex sighex)) = inr r ->
  r <= 224 ->
  exists sig,
    signBuffer env msg owner w = (Resolved sig, w1)
    /\ zbase32_decode env sig
       = inr (chr (Z.to_N (r + 31))
                :: subarray 2 66 (Buffer_from_hex sighex))
    /\ List.length (subarray 2 66 (Buffer_from_hex sighex)) = 64%nat
    /\ verifyMessage env (Buffer_toString_hex msg) sig owner w1
       = match
           secp256k1_recover env
             (sha256 env (sha256 env (prefixBytes ++ msg)))
             (subarray 2 66 (Buffer_from_hex sighex)) r true
         with
         | inr pk => (Resolved (RVerify true (Buffer_toString_hex pk)), w1)
         | inl e => (Rejected e, w1)
         end.
Proof.
  intros Hg Hz Hc Hsig Hlen Hr Hr224.
  set (sigBuf := Buffer_from_hex sighex) in *.
  assert (Hr0 : 0 <= r < 256).
  { unfold readUInt8 in Hr. destruct (subarray 66 67 sigBuf) as [|x l];
      [discriminate|]. injection Hr as <-. pose proof (code_lt x). lia. }
  assert (H64 : List.length (subarray 2 66 sigBuf) = 64%nat).
  { unfold subarray. rewrite length_firstn, length_skipn. lia. }
  set (final := chr (Z.to_N (r + 31)) :: subarray 2 66 sigBuf).
  exists (zbase32_encode env final).
  assert (Hs : signBuffer env msg owner w
               = (Resolved (zbase32_encode env final), w1)).
  { unfold signBuffer, try_catch, bind. rewrite Hc, Hg. unfold lift at 1.
    rewrite Hsig. unfold resolve at 1. fold sigBuf. rewrite Hr.
    unfold lift, resolve at 1. unfold writeUInt8.
    replace ((0 <=? r + 31) && (r + 31 <=? 255)) with true
      by (symmetry; apply andb_true_intro; split; apply Z.leb_le; lia).
    unfold resolve at 1.
    rewrite Buffer_concat_exact
      by (cbn [List.concat]; rewrite app_nil_r; cbn [app List.length];
          rewrite H64; reflexivity).
    cbn [List.concat]. rewrite app_nil_r. reflexivity. }
  split; [exact Hs|]. split; [apply Hz|]. split; [exact H64|].
  destruct (loadLightning_resolved env true owner false w c w1 Hc)
    as [_ Hagain].
  unfold verifyMessage, try_catch, bind. rewrite Hagain, Hg.
  unfold lift at 1. rewrite Hz. unfold resolve at 1.
  unfold final. cbn [subarray skipn firstn Nat.sub readUInt8].
  unfold lift at 1, resolve at 1.
  rewrite code_chr by lia.
  replace (Z.of_N (Z.to_N (r + 31)) - 31) with r by lia.
  rewrite hex_decode_encode.
  rewrite Buffer_concat_exact
    by (cbn [List.concat]; rewrite app_nil_r, length_app; lia).
  cbn [List.concat]. rewrite app_nil_r.
  fold (subarray 2 66 sigBuf).
  destruct (secp256k1_recover env _ _ r true); reflexivity.
Qed.

Lemma greenlight_sign_then_verify_witness :
  exists sig,
    signBuffer signing_greenlight_env [chr 104; chr 105] None (start 0 [])
    = (Resolved sig,
       set_lightningClient
         (Some (GreenlightNode "greenlight.example:2601"
                  (SslCredentials [] (Some []) (Some []))))
         (start 0 []))
    /\ zbase32_decode signing_greenlight_env sig
       = inr (chr 32 :: repeat (chr 170) 64).
Proof.
  destruct (greenlight_sign_then_verify signing_greenlight_env
              [chr 104; chr 105] None (start 0 [])
              (GreenlightNode "greenlight.example:2601"
                 (SslCredentials [] (Some []) (Some [])))
              (set_lightningClient
                 (Some (GreenlightNode "greenlight.example:2601"
                          (SslCredentials [] (Some []) (Some []))))
                 (start 0 []))
              (Buffer_toString_hex
                 ([chr 0; chr 0] ++ repeat (chr 170) 64 ++ [chr 1]))
              1)
    as (sig & Hs & Hd & _).
  - reflexivity.
  - intros b. cbn. rewrite hex_decode_encode. reflexivity.
  - reflexivity.
  - reflexivity.
  - vm_compute. lia.
  - vm_compute. reflexivity.
  - lia.
  - exists sig. split; [exact Hs|]. rewrite Hd. vm_compute. reflexivity.
Defined.

(** ** The wallet lock: what every run keeps *)

Lemma setLock_invariant value w :
  lock_invariant w -> lock_invariant (setLock value w).
Proof.
  intros [Ht _]. unfold lock_invariant, setLock.
  cbn [timers lockTimeout now isLocked set_lock].
  assert (Hp : match lockTimeout w with
               | Some h => delete h (timers w)
               | None => timers w
               end = ∅).
  { destruct Ht as [E|(h & due & Eh & E & _)].
    - rewrite E. destruct (lockTimeout w); [apply delete_empty|reflexivity].
    - rewrite Eh, E. apply delete_singleton_eq. }
  rewrite Hp. split.
  - right. exists (next_timer w), (now w + 1000 * 60 * 2).
    split; [reflexivity|]. split; [reflexivity|lia].
  - intros _. apply insert_non_empty.
Qed.

Lemma elapse_invariant ms w :
  0 <= ms -> lock_invariant w -> lock_invariant (elapse ms w).
Proof.
  intros Hms [Ht Hl]. unfold lock_invariant, elapse, run_timers.
  cbn [timers now set_now].
  destruct Ht as [E|(h & due & Eh & E & Hdue)].
  - rewrite E, map_filter_empty. rewrite decide_True by reflexivity.
    cbn [timers now isLocked lockTimeout set_now]. rewrite E.
    split; [left; reflexivity|]. intros Hk. apply Hl in Hk. congruence.
  - rewrite E. destruct (Z_le_gt_dec due (now w + ms)) as [Hle|Hgt].
    + rewrite map_filter_singleton_True by (cbn; lia).
      rewrite decide_False by apply map_non_empty_singleton.
      cbn [timers now isLocked lockTimeout set_lock set_now].
      rewrite map_filter_singleton_False by (cbn; lia).
      split; [left; reflexivity|discriminate].
    + rewrite map_filter_singleton_False by (cbn; lia).
      rewrite decide_True by reflexivity.
      cbn [timers now isLocked lockTimeout set_now]. rewrite E. split.
      * right. exists h, due. split; [exact Eh|]. split; [reflexivity|lia].
      * intros _. apply map_non_empty_singleton.
Qed.

Lemma lock_run_invariant events : forall w,
  forallb forward events = true ->
  lock_invariant w -> lock_invariant (lock_run events w).
Proof.
  induction events as [|e events IH]; intros w Hf Hw; [exact Hw|].
  cbn [forallb] in Hf. apply andb_prop in Hf as [He Hf].
  cbn [lock_run fold_left]. apply IH; [exact Hf|].
  destruct e as [value|ms]; cbn [lock_step].
  - apply setLock_invariant. exact Hw.
  - apply elapse_invariant; [apply Z.leb_le; exact He|exact Hw].
Qed.

(** X13. From the start of the process on, whatever calls of [setLock]
    and steps of time follow: at most one timeout is pending; and whenever
    the wallet is locked, the timeout that [lockTimeout] names is pending
    and due within two minutes, so that the lock cannot stay forever. *)
Theorem lock_never_sticks events time replies :
  forallb forward events = true ->
  let w := lock_run events (start time replies) in
  (size (timers w) <= 1)%nat
  /\ (getLock w = true ->
      exists h due,
        lockTimeout w = Some h /\ timers w = {[ h := due ]}
        /\ now w < due <= now w + 1000 * 60 * 2).
Proof.
  intros Hf w.
  assert (Hinv : lock_invariant w).
  { apply lock_run_invariant; [exact Hf|].
    split; [left; reflexivity|discriminate]. }
  destruct Hinv as [Ht Hl]. split.
  - destruct Ht as [E|(h & due & _ & E & _)]; rewrite E.
    + rewrite map_size_empty. lia.
    + rewrite map_size_singleton. lia.
  - intros Hk. apply Hl in Hk.
    destruct Ht as [E|Ht]; [congruence|exact Ht].
Qed.

Lemma lock_never_sticks_witness :
  (size (timers (lock_run [SetLock true; TimePasses 1000; SetLock true;
                           TimePasses 119999; SetLock false]
                   (start 0 []))) <= 1)%nat.
Proof.
  exact (proj1 (lock_never_sticks
                  [SetLock true; TimePasses 1000; SetLock true;
                   TimePasses 119999; SetLock false] 0 [] eq_refl)).
Defined.

(** ** The token codec: fields, signed octets, signature *)

Lemma b64_char_safe n :
  (n < 64)%N ->
  url_safe (b64_char n) = true
  \/ b64_char n = "+"%char \/ b64_char n = "/"%char.
Proof.
  intros H.
  pose proof (below_forallb
    (fun n => url_safe (b64_char n)
              || Ascii.eqb (b64_char n) "+" || Ascii.eqb (b64_char n) "/")
    64 eq_refl n H) as Hc.
  cbv beta in Hc. apply orb_true_iff in Hc as [Hc|Hc];
    [apply orb_true_iff in Hc as [Hc|Hc]|].
  - left. exact Hc.
  - right. left. apply Ascii.eqb_eq. exact Hc.
  - right. right. apply Ascii.eqb_eq. exact Hc.
Qed.

Lemma url_safe_step n s :
  (n < 64)%N ->
  string_forall url_safe
    (replace_all "+" "-" (replace_all "/" "_" s)) = true ->
  string_forall url_safe
    (replace_all "+" "-" (replace_all "/" "_" (String (b64_char n) s)))
  = true.
Proof.
  intros Hn Hs. destruct (b64_char_safe n Hn) as [H|[H|H]].
  - cbn [replace_all].
    destruct (Ascii.eqb (b64_char n) "/") eqn:E1.
    { apply Ascii.eqb_eq in E1. rewrite E1 in H. discriminate. }
    cbn [replace_all].
    destruct (Ascii.eqb (b64_char n) "+") eqn:E2.
    { apply Ascii.eqb_eq in E2. rewrite E2 in H. discriminate. }
    cbn [string_forall]. rewrite H, Hs. reflexivity.
  - rewrite H. cbn [replace_all Ascii.eqb Bool.eqb].
    rewrite append_cons, append_nil_l. cbn [string_forall].
    rewrite Hs. reflexivity.
  - rewrite H. cbn [replace_all Ascii.eqb Bool.eqb].
    rewrite append_cons, append_nil_l.
    cbn [replace_all Ascii.eqb Bool.eqb string_forall].
    rewrite Hs. reflexivity.
Qed.

(** X14. The URL-safe base64 of any octets consists of letters, digits,
    [-], [_] and [=] only (so neither [+], [/] nor the dot that separates
    the fields of a token occurs in it), and decoding it gives the octets
    back; [urlBase64FromBytes] is the same function. *)
Theorem urlBase64_url_safe buf :
  string_forall url_safe (urlBase64 buf) = true
  /\ includes "." (urlBase64 buf) = false
  /\ Buffer_from_base64 (urlBase64 buf) = buf
  /\ urlBase64FromBytes buf = urlBase64 buf.
Proof.
  split; [|split; [apply urlBase64_no_dot|
                   split; [apply urlBase64_roundtrip|reflexivity]]].
  unfold urlBase64.
  induction buf as [|x|x y|x y z l IH] using list_ind3.
  - reflexivity.
  - pose proof (code_lt x). cbn [Buffer_toString_base64].
    repeat (apply url_safe_step; [euclid|]). reflexivity.
  - pose proof (code_lt x). pose proof (code_lt y).
    cbn [Buffer_toString_base64].
    repeat (apply url_safe_step; [euclid|]). reflexivity.
  - pose proof (code_lt x). pose proof (code_lt y). pose proof (code_lt z).
    cbn [Buffer_toString_base64].
    repeat (apply url_safe_step; [euclid|]). exact IH.
Qed.

Lemma startLDAT_fields host_ muid_ pk exp meta_ :
  let bufs :=
    [Buffer_from_ascii host_; Buffer_from_base64 muid_;
     match pk with EmptyString => [] | _ => Buffer_from_base64 pk end;
     if exp =? 0 then [] else Buffer_from_hex (Number_toString 16 exp);
     Buffer_from_ascii (serializeMeta meta_)] in
  split "." (startLDAT host_ muid_ pk exp meta_).1 = map urlBase64 bufs
  /\ (startLDAT host_ muid_ pk exp meta_).2 = List.concat bufs.
Proof.
  intros bufs. split.
  - rewrite startLDAT_terms. apply split_dot_join; [discriminate|].
    repeat constructor; apply urlBase64_no_dot.
  - subst bufs. unfold startLDAT. cbn [snd]. apply Buffer_concat_exact.
    cbn [List.concat]. rewrite !length_app. cbn [List.length]. lia.
Qed.

Lemma map_decode_urlBase64 bufs :
  map Buffer_from_base64 (map urlBase64 bufs) = bufs.
Proof.
  induction bufs as [|b l IH]; [reflexivity|].
  cbn [map]. rewrite urlBase64_roundtrip, IH. reflexivity.
Qed.

(** X15. The octets that [startLDAT] hands over for signing can be read
    back from the five fields of its text: they are the octets of the
    decoded fields, one after the other. *)
Theorem startLDAT_bytes_of_terms host_ muid_ pk exp meta_ :
  List.length (split "." (startLDAT host_ muid_ pk exp meta_).1) = 5%nat
  /\ List.concat
       (map Buffer_from_base64
          (split "." (startLDAT host_ muid_ pk exp meta_).1))
     = (startLDAT host_ muid_ pk exp meta_).2.
Proof.
  destruct (startLDAT_fields host_ muid_ pk exp meta_) as [Hf Hb].
  rewrite Hf, Hb. split; [reflexivity|].
  rewrite map_decode_urlBase64. reflexivity.
Qed.

Lemma split_dot_app a : forall cur b,
  split_go "." 0 cur (a +:+ String "." b)
  = split_go "." 0 cur a ++ split_go "." 0 "" b.
Proof.
  induction a as [|c a IH]; intros cur b.
  - rewrite append_nil_l. cbn [split_go]. rewrite prefix_dot.
    reflexivity.
  - rewrite append_cons. cbn [split_go]. rewrite !prefix_dot.
    destruct (Ascii.eqb c "."); cbn [String.length Nat.sub];
      rewrite IH; reflexivity.
Qed.

Lemma split_dot_snoc token last :
  includes "." last = false ->
  split "." (token +:+ "." +:+ last) = split "." token ++ [last].
Proof.
  intros H. unfold split.
  change (token +:+ "." +:+ last) with (token +:+ String "." last).
  rewrite split_dot_app, (split_dot_last last) by exact H.
  rewrite append_nil_l. reflexivity.
Qed.

(** X16. The signature of a token. With a requester key that is not
    empty, a token that [tokenFromTerms] produces has six fields; the
    signer was asked to sign exactly the octets that the first five fields
    decode to, for the owner of the term set, and the sixth field decodes
    to the octets of its signature. With the empty requester key nothing
    is signed: the token has five fields and the state is left as it
    was. *)
Theorem tokenFromTerms_signature env t w token w1 pk :
  pubkey t = Some pk ->
  tokenFromTerms env t w = (Resolved token, w1) ->
  (pk = "" ->
   w1 = w /\ List.length (split "." token) = 5%nat)
  /\ (pk <> "" ->
      exists sig sigBytes,
        List.length (split "." token) = 6%nat
        /\ signBuffer env
             (List.concat
                (map Buffer_from_base64 (take 5 (split "." token))))
             (ownerPubkey t) w
           = (Resolved sig, w1)
        /\ zbase32_decode env sig = inr sigBytes
        /\ Buffer_from_base64 <$> split "." token !! 5%nat = Some sigBytes).
Proof.
  intros Hpk. unfold tokenFromTerms. rewrite Hpk.
  set (theHost := match host t with "" => media_host (config env)
                                 | h => h end).
  set (pk64 := urlBase64FromBytes (Buffer_from_hex pk)).
  set (exp := expiry (now w / 1000) (ttl t)).
  destruct (startLDAT_bytes_of_terms theHost (muid t) pk64 exp (meta t))
    as [H5 Hbytes].
  set (ldat := startLDAT theHost (muid t) pk64 exp (meta t)) in *.
  clearbody ldat.
  destruct pk as [|p0 ps].
  - intros H. injection H as <- <-. split; [|congruence].
    intros _. split; [reflexivity|exact H5].
  - unfold bind.
    destruct (signBuffer env ldat.2 (ownerPubkey t) w) as [[sig|e|] w2] eqn:Es;
      try discriminate.
    unfold lift. destruct (zbase32_decode env sig) as [e|sigBytes] eqn:Ez;
      [discriminate|].
    unfold resolve. intros H. injection H as <- <-.
    split; [congruence|]. intros _. exists sig, sigBytes.
    change (urlBase64FromBytes sigBytes) with (urlBase64 sigBytes).
    rewrite split_dot_snoc by apply urlBase64_no_dot.
    split; [rewrite length_app, H5; reflexivity|].
    split; [|split; [exact Ez|]].
    + rewrite take_app_length' by (symmetry; exact H5).
      rewrite Hbytes. exact Es.
    + rewrite lookup_app_r by (rewrite H5; lia). rewrite H5.
      cbn. rewrite urlBase64_roundtrip. reflexivity.
Qed.

Lemma tokenFromTerms_signature_witness :
  exists token w1 sig,
    tokenFromTerms sample_env sample_terms
      (start 1700000000000 [signature_reply]) = (Resolved token, w1)
    /\ List.length (split "." token) = 6%nat
    /\ signBuffer sample_env
         (List.concat (map Buffer_from_base64 (take 5 (split "." token))))
         (Some sample_pubkey) (start 1700000000000 [signature_reply])
       = (Resolved sig, w1).
Proof.
  destruct (tokenFromTerms sample_env sample_terms
              (start 1700000000000 [signature_reply]))
    as [[token|e|] w1] eqn:E; [|vm_compute in E; discriminate..].
  destruct (tokenFromTerms_signature sample_env sample_terms
              (start 1700000000000 [signature_reply]) token w1
              sample_pubkey eq_refl E) as [_ Hsigned].
  destruct Hsigned as (sig & sigBytes & H6 & Hs & _); [discriminate|].
  exists token, w1, sig. split; [reflexivity|]. split; [exact H6|exact Hs].
Defined.

(** ** parseLDAT: what it does not check *)

Lemma parse_terms_extra keys : forall a extra o,
  (List.length keys <= List.length a)%nat ->
  parse_terms keys (a ++ extra) o = parse_terms keys a o.
Proof.
  induction keys as [|[key func] keys IH]; intros a extra o Hlen;
    [reflexivity|].
  destruct a as [|ai a]; [simpl in Hlen; lia|].
  cbn [app parse_terms]. simpl in Hlen.
  destruct ai as [|c s].
  - apply IH. lia.
  - destruct (func _); [apply IH; lia|reflexivity].
Qed.

Lemma split_dot_append token junk :
  split "." (token +:+ "." +:+ junk) = split "." token ++ split "." junk.
Proof. unfold split. apply split_dot_app. Qed.

(** What the decoders leave alone: a key to which no field that is not
    empty belongs. *)
Lemma parse_terms_untouched k keys : forall a o o',
  parse_terms keys a o = Some o' ->
  (forall i key func ai,
      keys !! i = Some (key, func) -> a !! i = Some ai -> ai <> "" ->
      key <> k) ->
  o' !! k = o !! k.
Proof.
  induction keys as [|[key func] keys IH]; intros a o o' H Hk.
  - injection H as <-. reflexivity.
  - cbn [parse_terms] in H. destruct a as [|ai a].
    + apply (IH [] o o' H). intros i key' func' ai' _ Hai.
      rewrite lookup_nil in Hai. discriminate.
    + assert (Hrest : forall i key' func' ai',
                keys !! i = Some (key', func') -> a !! i = Some ai' ->
                ai' <> "" -> key' <> k).
      { intros i key' func' ai' H1 H2 H3.
        exact (Hk (S i) key' func' ai' H1 H2 H3). }
      destruct ai as [|c s].
      * exact (IH a o o' H Hrest).
      * destruct (func _) as [v|]; [|discriminate].
        rewrite (IH a _ o' H Hrest).
        apply lookup_insert_ne.
        apply (Hk 0%nat key func (String c s)); [reflexivity..|discriminate].
Qed.

(** X17. [parseLDAT] reads the first six fields of a text and nothing
    else: whatever follows a sixth dot is ignored, so that a token with
    further text appended parses like the token itself; the empty text
    parses to the empty object; and a key appears in the result only if
    its field is there and not empty. *)
Theorem parseLDAT_reads_six_fields :
  (forall token junk,
     (6 <= List.length (split "." token))%nat ->
     parseLDAT (token +:+ "." +:+ junk) = parseLDAT token)
  /\ parseLDAT "" = Some ∅
  /\ (forall token o i key func,
        parseLDAT token = Some o ->
        termKeys !! i = Some (key, func) ->
        (split "." token !! i = None \/ split "." token !! i = Some "") ->
        o !! key = None).
Proof.
  split; [|split].
  - intros token junk H6. unfold parseLDAT.
    rewrite split_dot_append. apply parse_terms_extra. exact H6.
  - reflexivity.
  - intros token o i key func Ho Hkey Hfield. unfold parseLDAT in Ho.
    rewrite (parse_terms_untouched key _ _ _ _ Ho); [apply lookup_empty|].
    intros j key' func' aj Hj Haj Hne ->.
    assert (i = j).
    { clear -Hkey Hj.
      do 6 (destruct i as [|i];
            [do 6 (destruct j as [|j];
                   [cbn in *; congruence|]); cbn in Hj; discriminate|]).
      cbn in Hkey. discriminate. }
    subst j. destruct Hfield as [E|E]; rewrite E in Haj; congruence.
Qed.

Lemma parseLDAT_reads_six_fields_witness :
  parseLDAT ("aGk=.qFQ=.A3M=.ZVRwgA==.YT0x.IKq7.anything.else")
  = parseLDAT "aGk=.qFQ=.A3M=.ZVRwgA==.YT0x.IKq7".
Proof.
  apply (proj1 parseLDAT_reads_six_fields
           "aGk=.qFQ=.A3M=.ZVRwgA==.YT0x.IKq7" "anything.else").
  vm_compute. lia.
Defined.

(** ** serializeMeta: a canonical text *)

Lemma ascii_compare_lt_trans a b c :
  Ascii.compare a b = Lt -> Ascii.compare b c = Lt -> Ascii.compare a c = Lt.
Proof.
  unfold Ascii.compare. rewrite !N.compare_lt_iff. lia.
Qed.

Lemma string_compare_trans s1 : forall s2 s3,
  String.compare s1 s2 <> Gt -> String.compare s2 s3 <> Gt ->
  String.compare s1 s3 <> Gt.
Proof.
  induction s1 as [|c1 s1 IH]; intros s2 s3 H12 H23.
  - destruct s3; discriminate.
  - destruct s2 as [|c2 s2]; [cbn in H12; congruence|].
    destruct s3 as [|c3 s3]; [cbn in H23; congruence|].
    cbn [String.compare] in *.
    destruct (Ascii.compare c1 c2) eqn:E12; [| |congruence].
    + apply Ascii.compare_eq_iff in E12. subst c2.
      destruct (Ascii.compare c1 c3); [|discriminate|congruence].
      exact (IH s2 s3 H12 H23).
    + destruct (Ascii.compare c2 c3) eqn:E23; [| |congruence].
      * apply Ascii.compare_eq_iff in E23. subst c3. rewrite E12.
        discriminate.
      * rewrite (ascii_compare_lt_trans _ _ _ E12 E23). discriminate.
Qed.

Lemma string_leb_trans s1 s2 s3 :
  String.leb s1 s2 = true -> String.leb s2 s3 = true ->
  String.leb s1 s3 = true.
Proof.
  unfold String.leb. intros H12 H23.
  pose proof (string_compare_trans s1 s2 s3) as H.
  destruct (String.compare s1 s2); try discriminate;
    destruct (String.compare s2 s3); try discriminate;
    destruct (String.compare s1 s3); try reflexivity;
    exfalso; apply H; congruence.
Qed.

Lemma sort_insert_sorted x l :
  Sorted (fun a b => String.leb a b = true) l ->
  Sorted (fun a b => String.leb a b = true) (sort_insert x l).
Proof.
  induction l as [|y l IH]; intros Hs.
  - repeat constructor.
  - cbn [sort_insert]. destruct (String.leb x y) eqn:E.
    + constructor; [exact Hs|]. constructor. exact E.
    + inversion Hs as [|? ? Hl Hhd]; subst.
      constructor; [exact (IH Hl)|].
      assert (Hyx : String.leb y x = true).
      { destruct (String.leb_total x y) as [H|H]; [congruence|exact H]. }
      destruct l as [|z l]; cbn [sort_insert].
      * constructor. exact Hyx.
      * inversion Hhd; subst.
        destruct (String.leb x z); constructor; assumption.
Qed.

Lemma sort_ascending_sorted l :
  Sorted (fun a b => String.leb a b = true) (sort_ascending l).
Proof.
  induction l as [|x l IH]; [constructor|].
  apply sort_insert_sorted. exact IH.
Qed.

(** X18. The text of a metadata object does not depend on the order in
    which its properties are enumerated: two objects with the same entries
    serialize to the same text, whose entries come in ascending order of
    their code units. *)
Theorem serializeMeta_order_independent m1 m2 :
  m1 ≡ₚ m2 ->
  serializeMeta m1 = serializeMeta m2
  /\ exists entries,
       serializeMeta m1 = join "&" entries
       /\ Sorted (fun a b => String.leb a b = true) entries
       /\ entries
          ≡ₚ map (fun p => encodeURIComponent p.1 +:+ "="
                           +:+ encodeURIComponent (MetaVal_toString p.2)) m1.
Proof.
  intros Hperm. unfold serializeMeta.
  set (f := fun p : string * MetaVal =>
              encodeURIComponent p.1 +:+ "="
                +:+ encodeURIComponent (MetaVal_toString p.2)).
  split.
  - f_equal.
    assert (HT : Transitive (fun a b => String.leb a b = true))
      by (intros a b c; apply string_leb_trans).
    assert (HA : AntiSymm eq (fun a b => String.leb a b = true))
      by (intros a b; apply String.leb_antisym).
    apply (Sorted_unique (fun a b => String.leb a b = true)).
    + apply sort_ascending_sorted.
    + apply sort_ascending_sorted.
    + rewrite !sort_ascending_perm. apply Permutation_map. exact Hperm.
  - exists (sort_ascending (map f m1)).
    split; [reflexivity|].
    split; [apply sort_ascending_sorted|apply sort_ascending_perm].
Qed.

Lemma serializeMeta_order_independent_witness :
  serializeMeta [("ttl", MNum 31536000); ("amt", MNum 100)]
  = serializeMeta [("amt", MNum 100); ("ttl", MNum 31536000)].
Proof.
  apply (proj1 (serializeMeta_order_independent
                  [("ttl", MNum 31536000); ("amt", MNum 100)]
                  [("amt", MNum 100); ("ttl", MNum 31536000)]
                  (perm_swap _ _ _))).
Defined.

(** ** The metadata codec: what comes back *)

Lemma encodeURIComponent_inj a b :
  encodeURIComponent a = encodeURIComponent b -> a = b.
Proof.
  intros H. pose proof (decode_encode a) as Ha.
  rewrite H, decode_encode in Ha. congruence.
Qed.

(** X19. What [deserializeMeta] returns for the text that [serializeMeta]
    wrote, for an object with distinct keys, none of them empty or
    [__proto__], whose text is longer than two characters: every entry
    comes back under its percent-encoded key (keys are not decoded), with
    its value decoded and then read by [parseInt], a number if that gives
    a number other than zero and the decoded string otherwise. A text of
    at most two characters comes back as the empty object. *)
Theorem deserializeMeta_serializeMeta m :
  NoDup (map fst m) ->
  Forall (fun p => p.1 <> "" /\ p.1 <> "__proto__") m ->
  forallb (fun p => exact_value p.2) m = true ->
  ((2 < String.length (serializeMeta m))%nat ->
   deserializeMeta (serializeMeta m)
   = Some (list_to_map (map returned_entry m))
   /\ forall k v, In (k, v) m ->
        (list_to_map (map returned_entry m) : gmap string MetaVal)
          !! encodeURIComponent k
        = Some (coerce (MetaVal_toString v)))
  /\ ((String.length (serializeMeta m) <= 2)%nat ->
      deserializeMeta (serializeMeta m) = Some ∅).
Proof.
  intros Hnd Hkeys _.
  assert (Hndr : NoDup (map fst (map returned_entry m))).
  { rewrite map_map. cbn [returned_entry fst].
    rewrite <- (map_map fst encodeURIComponent).
    change (NoDup (encodeURIComponent <$> map fst m)).
    apply NoDup_fmap_2; [|exact Hnd].
    intros a b. apply encodeURIComponent_inj. }
  split.
  2:{ intros Hlen. unfold deserializeMeta.
      replace (2 <? String.length (serializeMeta m))%nat with false
        by (symmetry; apply Nat.ltb_ge; exact Hlen).
      rewrite fmap_empty, delete_empty. reflexivity. }
  intros Hlen. split.
  2:{ intros k v Hin. apply elem_of_list_to_map_1.
      - exact Hndr.
      - apply list_elem_of_In.
        change (encodeURIComponent k, coerce (MetaVal_toString v))
          with (returned_entry (k, v)).
        apply in_map. exact Hin. }
  revert Hlen. unfold serializeMeta.
  set (f := fun p : string * MetaVal =>
              encodeURIComponent p.1 +:+ "="
                +:+ encodeURIComponent (MetaVal_toString p.2)).
  destruct (@Permutation_map_inv _ _ f (sort_ascending (map f m)) m
              (sort_ascending_perm _)) as (m' & Hsort & Hperm).
  rewrite Hsort. clear Hsort. intros Hlen.
  assert (Hkeys' : Forall (fun p => p.1 <> "" /\ p.1 <> "__proto__") m').
  { rewrite <- Hperm. exact Hkeys. }
  assert (Hnd' : NoDup (fst <$> m')).
  { rewrite <- Hperm. exact Hnd. }
  replace (map f m') with (map entry_text (map encoded_entry m')) in *
    by (rewrite map_map; reflexivity).
  set (entries := map encoded_entry m') in *.
  assert (Hsafe : Forall safe_entry entries).
  { apply Forall_forall. intros kv Hkv. apply list_elem_of_In in Hkv.
    apply in_map_iff in Hkv as (p & <- & _).
    split; apply encode_safe. }
  assert (Hkeq : map fst entries = encodeURIComponent <$> (fst <$> m')).
  { unfold entries. rewrite map_map. rewrite <- list_fmap_compose.
    reflexivity. }
  assert (Hent : entries <> []).
  { intros E. rewrite E in Hlen. cbn in Hlen. lia. }
  assert (Hnde : NoDup (map fst entries)).
  { rewrite Hkeq. apply NoDup_fmap_2; [|exact Hnd'].
    intros a b. apply encodeURIComponent_inj. }
  assert (Hnokey : forall k,
    (k = "" \/ k = "__proto__") ->
    forall V (g : string * string -> string * V),
      (forall kv, (g kv).1 = kv.1) ->
      (list_to_map (g <$> entries) : gmap string V) !! k = None).
  { intros k Hk V g Hg. apply not_elem_of_list_to_map_1.
    rewrite <- list_fmap_compose. intros Hin.
    apply list_elem_of_fmap in Hin as (kv & Hkv1 & Hkv2).
    cbn [compose] in Hkv1. rewrite Hg in Hkv1.
    unfold entries in Hkv2.
    apply list_elem_of_fmap in Hkv2 as (p & -> & Hp).
    rewrite Forall_forall in Hkeys'. destruct (Hkeys' p Hp) as [H1 H2].
    cbn [encoded_entry fst] in Hkv1.
    destruct Hk as [-> | ->].
    - symmetry in Hkv1. exact (encode_nonempty _ H1 Hkv1).
    - apply H2. apply encodeURIComponent_inj. rewrite <- Hkv1.
      reflexivity. }
  unfold deserializeMeta. apply Nat.ltb_lt in Hlen. rewrite Hlen.
  rewrite JSON_parse_meta by assumption.
  assert (Hnoempty : (list_to_map entries : gmap string string) !! ""
                     = None).
  { rewrite <- (list_fmap_id entries).
    apply (Hnokey "" (or_introl eq_refl) string id). reflexivity. }
  unfold revive. rewrite Hnoempty, delete_id by exact Hnoempty.
  rewrite decide_True.
  - f_equal. rewrite <- !list_to_map_fmap.
    rewrite <- list_fmap_compose.
    rewrite delete_id.
    2:{ apply (Hnokey "__proto__" (or_intror eq_refl)).
        intros [k v]. reflexivity. }
    assert (Hback : prod_map id coerce
                      ∘ prod_map id (fun v => default "" (decodeURIComponent v))
                      <$> entries = map returned_entry m').
    { unfold entries. rewrite <- list_fmap_compose.
      apply list_fmap_ext. intros i [k v] _.
      unfold encoded_entry, returned_entry, prod_map, compose.
      cbn [fst snd id]. rewrite decode_encode. reflexivity. }
    rewrite Hback. symmetry.
    apply list_to_map_proper; [exact Hndr|].
    apply Permutation_map. exact Hperm.
  - intros k v Hkv. apply elem_of_list_to_map_2 in Hkv.
    apply list_elem_of_In, in_map_iff in Hkv as (p & Hp & _).
    injection Hp as _ <-. rewrite decode_encode. eexists. reflexivity.
Qed.

Lemma deserializeMeta_serializeMeta_witness :
  deserializeMeta
    (serializeMeta [("dim", MStr "1500x1300"); ("a b", MStr "x y");
                    ("amt", MNum 100)])
  = Some (list_to_map [("dim", MNum 1500); ("a%20b", MStr "x y");
                       ("amt", MNum 100)]).
Proof.
  destruct (deserializeMeta_serializeMeta
              [("dim", MStr "1500x1300"); ("a b", MStr "x y");
               ("amt", MNum 100)]) as [Hlong _].
  - apply (bool_decide_unpack _). reflexivity.
  - repeat constructor; discriminate.
  - reflexivity.
  - destruct Hlong as [H _]; [vm_compute; lia|]. exact H.
Defined.

(** ** The other calls: paginated payment history *)

Import Calls.

Lemma set_world_same n : set_world (world n) n = n.
Proof. destruct n. reflexivity. Qed.

Lemma on_world_resolved {A} (m : Async A) n a w1 :
  m (world n) = (Resolved a, w1) ->
  on_world m n = (Resolved a, set_world w1 n).
Proof. intros H. unfold on_world. rewrite H. reflexivity. Qed.

Lemma listPaymentsPaginated_reply env limit i c n w1 err response rest :
  loadLightning env false None false (world n) = (Resolved c, w1) ->
  answers n = Unary err response :: rest ->
  listPaymentsPaginated env limit i n
  = ((match err, response with
      | None, Some r =>
          match a_payments r with
          | Some _ => Resolved r
          | None => Rejected ENull
          end
      | _, _ => Rejected (or_null err)
      end),
     called (ListPayments c (Some limit) (Some i) (Some true)) rest
       (set_world w1 n)).
Proof.
  intros Hl Hin. unfold listPaymentsPaginated, and_then, escaping, catching.
  rewrite (on_world_resolved _ _ _ _ Hl).
  unfold rpc. cbn [answers set_world]. rewrite Hin.
  destruct err as [e|], response as [r|]; simpl; try reflexivity.
  destruct (a_payments r); reflexivity.
Qed.

Lemma payments_walk env c (pages : list (string * list Payment)) :
  forall depth i n w1 final rest,
    (List.length pages < depth)%nat ->
    loadLightning env false None false (world n) = (Resolved c, w1) ->
    Forall (fun p => offset_positive p.1 = true) pages ->
    answers n = map (fun p => payments_page p.1 p.2) pages ++ final :: rest ->
    (forall offset items,
        final = payments_page offset items ->
        offset_positive offset = false ->
        paginatePayments_rec env depth 40 i n
        = (Resolved (concat (map snd pages) ++ items),
           {| world := w1; walletUnlocker := walletUnlocker n;
              calls := calls n
                       ++ payment_requests c i (pages ++ [(offset, items)]);
              answers := rest |}))
    /\ (failed_answer final ->
        paginatePayments_rec env depth 40 i n
        = (Resolved (concat (map snd pages)),
           {| world := w1; walletUnlocker := walletUnlocker n;
              calls := calls n ++ payment_requests c i (pages ++ [("", [])]);
              answers := rest |})).
Proof.
  induction pages as [|[off items0] pages IH];
    intros depth i n w1 final rest Hd Hl Hpos Hin;
    (destruct depth as [|depth]; [simpl in Hd; lia|]).
  - simpl in Hin. split.
    + intros offset items -> Hstop. unfold payments_page in Hin. simpl.
      unfold catching, and_then.
      rewrite (listPaymentsPaginated_reply _ _ _ _ _ _ _ _ _ Hl Hin). simpl.
      unfold offset_positive in Hstop.
      destruct (parseInt offset) as [o|]; [rewrite Hstop|]; reflexivity.
    + intros Hfail. simpl. unfold catching, and_then.
      destruct final as [err response|evs]; [|contradiction].
      rewrite (listPaymentsPaginated_reply _ _ _ _ _ _ _ _ _ Hl Hin).
      destruct err as [e|], response as [r|]; simpl in *; try reflexivity.
      rewrite Hfail. reflexivity.
  - inversion Hpos as [|? ? Hoff Hrest]; subst. simpl in Hoff, Hin.
    unfold payments_page at 1 in Hin.
    pose proof (loadLightning_static _ _ _ _ _ _ Hl) as Hw1.
    set (n2 := called (ListPayments c (Some 40) (Some i) (Some true))
                 (map (fun p => payments_page p.1 p.2) pages ++ final :: rest)
                 (set_world w1 n)).
    assert (Hl2 : loadLightning env false None false (world n2)
                  = (Resolved c, w1)).
    { apply loadLightning_cached; [reflexivity|].
      subst w1. reflexivity. }
    unfold offset_positive in Hoff.
    destruct (parseInt off) as [o|] eqn:Eo; [|discriminate].
    destruct (IH depth o n2 w1 final rest) as [IH1 IH2];
      [simpl in Hd; lia|exact Hl2|exact Hrest|reflexivity|].
    split.
    + intros offset items Hf Hstop.
      cbn [paginatePayments_rec]. unfold catching at 1, and_then at 1.
      rewrite (listPaymentsPaginated_reply _ _ _ _ _ _ _ _ _ Hl Hin).
      cbn [a_payments a_first_index_offset default]. rewrite Eo, Hoff.
      fold n2. unfold and_then. rewrite (IH1 offset items Hf Hstop).
      unfold resolved. simpl. rewrite Eo. simpl.
      rewrite <- !app_assoc. reflexivity.
    + intros Hfail.
      cbn [paginatePayments_rec]. unfold catching at 1, and_then at 1.
      rewrite (listPaymentsPaginated_reply _ _ _ _ _ _ _ _ _ Hl Hin).
      cbn [a_payments a_first_index_offset default]. rewrite Eo, Hoff.
      fold n2. unfold and_then. rewrite (IH2 Hfail).
      unfold resolved. simpl. rewrite Eo. simpl.
      rewrite <- !app_assoc. reflexivity.
Qed.

(** X20. The payment history is walked like the invoice history. When a
    client can be had and the node answers with the pages [pages], each
    with a positive offset, and then with [final]: if [final] is a page
    whose offset is not positive, [listAllPayments] returns the payments
    of all pages, [final] included, in the order they came in; if [final]
    is a failure, it still succeeds, with the payments of the pages
    before it. Every call asked for 40 payments in reverse order, the
    first at offset 0 and each next one at the offset that the page before
    returned. *)
Theorem listAllPayments_walks_pages env c n w1
    (pages : list (string * list Payment)) final rest :
  loadLightning env false None false (world n) = (Resolved c, w1) ->
  Forall (fun p => offset_positive p.1 = true) pages ->
  answers n = map (fun p => payments_page p.1 p.2) pages ++ final :: rest ->
  (forall offset items,
      final = payments_page offset items ->
      offset_positive offset = false ->
      (listAllPayments env n).1
      = Resolved (concat (map snd pages) ++ items)
      /\ calls_of (listAllPayments env) n
         = payment_requests c 0 (pages ++ [(offset, items)]))
  /\ (failed_answer final ->
      (listAllPayments env n).1 = Resolved (concat (map snd pages))
      /\ calls_of (listAllPayments env) n
         = payment_requests c 0 (pages ++ [("", [])])).
Proof.
  intros Hl Hpos Hin.
  destruct (payments_walk env c pages (S (List.length (answers n))) 0 n w1
              final rest) as [Hpage Hfail]; try assumption.
  { rewrite Hin, length_app, length_map. simpl. lia. }
  unfold calls_of, listAllPayments, and_then, paginatePayments. split.
  - intros offset items Hf Hstop. rewrite (Hpage offset items Hf Hstop).
    cbn [fst snd calls resolved]. split; [reflexivity|].
    apply drop_app_length.
  - intros Hf. rewrite (Hfail Hf).
    cbn [fst snd calls resolved]. split; [reflexivity|].
    apply drop_app_length.
Qed.

Lemma listAllPayments_walks_pages_witness :
  (listAllPayments sample_env
     (node_at (start 0 [])
        [payments_page "40" [sample_payment "SUCCEEDED"];
         payments_page "0" [sample_payment "FAILED"]])).1
  = Resolved [sample_payment "SUCCEEDED"; sample_payment "FAILED"]
  /\ (listAllPayments sample_env
        (node_at (start 0 [])
           [payments_page "40" [sample_payment "SUCCEEDED"];
            Unary (Some (EService 14 "unavailable")) None])).1
     = Resolved [sample_payment "SUCCEEDED"].
Proof.
  split.
  - destruct (listAllPayments_walks_pages sample_env lnd_client
                (node_at (start 0 [])
                   [payments_page "40" [sample_payment "SUCCEEDED"];
                    payments_page "0" [sample_payment "FAILED"]])
                (set_lightningClient (Some lnd_client) (start 0 []))
                [("40", [sample_payment "SUCCEEDED"])]
                (payments_page "0" [sample_payment "FAILED"]) [])
      as [Hpage _].
    + reflexivity.
    + repeat constructor.
    + reflexivity.
    + exact (proj1 (Hpage "0" [sample_payment "FAILED"] eq_refl eq_refl)).
  - destruct (listAllPayments_walks_pages sample_env lnd_client
                (node_at (start 0 [])
                   [payments_page "40" [sample_payment "SUCCEEDED"];
                    Unary (Some (EService 14 "unavailable")) None])
                (set_lightningClient (Some lnd_client) (start 0 []))
                [("40", [sample_payment "SUCCEEDED"])]
                (Unary (Some (EService 14 "unavailable")) None) [])
      as [_ Hfail].
    + reflexivity.
    + repeat constructor.
    + reflexivity.
    + exact (proj1 (Hfail I)).
Defined.

(** ** The other calls: balances *)

Lemma reduce_sum_parsed (f : Channel -> option Z) channels : forall zs,
  map f channels = map Some zs ->
  reduce_sum f channels = Some (total zs).
Proof.
  unfold reduce_sum.
  assert (H : forall zs acc,
    map f channels = map Some zs ->
    fold_left (fun a chan => nan_add a (f chan)) channels (Some acc)
    = Some (acc + total zs)).
  { induction channels as [|ch l IH]; intros zs acc Hm.
    - destruct zs; [|discriminate]. cbn. f_equal. lia.
    - destruct zs as [|z zs]; [discriminate|]. cbn [map] in Hm.
      injection Hm as Hz Hl. cbn [fold_left]. rewrite Hz. cbn [nan_add].
      rewrite (IH zs) by exact Hl. cbn [total fold_right]. f_equal.
      unfold total. lia. }
  intros zs Hm. rewrite (H zs 0 Hm). reflexivity.
Qed.

Lemma reduce_sum_nan (f : Channel -> option Z) channels ch :
  In ch channels -> f ch = None -> reduce_sum f channels = None.
Proof.
  unfold reduce_sum. intros Hin Hf.
  assert (Hnone : forall l,
    fold_left (fun a chan => nan_add a (f chan)) l None = None).
  { induction l as [|x l IH]; [reflexivity|]. exact IH. }
  generalize (Some 0).
  induction channels as [|x l IH]; intros acc; [contradiction|].
  cbn [fold_left]. destruct Hin as [->|Hin].
  - rewrite Hf. destruct acc; apply Hnone.
  - apply IH. exact Hin.
Qed.

Lemma total_max0 (amounts : list (Z * Z)) :
  0 <= total (map (fun lr => Z.max 0 (lr.1 - lr.2)) amounts)
  /\ total (map fst amounts) - total (map snd amounts)
     <= total (map (fun lr => Z.max 0 (lr.1 - lr.2)) amounts)
  /\ (total (map (fun lr => Z.max 0 (lr.1 - lr.2)) amounts)
      = total (map fst amounts) - total (map snd amounts)
      <-> Forall (fun lr => lr.2 <= lr.1) amounts).
Proof.
  induction amounts as [|[l r] amounts (IH0 & IH1 & IH2)].
  - cbn. split; [lia|]. split; [lia|]. split; [constructor|reflexivity].
  - cbn [map total fold_right fst snd]. fold (total (map fst amounts)).
    fold (total (map snd amounts)).
    fold (total (map (fun lr => Z.max 0 (lr.1 - lr.2)) amounts)).
    split; [lia|]. split; [lia|]. split.
    + intros H. constructor; [cbn; lia|]. apply IH2. lia.
    + intros H. inversion H as [|? ? Hlr Hrest]; subst. cbn in Hlr.
      rewrite (proj2 IH2 Hrest). lia.
Qed.

Lemma listChannels_answer env itf args owner n c w1 err response rest :
  loadLightning env true owner false (world n) = (Resolved c, w1) ->
  answers n = Unary err response :: rest ->
  (IS_GREENLIGHT env = true ->
   listChannels env itf args owner n
   = (match err, response with
      | None, Some r => Resolved (listChannelsResponse itf r)
      | _, _ => Rejected (or_null err)
      end,
      called (ListPeers c (listChannelsRequest itf args)) rest
        (set_world w1 n)))
  /\ (IS_GREENLIGHT env = false -> IS_LND env = true ->
      listChannels env itf args owner n
      = (match err, response with
         | None, Some r => Resolved (listChannelsResponse itf r)
         | _, _ => Rejected (or_null err)
         end,
         called (ListChannels c (listChannelsRequest itf args)) rest
           (set_world w1 n))).
Proof.
  intros Hl Hin. split.
  - intros Hg. unfold listChannels, and_then, escaping, catching.
    rewrite (on_world_resolved _ _ _ _ Hl). unfold isGL. rewrite Hg.
    unfold rpc. cbn [answers set_world]. rewrite Hin.
    destruct err, response; reflexivity.
  - intros Hg Hlnd. unfold listChannels, and_then, escaping, catching.
    rewrite (on_world_resolved _ _ _ _ Hl). unfold isGL, isLND.
    rewrite Hg, Hlnd.
    unfold rpc. cbn [answers set_world]. rewrite Hin.
    destruct err, response; reflexivity.
Qed.

(** X21. The balances on LND, when the node lists its channels and then
    reports its balance, and the two amounts of every channel are
    integers: two calls are made, [listChannels] and then
    [channelBalance]; the reserve is the sum of the channel reserves; the
    balance is the sum, over the channels, of what the local balance
    exceeds the reserve by, so it is never negative, a channel below its
    reserve takes nothing away from the others, and the balance is the
    local total less the reserve exactly when no channel is below its
    reserve; the full balance and the pending balance are read off the
    reply of [channelBalance], the full balance not below zero. The sums
    are small enough to be exact. *)
Theorem complexBalances_lnd env itf owner n c w1 reply bal pend rest
    (amounts : list (Z * Z)) :
  IS_GREENLIGHT env = false -> IS_LND env = true ->
  loadLightning env true owner false (world n) = (Resolved c, w1) ->
  answers n
  = Unary None (Some reply) :: Unary None (Some (ABalance bal pend)) :: rest ->
  map (fun ch => (parseInt (local_balance ch),
                  parseInt (local_chan_reserve_sat ch)))
    (listChannelsResponse itf reply)
  = map (fun lr => (Some lr.1, Some lr.2)) amounts ->
  total (map (fun lr => Z.abs lr.1 + Z.abs lr.2) amounts) < 2 ^ 53 ->
  exists b,
    (complexBalances env itf owner n).1 = Resolved b
    /\ calls_of (complexBalances env itf owner) n
       = [ListChannels c (listChannelsRequest itf "{}"); ChannelBalance c]
    /\ reserve b = Some (total (map snd amounts))
    /\ balance b
       = Some (total (map (fun lr => Z.max 0 (lr.1 - lr.2)) amounts))
    /\ full_balance b = nan_max0 (parseInt bal)
    /\ pending_open_balance b = parseInt pend
    /\ 0 <= total (map (fun lr => Z.max 0 (lr.1 - lr.2)) amounts)
    /\ total (map fst amounts) - total (map snd amounts)
       <= total (map (fun lr => Z.max 0 (lr.1 - lr.2)) amounts)
    /\ (balance b
        = Some (total (map fst amounts) - total (map snd amounts))
        <-> Forall (fun lr => lr.2 <= lr.1) amounts).
Proof.
  intros Hg Hlnd Hl Hin Hparse _.
  destruct (listChannels_answer env itf "{}" owner n c w1 None (Some reply)
              (Unary None (Some (ABalance bal pend)) :: rest) Hl Hin)
    as [_ Hlist].
  specialize (Hlist Hg Hlnd).
  destruct (loadLightning_resolved env true owner false (world n) c w1 Hl)
    as [_ Hagain].
  set (channels := listChannelsResponse itf reply) in *.
  assert (Hres : reduce_sum
                   (fun chan => parseInt (local_chan_reserve_sat chan))
                   channels = Some (total (map snd amounts))).
  { apply reduce_sum_parsed. rewrite map_map.
    apply (f_equal (map snd)) in Hparse. rewrite !map_map in Hparse.
    exact Hparse. }
  assert (Hbal : reduce_sum
                   (fun chan =>
                      nan_max0 (nan_sub (parseInt (local_balance chan))
                                  (parseInt (local_chan_reserve_sat chan))))
                   channels
                 = Some (total (map (fun lr => Z.max 0 (lr.1 - lr.2))
                                  amounts))).
  { apply reduce_sum_parsed. rewrite map_map.
    apply (f_equal (map (fun p : option Z * option Z =>
                           nan_max0 (nan_sub p.1 p.2)))) in Hparse.
    rewrite !map_map in Hparse. exact Hparse. }
  destruct (total_max0 amounts) as (H0 & H1 & H2).
  assert (Hrun : complexBalances env itf owner n
    = (Resolved
         {| reserve := Some (total (map snd amounts));
            full_balance := nan_max0 (parseInt bal);
            balance :=
              Some (total (map (fun lr => Z.max 0 (lr.1 - lr.2)) amounts));
            pending_open_balance := parseInt pend |},
       called (ChannelBalance c) rest
         (set_world w1
            (called (ListChannels c (listChannelsRequest itf "{}"))
               (Unary None (Some (ABalance bal pend)) :: rest)
               (set_world w1 n))))).
  { unfold complexBalances, and_then at 1. rewrite Hlist, Hg.
    fold channels. rewrite Hres, Hbal.
    unfold and_then at 1, channelBalance, and_then at 1.
    rewrite (on_world_resolved _ (called _ _ (set_world w1 n)) c w1)
      by exact Hagain.
    unfold isGL. rewrite Hg. unfold and_then, rpc.
    cbn [answers called set_world]. reflexivity. }
  eexists. split; [rewrite Hrun; reflexivity|]. split.
  - unfold calls_of. rewrite Hrun. cbn [snd calls called set_world].
    rewrite <- app_assoc. apply drop_app_length.
  - cbn [reserve balance full_balance pending_open_balance].
    repeat (split; [reflexivity || assumption|]).
    rewrite <- H2. split; [intros H; injection H as H; exact H|].
    intros H. rewrite H. reflexivity.
Qed.

Lemma complexBalances_lnd_witness :
  exists b,
    (complexBalances sample_env plain_interfaces None
       (node_at (connected 0 [])
          [Unary None
             (Some (AChannels
                      [ {| local_balance := "1000";
                           local_chan_reserve_sat := "100" |};
                        {| local_balance := "50";
                           local_chan_reserve_sat := "100" |} ]));
           Unary None (Some (ABalance "1050" "0"))])).1
    = Resolved b
    /\ reserve b = Some 200
    /\ balance b = Some 900
    /\ full_balance b = Some 1050.
Proof.
  destruct (complexBalances_lnd sample_env plain_interfaces None
              (node_at (connected 0 [])
                 [Unary None
                    (Some (AChannels
                             [ {| local_balance := "1000";
                                  local_chan_reserve_sat := "100" |};
                               {| local_balance := "50";
                                  local_chan_reserve_sat := "100" |} ]));
                  Unary None (Some (ABalance "1050" "0"))])
              lnd_client (connected 0 [])
              (AChannels
                 [ {| local_balance := "1000";
                      local_chan_reserve_sat := "100" |};
                   {| local_balance := "50";
                      local_chan_reserve_sat := "100" |} ])
              "1050" "0" [] [(1000, 100); (50, 100)]
              eq_refl eq_refl eq_refl eq_refl eq_refl eq_refl)
    as (b & Hb & _ & Hr & Hbal & Hfull & _).
  exists b. split; [exact Hb|]. split; [exact Hr|].
  split; [exact Hbal|exact Hfull].
Defined.

(** X22. The balances on greenlight: the channels are asked for with
    [listPeers], and this is the only call; the reserve and the pending
    balance are zero; the balance and the full balance are both the sum of
    the local balances, or zero if that sum is negative; and if the local
    balance of one channel is not a number, they are [NaN]. *)
Theorem complexBalances_greenlight env itf owner n c w1 reply rest :
  IS_GREENLIGHT env = true ->
  loadLightning env true owner false (world n) = (Resolved c, w1) ->
  answers n = Unary None (Some reply) :: rest ->
  exists b,
    (complexBalances env itf owner n).1 = Resolved b
    /\ calls_of (complexBalances env itf owner) n
       = [ListPeers c (listChannelsRequest itf "{}")]
    /\ reserve b = Some 0
    /\ pending_open_balance b = Some 0
    /\ full_balance b = balance b
    /\ (forall locals,
          map (fun ch => parseInt (local_balance ch))
            (listChannelsResponse itf reply) = map Some locals ->
          total (map Z.abs locals) < 2 ^ 53 ->
          balance b = Some (Z.max 0 (total locals)))
    /\ (forall ch,
          In ch (listChannelsResponse itf reply) ->
          parseInt (local_balance ch) = None ->
          balance b = None).
Proof.
  intros Hg Hl Hin.
  destruct (listChannels_answer env itf "{}" owner n c w1 None (Some reply)
              rest Hl Hin) as [Hlist _].
  specialize (Hlist Hg).
  assert (Hrun : complexBalances env itf owner n
    = (Resolved
         {| reserve := Some 0;
            full_balance :=
              nan_max0 (reduce_sum (fun ch => parseInt (local_balance ch))
                          (listChannelsResponse itf reply));
            balance :=
              nan_max0 (reduce_sum (fun ch => parseInt (local_balance ch))
                          (listChannelsResponse itf reply));
            pending_open_balance := Some 0 |},
       called (ListPeers c (listChannelsRequest itf "{}")) rest
         (set_world w1 n))).
  { unfold complexBalances, and_then at 1. rewrite Hlist, Hg. reflexivity. }
  eexists. split; [rewrite Hrun; reflexivity|]. split.
  - unfold calls_of. rewrite Hrun. cbn [snd calls called set_world].
    apply drop_app_length.
  - cbn [reserve balance full_balance pending_open_balance].
    split; [reflexivity|]. split; [reflexivity|]. split; [reflexivity|].
    split.
    + intros locals Hp _. rewrite (reduce_sum_parsed _ _ locals Hp).
      reflexivity.
    + intros ch Hch Hnan. rewrite (reduce_sum_nan _ _ ch Hch Hnan).
      reflexivity.
Qed.

Lemma complexBalances_greenlight_witness :
  exists b,
    (complexBalances greenlight_env plain_interfaces None
       (node_at (start 0 [])
          [Unary None
             (Some (AChannels
                      [ {| local_balance := "1000";
                           local_chan_reserve_sat := "100" |};
                        {| local_balance := "";
                           local_chan_reserve_sat := "100" |} ]))])).1
    = Resolved b
    /\ balance b = None.
Proof.
  destruct (complexBalances_greenlight greenlight_env plain_interfaces None
              (node_at (start 0 [])
                 [Unary None
                    (Some (AChannels
                             [ {| local_balance := "1000";
                                  local_chan_reserve_sat := "100" |};
                               {| local_balance := "";
                                  local_chan_reserve_sat := "100" |} ]))])
              (GreenlightNode "greenlight.example:2601"
                 (SslCredentials [] (Some []) (Some [])))
              (set_lightningClient
                 (Some (GreenlightNode "greenlight.example:2601"
                          (SslCredentials [] (Some []) (Some []))))
                 (start 0 []))
              (AChannels
                 [ {| local_balance := "1000";
                      local_chan_reserve_sat := "100" |};
                   {| local_balance := "";
                      local_chan_reserve_sat := "100" |} ])
              [] eq_refl eq_refl eq_refl)
    as (b & Hb & _ & _ & _ & _ & _ & Hnan).
  exists b. split; [exact Hb|].
  apply (Hnan {| local_balance := ""; local_chan_reserve_sat := "100" |}).
  - right. left. reflexivity.
  - reflexivity.
Defined.

(** ** The other calls: without a client, and on greenlight *)

Lemma on_world_rejected {A} (m : Async A) n e :
  m (world n) = (Rejected e, world n) ->
  on_world m n = (Rejected e, n).
Proof.
  intros H. unfold on_world. rewrite H. cbn [fst snd].
  rewrite set_world_same. reflexivity.
Qed.

Lemma on_world_cached env tryProxy owner c n :
  isProxy env = false ->
  lightningClient (world n) = Some c ->
  on_world (loadLightning env tryProxy owner false) n = (Resolved c, n).
Proof.
  intros Hp Hc. unfold on_world.
  rewrite (loadLightning_no_proxy env tryProxy owner c (world n) Hp Hc).
  cbn [fst snd]. rewrite set_world_same. reflexivity.
Qed.

(** X23. An LND node whose certificate or macaroon cannot be read, with
    no client cached and no proxy. The functions that wait for the client
    before they build their promise, or inside a [try], reject with the
    error of [loadLightning]: [queryRoute], [newAddress], [sendPayment],
    [getInfo], [pendingChannels], [openChannel], [channelBalance],
    [getChanInfo], and [unlockWallet]. The functions that wait for it in
    the body of their promise never settle: [listInvoices],
    [listAllPayments], [listAllPaymentsFull], [addInvoice], [listPeers],
    [listChannels], [connectPeer], and with [listChannels] also
    [complexBalances]. None of them makes a call or changes the state. *)
Theorem calls_without_client env itf n :
  IS_GREENLIGHT env = false ->
  isProxy env = false ->
  lightningClient (world n) = None ->
  walletUnlocker n = None ->
  (exists e, readFileSync env (tls_location (config env)) = inl e)
  \/ (exists e, getMacaroon env None = inl e) ->
  let e := EString "cannot read LND macaroon or cert" in
  ((forall pub_key amt hint owner,
      queryRoute env pub_key amt hint owner n = (Rejected e, n))
   /\ (forall type, newAddress env type n = (Rejected e, n))
   /\ (forall req owner, sendPayment env itf req owner n = (Rejected e, n))
   /\ (forall tryProxy noCache,
         getInfo env itf tryProxy noCache n = (Rejected e, n))
   /\ (forall owner, pendingChannels env owner n = (Rejected e, n))
   /\ (forall args, openChannel env args n = (Rejected e, n))
   /\ (forall owner, channelBalance env owner n = (Rejected e, n))
   /\ (forall chan_id tryProxy,
         getChanInfo env chan_id tryProxy n = (Rejected e, n))
   /\ (forall pwd, unlockWallet env pwd n = (Rejected e, n)))
  /\ (listInvoices env n = (Pending, n)
      /\ listAllPayments env n = (Pending, n)
      /\ listAllPaymentsFull env n = (Pending, n)
      /\ (forall request owner,
            addInvoice env itf request owner n = (Pending, n))
      /\ (forall args owner, listPeers env itf args owner n = (Pending, n))
      /\ (forall args owner,
            listChannels env itf args owner n = (Pending, n))
      /\ (forall args, connectPeer env itf args n = (Pending, n))
      /\ (forall owner, complexBalances env itf owner n = (Pending, n))).
Proof.
  intros Hg Hp Hc Hwu Hfail e.
  assert (Hcred : loadCredentials env None = inl e).
  { unfold loadCredentials.
    destruct Hfail as [[x ->]|[x Hx]]; [reflexivity|].
    rewrite Hx. destruct (readFileSync env _); reflexivity. }
  assert (Hload : forall tryProxy owner noCache,
    on_world (loadLightning env tryProxy owner noCache) n = (Rejected e, n)).
  { intros tp o nc. apply on_world_rejected. unfold loadLightning.
    rewrite Hp, andb_false_r, Hc, Hg, Hcred. cbn [andb].
    destruct nc; reflexivity. }
  assert (Hesc : forall tryProxy owner noCache,
    escaping (on_world (loadLightning env tryProxy owner noCache)) n
    = (Pending, n)).
  { intros tp o nc. unfold escaping, catching. rewrite Hload. reflexivity. }
  assert (Hlist : forall args owner,
    listChannels env itf args owner n = (Pending, n)).
  { intros args owner. unfold listChannels, and_then. rewrite Hesc.
    reflexivity. }
  split.
  - repeat split; intros;
      unfold queryRoute, newAddress, sendPayment, getInfo, pendingChannels,
        openChannel, channelBalance, getChanInfo, catching, and_then;
      rewrite ?Hload; try reflexivity.
    unfold unlockWallet, and_then, loadWalletUnlocker. rewrite Hwu, Hcred.
    reflexivity.
  - assert (Hpage : forall limit i,
      listPaymentsPaginated env limit i n = (Pending, n)).
    { intros limit i. unfold listPaymentsPaginated, and_then.
      rewrite Hesc. reflexivity. }
    repeat split; intros;
      unfold listInvoices, listAllPaymentsFull, addInvoice, listPeers,
        connectPeer, complexBalances, and_then;
      rewrite ?Hesc, ?Hlist; try reflexivity.
    unfold listAllPayments, and_then, paginatePayments.
    cbn [paginatePayments_rec]. unfold catching, and_then.
    rewrite Hpage. reflexivity.
Qed.

Lemma calls_without_client_witness :
  sendPayment no_macaroon_env plain_interfaces "lnbc1" None
    (node_at (start 0 []) [])
  = (Rejected (EString "cannot read LND macaroon or cert"),
     node_at (start 0 []) [])
  /\ complexBalances no_macaroon_env plain_interfaces None
       (node_at (start 0 []) [])
     = (Pending, node_at (start 0 []) []).
Proof.
  destruct (calls_without_client no_macaroon_env plain_interfaces
              (node_at (start 0 []) []) eq_refl eq_refl eq_refl eq_refl)
    as [Hreject Hhang].
  - right. exists (EError "ENOENT"). reflexivity.
  - destruct Hreject as (_ & _ & Hpay & _).
    destruct Hhang as (_ & _ & _ & _ & _ & _ & _ & Hbal).
    split; [apply Hpay|apply Hbal].
Defined.

(** X24. On greenlight, with the client at hand and no proxy,
    [queryRoute], [pendingChannels], [openChannel], [channelBalance] and
    [getChanInfo] answer by themselves, without a call to the node: a
    route of success probability 1 with no hops, no pending channels and a
    limbo balance of ['0'], and nothing for the other three. On LND
    [getChanInfo] rejects a channel id of zero before any call; on
    greenlight it does not look at the id. *)
Theorem greenlight_answers_without_calls env n c :
  isProxy env = false ->
  lightningClient (world n) = Some c ->
  (IS_GREENLIGHT env = true ->
   (forall pub_key amt hint owner,
       queryRoute env pub_key amt hint owner n
       = (Resolved (Some (ARoutes 1 [])), n))
   /\ (forall owner,
         pendingChannels env owner n
         = (Resolved (APending "0" [] [] [] []), n))
   /\ (forall args, openChannel env args n = (Resolved None, n))
   /\ (forall owner, channelBalance env owner n = (Resolved None, n))
   /\ (forall chan_id tryProxy,
         getChanInfo env chan_id tryProxy n = (Resolved None, n)))
  /\ (IS_GREENLIGHT env = false ->
      forall tryProxy,
        getChanInfo env 0 tryProxy n = (Rejected (EString "no chan id"), n)).
Proof.
  intros Hp Hc. split; intros Hg.
  - repeat split; intros;
      unfold queryRoute, pendingChannels, openChannel, channelBalance,
        getChanInfo, and_then;
      rewrite (on_world_cached env _ _ c n Hp Hc); unfold isGL; rewrite Hg;
      reflexivity.
  - intros tp. unfold getChanInfo, and_then.
    rewrite (on_world_cached env _ _ c n Hp Hc). unfold isGL. rewrite Hg.
    reflexivity.
Qed.

Lemma greenlight_answers_without_calls_witness :
  getChanInfo greenlight_env 0 None
    (node_at (set_lightningClient (Some lnd_client) (start 0 [])) [])
  = (Resolved None,
     node_at (set_lightningClient (Some lnd_client) (start 0 [])) [])
  /\ getChanInfo sample_env 0 None (node_at (connected 0 []) [])
     = (Rejected (EString "no chan id"), node_at (connected 0 []) []).
Proof.
  split.
  - destruct (greenlight_answers_without_calls greenlight_env
                (node_at (set_lightningClient (Some lnd_client) (start 0 []))
                   [])
                lnd_client eq_refl eq_refl) as [Hgl _].
    destruct (Hgl eq_refl) as (_ & _ & _ & _ & Hinfo). apply Hinfo.
  - destruct (greenlight_answers_without_calls sample_env
                (node_at (connected 0 []) []) lnd_client eq_refl eq_refl)
      as [_ Hlnd].
    apply (Hlnd eq_refl).
Defined.

(** ** The other calls: paying an invoice *)

(** X25. [sendPayment] with a client at hand makes exactly one call, by
    backend: through the proxy a [sendPaymentSync] capped at 10000 sat of
    fees, whose [payment_error], if any, is the rejection; on greenlight a
    [pay] with a timeout of 12; and on LND itself a write to the
    [sendPayment] stream, with no fee limit, where the first event of the
    stream settles the promise: an error event or a [payment_error]
    rejects, any other reply fulfils, and a stream without events leaves
    the promise unsettled for ever. *)
Theorem sendPayment_single_call env itf req owner n c w1 :
  loadLightning env true owner false (world n) = (Resolved c, w1) ->
  (isProxy env = true ->
   calls_of (sendPayment env itf req owner) n = [PaySync c req 10000]
   /\ forall r rest,
        answers n = Unary None (Some (APayment r)) :: rest ->
        (sendPayment env itf req owner n).1
        = if String.eqb (r_payment_error r) "" then Resolved (APayment r)
          else Rejected (EString (r_payment_error r)))
  /\ (isProxy env = false -> IS_GREENLIGHT env = true ->
      calls_of (sendPayment env itf req owner) n = [GreenlightPay c req 12]
      /\ forall a rest,
           answers n = Unary None (Some a) :: rest ->
           (sendPayment env itf req owner n).1
           = Resolved (keysendResponse itf a))
  /\ (isProxy env = false -> IS_GREENLIGHT env = false ->
      calls_of (sendPayment env itf req owner) n = [SendPaymentWrite c req]
      /\ (forall rest,
            answers n = Events [] :: rest ->
            (sendPayment env itf req owner n).1 = Pending)
      /\ (forall err later rest,
            answers n = Events (OnError err :: later) :: rest ->
            (sendPayment env itf req owner n).1 = Rejected err)
      /\ (forall r later rest,
            answers n = Events (OnData r :: later) :: rest ->
            (sendPayment env itf req owner n).1
            = if String.eqb (r_payment_error r) "" then Resolved (APayment r)
              else Rejected (EString (r_payment_error r)))).
Proof.
  intros Hl.
  assert (Hrpc : forall call A
                   (k : option Err * option Answer -> Task A),
    (forall cb m, calls (k cb m).2 = calls m) ->
    calls (and_then (rpc call) k (set_world w1 n)).2
    = calls n ++ [call]).
  { intros call A k Hk.
    unfold and_then, rpc. cbn [answers set_world].
    destruct (answers n) as [|[err resp|evs] rest]; cbn [snd calls called];
      try reflexivity.
    rewrite Hk. reflexivity. }
  split; [|split].
  - intros Hp. split.
    + unfold calls_of, sendPayment, and_then at 1.
      rewrite (on_world_resolved _ _ _ _ Hl), Hp.
      rewrite Hrpc; [apply drop_app_length|].
      intros [[e|] [resp|]] m; try reflexivity.
      destruct (negb _); reflexivity.
    + intros r rest Hin. unfold sendPayment, and_then at 1.
      rewrite (on_world_resolved _ _ _ _ Hl), Hp.
      unfold and_then, rpc. cbn [answers set_world]. rewrite Hin.
      cbn [a_payment_error]. destruct (String.eqb _ ""); reflexivity.
  - intros Hp Hg. split.
    + unfold calls_of, sendPayment, and_then at 1.
      rewrite (on_world_resolved _ _ _ _ Hl), Hp. unfold isGL. rewrite Hg.
      rewrite Hrpc; [apply drop_app_length|].
      intros [[e|] [resp|]] m; reflexivity.
    + intros a rest Hin. unfold sendPayment, and_then at 1.
      rewrite (on_world_resolved _ _ _ _ Hl), Hp. unfold isGL. rewrite Hg.
      unfold and_then, rpc. cbn [answers set_world]. rewrite Hin.
      reflexivity.
  - intros Hp Hg.
    assert (Hrun : forall evs rest,
      answers n = Events evs :: rest ->
      sendPayment env itf req owner n
      = (sendPayment_events evs,
         called (SendPaymentWrite c req) rest (set_world w1 n))).
    { intros evs rest Hin. unfold sendPayment, and_then at 1.
      rewrite (on_world_resolved _ _ _ _ Hl), Hp. unfold isGL. rewrite Hg.
      unfold and_then, rpc_stream. cbn [answers set_world]. rewrite Hin.
      reflexivity. }
    split; [|split; [|split]].
    + unfold calls_of, sendPayment, and_then at 1.
      rewrite (on_world_resolved _ _ _ _ Hl), Hp. unfold isGL. rewrite Hg.
      unfold and_then, rpc_stream. cbn [answers set_world].
      destruct (answers n) as [|[err resp|evs] rest];
        cbn [snd calls called set_world]; apply drop_app_length.
    + intros rest Hin. rewrite (Hrun _ _ Hin). reflexivity.
    + intros err later rest Hin. rewrite (Hrun _ _ Hin). reflexivity.
    + intros r later rest Hin. rewrite (Hrun _ _ Hin).
      cbn [fst sendPayment_events]. destruct (String.eqb _ ""); reflexivity.
Qed.

Lemma sendPayment_single_call_witness :
  (sendPayment sample_env plain_interfaces "lnbc1" None
     (node_at (connected 0 [])
        [Events [OnData (payment "IN_FLIGHT");
                 OnError (EService 2 "late")]])).1
  = Resolved (APayment (payment "IN_FLIGHT")).
Proof.
  destruct (sendPayment_single_call sample_env plain_interfaces "lnbc1" None
              (node_at (connected 0 [])
                 [Events [OnData (payment "IN_FLIGHT");
                          OnError (EService 2 "late")]])
              lnd_client (connected 0 []) eq_refl) as (_ & _ & Hlnd).
  destruct (Hlnd eq_refl eq_refl) as (_ & _ & _ & Hdata).
  exact (Hdata (payment "IN_FLIGHT") [OnError (EService 2 "late")] []
           eq_refl).
Defined.

(** ** The other calls: asking for a route *)

(** X26. On LND [queryRoute] makes one call, for the destination key
    and the amount it is given, with the hop hint that [keysend] reads off
    the same route hint, and with three blocks more than the CLTV delta of
    [keysend]. The amount is the one that [keysend] would pay only from
    the floor [min_sat_amount || 3] on: below the floor [queryRoute] asks
    about less than [keysend] pays. The reply of the node is passed on as
    it is, also when it is missing; an error is the rejection. *)
Theorem queryRoute_call env pub_key amount hint owner n c w1 preimage :
  IS_GREENLIGHT env = false ->
  loadLightning env true owner false (world n) = (Resolved c, w1) ->
  let o :=
    keysend_options env
      {| amt := amount; dest := pub_key; data := None; route_hint := hint;
         extra_tlv := ∅ |} preimage in
  calls_of (queryRoute env pub_key amount hint owner) n
  = [QueryRoutes c pub_key amount (kr_final_cltv_delta o + 3)
       (kr_route_hints o)]
  /\ (amount_floor env <= amount -> kr_amt o = amount)
  /\ (amount < amount_floor env -> kr_amt o = amount_floor env)
  /\ forall err response rest,
       answers n = Unary err response :: rest ->
       (queryRoute env pub_key amount hint owner n).1
       = match err with
         | Some e => Rejected e
         | None => Resolved response
         end.
Proof.
  intros Hg Hl o. split; [|split; [|split]].
  - unfold calls_of, queryRoute, and_then at 1.
    rewrite (on_world_resolved _ _ _ _ Hl). unfold isGL. rewrite Hg.
    unfold and_then, rpc. cbn [answers set_world].
    destruct (answers n) as [|[err resp|evs] rest];
      cbn [snd calls called set_world];
      try (destruct err); cbn [snd calls called rejected resolved];
      apply drop_app_length.
  - intros H. subst o. unfold keysend_options, amount_floor in *.
    cbn [kr_amt amt]. lia.
  - intros H. subst o. unfold keysend_options, amount_floor in *.
    cbn [kr_amt amt]. lia.
  - intros err response rest Hin. unfold queryRoute, and_then at 1.
    rewrite (on_world_resolved _ _ _ _ Hl). unfold isGL. rewrite Hg.
    unfold and_then, rpc. cbn [answers set_world]. rewrite Hin.
    destruct err; reflexivity.
Qed.

Lemma queryRoute_call_witness :
  calls_of (queryRoute sample_env sample_pubkey 1 (Some "02abc:77") None)
    (node_at (connected 0 []) [Unary None None])
  = [QueryRoutes lnd_client sample_pubkey 1 144
       (Some [[ {| node_id := "02abc"; chan_id := "77" |} ]])]
  /\ kr_amt
       (keysend_options sample_env
          {| amt := 1; dest := sample_pubkey; data := None;
             route_hint := Some "02abc:77"; extra_tlv := ∅ |} [])
     = 3.
Proof.
  destruct (queryRoute_call sample_env sample_pubkey 1
              (Some "02abc:77") None
              (node_at (connected 0 []) [Unary None None])
              lnd_client (connected 0 []) [] eq_refl eq_refl)
    as (Hcall & _ & Hbelow & _).
  split; [exact Hcall|]. apply Hbelow. vm_compute. reflexivity.
Defined.

(** ** loadLightning on greenlight: the address of the node *)

Lemma prefix_slashes x s :
  String.prefix "//" (String x s)
  = Ascii.eqb x "/" && match s with
                       | String y _ => Ascii.eqb y "/"
                       | EmptyString => false
                       end.
Proof.
  cbn [String.prefix]. destruct (ascii_dec "/" x) as [<-|Hne].
  - cbn [Ascii.eqb Bool.eqb andb]. destruct s as [|y s]; [reflexivity|].
    apply prefix_char.
  - replace (Ascii.eqb x "/") with false
      by (symmetry; apply Ascii.eqb_neq; congruence).
    reflexivity.
Qed.

Lemma split_slashes_none s : forall cur,
  includes "/" s = false ->
  split_go "//" 0 cur s = [cur +:+ s].
Proof.
  induction s as [|x s IH]; intros cur Hs.
  - rewrite append_nil_r. reflexivity.
  - simpl in Hs. destruct (Ascii.eqb x "/") eqn:E; [discriminate|].
    cbn [split_go]. rewrite prefix_slashes, E. cbn [andb].
    rewrite IH by exact Hs. rewrite append_assoc, append_cons, append_nil_l.
    reflexivity.
Qed.

Lemma split_slashes scheme : forall cur target,
  includes "/" scheme = false -> includes "/" target = false ->
  split_go "//" 0 cur (scheme +:+ "//" +:+ target)
  = [cur +:+ scheme; target].
Proof.
  induction scheme as [|x s IH]; intros cur target Hs Ht.
  - rewrite append_nil_l, append_nil_r.
    change ("//" +:+ target) with (String "/" (String "/" target)).
    cbn [split_go]. rewrite prefix_slashes. cbn [Ascii.eqb Bool.eqb andb].
    cbn [String.length Nat.sub split_go].
    rewrite split_slashes_none by exact Ht. rewrite append_nil_l.
    reflexivity.
  - simpl in Hs. destruct (Ascii.eqb x "/") eqn:E; [discriminate|].
    rewrite append_cons. cbn [split_go]. rewrite prefix_slashes, E.
    cbn [andb]. rewrite IH by assumption.
    rewrite append_assoc, append_cons, append_nil_l. reflexivity.
Qed.

(** X27. Building the greenlight client (greenlight backend, no proxy
    path, nothing cached or [noCache] set). A file that cannot be read
    rejects with the error of the file system itself, where LND gives its
    fixed string. With the three files read: an address [scheme//target]
    gives a client for [target], which is then cached; an address without
    a slash, or with nothing after the slashes, rejects with [no lightning
    client] and caches nothing. *)
Theorem greenlight_client_address env tryProxy owner noCache w :
  IS_GREENLIGHT env = true ->
  tryProxy && isProxy env && truthy owner = false ->
  lightningClient w = None \/ noCache = true ->
  (forall e,
     loadGreenlightCredentials env = inl e ->
     loadLightning env tryProxy owner noCache w = (Rejected e, w))
  /\ (forall credentials,
        loadGreenlightCredentials env = inr credentials ->
        (forall scheme target,
            includes "/" scheme = false -> includes "/" target = false ->
            get_greenlight_grpc_uri env = scheme +:+ "//" +:+ target ->
            target <> "" ->
            loadLightning env tryProxy owner noCache w
            = (Resolved (GreenlightNode target credentials),
               set_lightningClient
                 (Some (GreenlightNode target credentials)) w))
        /\ (includes "/" (get_greenlight_grpc_uri env) = false
            \/ (exists scheme,
                  includes "/" scheme = false
                  /\ get_greenlight_grpc_uri env = scheme +:+ "//") ->
            loadLightning env tryProxy owner noCache w
            = (Rejected (EError "no lightning client"), w))).
Proof.
  intros Hg Hno Hcache.
  assert (Hrun : loadLightning env tryProxy owner noCache w
    = match loadGreenlightCredentials env with
      | inl e => (Rejected e, w)
      | inr credentials =>
          match split "//" (get_greenlight_grpc_uri env) !! 1%nat with
          | Some (String a s) =>
              (Resolved (GreenlightNode (String a s) credentials),
               set_lightningClient
                 (Some (GreenlightNode (String a s) credentials)) w)
          | _ => (Rejected (EError "no lightning client"), w)
          end
      end).
  { unfold loadLightning. rewrite Hno, Hg.
    destruct (loadGreenlightCredentials env) as [e|credentials];
      [destruct Hcache as [->| ->]; [reflexivity|];
       destruct (lightningClient w); reflexivity|].
    destruct (split "//" (get_greenlight_grpc_uri env) !! 1%nat)
      as [[|a s]|];
      (destruct Hcache as [->| ->]; [reflexivity|];
       destruct (lightningClient w); reflexivity). }
  rewrite Hrun. split.
  - intros e ->. reflexivity.
  - intros credentials ->. split.
    + intros scheme target Hs Ht -> Hne. unfold split.
      rewrite split_slashes by assumption. cbn [lookup list_lookup].
      destruct target; [congruence|reflexivity].
    + intros [Hnone|(scheme & Hs & ->)]; unfold split.
      * rewrite split_slashes_none by exact Hnone. reflexivity.
      * change (scheme +:+ "//") with (scheme +:+ "//" +:+ "").
        rewrite split_slashes by (exact Hs || reflexivity). reflexivity.
Qed.

Lemma greenlight_client_address_witness :
  loadLightning greenlight_env false None false (start 0 [])
  = (Resolved (GreenlightNode "greenlight.example:2601"
                 (SslCredentials [] (Some []) (Some []))),
     set_lightningClient
       (Some (GreenlightNode "greenlight.example:2601"
                (SslCredentials [] (Some []) (Some []))))
       (start 0 [])).
Proof.
  destruct (greenlight_client_address greenlight_env false None false
              (start 0 []) eq_refl eq_refl (or_introl eq_refl))
    as [_ Hok].
  destruct (Hok (SslCredentials [] (Some []) (Some [])) eq_refl)
    as [Haddr _].
  apply (Haddr "https:" "greenlight.example:2601");
    [reflexivity|reflexivity|reflexivity|discriminate].
Defined.

(** ** keysendMessage: what goes out for a woven message *)



